(** * Certificate tool: extraction, normalisation, reconciliation and export

    A shallow embedding of the certificate tool's pipeline
    (services/geminiService.ts, App.tsx, components/ReportTable.tsx,
    components/ExcelDataProvider.tsx) together with the properties its
    specification states about it.

    JavaScript strings are sequences of UTF-16 code units; they are modelled
    as [list Z].  JavaScript [Map]s keyed by strings are modelled as stdpp
    [gmap]s, [Set]s as lists without duplicates where the insertion order is
    observable. *)

From Stdlib Require Import ZArith Lia Bool List Ascii String.
From stdpp Require Import base option list gmap fin_maps.

Local Open Scope Z_scope.
Set Warnings "-register-all".

(* ===================================================================== *)
(** * JavaScript strings *)
(* ===================================================================== *)

Module JS.

(** A string value: its UTF-16 code units. *)
Abbreviation jsstring := (list Z).

(** Code units of an ASCII literal. *)
Fixpoint str (s : string) : jsstring :=
  match s with
  | EmptyString => []
  | String a s' => Z.of_nat (nat_of_ascii a) :: str s'
  end.

(** Truthiness of a string: every string but the empty one. *)
Definition truthy (s : jsstring) : bool :=
  match s with [] => false | _ :: _ => true end.

(** Truthiness of [string | null]. *)
Definition truthyOpt (o : option jsstring) : bool :=
  match o with None => false | Some s => truthy s end.

(** [a || b] on strings. *)
Definition orElse (a b : jsstring) : jsstring := if truthy a then a else b.

(** WhiteSpace and LineTerminator code units: the set removed by
    [String.prototype.trim] and matched by the regular expression class
    [\s]. *)
Definition isWhiteSpace (c : Z) : bool :=
  (c =? 9) || (c =? 10) || (c =? 11) || (c =? 12) || (c =? 13) || (c =? 32)
  || (c =? 160) || (c =? 5760) || ((8192 <=? c) && (c <=? 8202))
  || (c =? 8232) || (c =? 8233) || (c =? 8239) || (c =? 8287)
  || (c =? 12288) || (c =? 65279).

(** The regular expression class [\w]. *)
Definition isWordChar (c : Z) : bool :=
  ((48 <=? c) && (c <=? 57)) || ((65 <=? c) && (c <=? 90))
  || ((97 <=? c) && (c <=? 122)) || (c =? 95).

Fixpoint dropWhile (p : Z -> bool) (s : jsstring) : jsstring :=
  match s with
  | [] => []
  | c :: s' => if p c then dropWhile p s' else s
  end.

Definition trimStart (s : jsstring) : jsstring := dropWhile isWhiteSpace s.
Definition trimEnd (s : jsstring) : jsstring :=
  rev (dropWhile isWhiteSpace (rev s)).

(** [s.trim()] *)
Definition trim (s : jsstring) : jsstring := trimEnd (trimStart s).

(** [s.toLowerCase()] on the Basic Latin and Latin-1 Supplement blocks,
    where the engine folds case code unit by code unit: on a string whose
    code units are all below 256 this is the engine's function.  Outside
    these blocks the engine folds by code point (surrogate pairs, final
    sigma, results of another length) and this table leaves the code units
    as they are; what depends on lower-casing beyond Latin-1 is stated
    with the lower-casing function left open, see [normalizeGameNameWith]
    below. *)
Definition toLowerCaseUnit (c : Z) : Z :=
  if (65 <=? c) && (c <=? 90) then c + 32
  else if (192 <=? c) && (c <=? 222) && negb (c =? 215) then c + 32
  else c.

Definition toLowerCase (s : jsstring) : jsstring := map toLowerCaseUnit s.

(** Canonicalisation used by a case-insensitive regular expression without
    the unicode flag, on the Basic Latin block.  A code unit outside Basic
    Latin never canonicalises to a Basic Latin one, so comparing canonical
    forms is exact whenever one side is an ASCII pattern character. *)
Definition canonicalize (c : Z) : Z :=
  if (97 <=? c) && (c <=? 122) then c - 32 else c.

Definition eqUnitIgnoreCase (p c : Z) : bool :=
  canonicalize p =? canonicalize c.

(** Match the literal [pat] case-insensitively at the start of [s]; the
    rest of [s] after the match. *)
Fixpoint matchLiteralIgnoreCase (pat s : jsstring) : option jsstring :=
  match pat with
  | [] => Some s
  | p :: pat' =>
      match s with
      | [] => None
      | c :: s' =>
          if eqUnitIgnoreCase p c then matchLiteralIgnoreCase pat' s' else None
      end
  end.

Fixpoint startsWith (pat s : jsstring) : bool :=
  match pat with
  | [] => true
  | p :: pat' =>
      match s with
      | [] => false
      | c :: s' => (p =? c) && startsWith pat' s'
      end
  end.

(** [s.endsWith(pat)] *)
Definition endsWith (s pat : jsstring) : bool := startsWith (rev pat) (rev s).

(** [s.includes(pat)] *)
Fixpoint includes (s pat : jsstring) : bool :=
  startsWith pat s ||
  match s with
  | [] => false
  | _ :: s' => includes s' pat
  end.

(** [s.substring(0, n)] *)
Definition substring0 (n : nat) (s : jsstring) : jsstring := take n s.

(** [s.split(sep)] for a single code unit separator.  The result is never
    empty: a string without the separator is returned whole. *)
Fixpoint splitOn (sep : Z) (s : jsstring) : list jsstring :=
  match s with
  | [] => [[]]
  | c :: s' =>
      if c =? sep then [] :: splitOn sep s'
      else match splitOn sep s' with
           | [] => [[c]]
           | w :: ws => (c :: w) :: ws
           end
  end.

End JS.

Import JS.

(* ===================================================================== *)
(** * Name normaliser (App.tsx, ReportTable.tsx, ExcelDataProvider.tsx) *)
(* ===================================================================== *)

Definition copyToken : jsstring := str "(copy)".
Definition suffix94pct : jsstring := str "94%".
Definition suffixV94 : jsstring := str "v94".

(** The pattern [/\s*\(copy\)/i] tried at the start of [s]: the greedy
    white space run, then the token.  No other split of the run can match,
    since the token does not start with white space. *)
Definition matchCopyAt (s : jsstring) : option jsstring :=
  matchLiteralIgnoreCase copyToken (dropWhile isWhiteSpace s).

(** [.replace(/\s*\(copy\)/i, '')]: the pattern has no global flag, so only
    the leftmost match is removed. *)
Fixpoint replaceCopy (s : jsstring) : jsstring :=
  match matchCopyAt s with
  | Some rest => rest
  | None =>
      match s with
      | [] => []
      | c :: s' => c :: replaceCopy s'
      end
  end.

(** The pattern [/\s+(94%|v94)$/i] tried at the start of [s]. *)
Definition matchVersionAt (s : jsstring) : bool :=
  match s with
  | [] => false
  | c :: _ =>
      isWhiteSpace c &&
      let r := dropWhile isWhiteSpace s in
      (bool_decide (matchLiteralIgnoreCase suffix94pct r = Some [])
       || bool_decide (matchLiteralIgnoreCase suffixV94 r = Some []))
  end.

(** [.replace(/\s+(94%|v94)$/i, '')] *)
Fixpoint replaceVersion (s : jsstring) : jsstring :=
  if matchVersionAt s then []
  else match s with
       | [] => []
       | c :: s' => c :: replaceVersion s'
       end.

Definition isSymbol (c : Z) : bool :=
  (c =? 8482) || (c =? 174) || (c =? 169).

(** [.replace(/™|®|©/g, '')] *)
Definition stripSymbols (s : jsstring) : jsstring :=
  filter (fun c => isSymbol c = false) s.

(** [.replace(/\s+/g, ' ')]; [inRun] tells that the previous code unit was
    white space already replaced. *)
Fixpoint collapseFrom (inRun : bool) (s : jsstring) : jsstring :=
  match s with
  | [] => []
  | c :: s' =>
      if isWhiteSpace c
      then (if inRun then collapseFrom true s' else 32 :: collapseFrom true s')
      else c :: collapseFrom false s'
  end.

Definition collapseWhiteSpace (s : jsstring) : jsstring := collapseFrom false s.

(** The steps of [normalizeGameName] after the removal of the copy token. *)
Definition normalizeAfterCopy (s : jsstring) : jsstring :=
  trim (collapseWhiteSpace (stripSymbols (toLowerCase (replaceVersion s)))).

Definition normalizeGameName (name : option jsstring) : jsstring :=
  match name with
  | None => []
  | Some s =>
      if truthy s then normalizeAfterCopy (replaceCopy (trim s)) else []
  end.

(** [cleanGameNameForDisplay]: the same steps without the lower-casing. *)
Definition cleanGameNameForDisplay (name : option jsstring) : jsstring :=
  match name with
  | None => str "N/A"
  | Some s =>
      if truthy s
      then orElse
             (trim (collapseWhiteSpace (stripSymbols
                (replaceVersion (replaceCopy (trim s))))))
             (str "N/A")
      else str "N/A"
  end.

(** [normalizeGameName] with the engine's lower-casing left open: [lower]
    stands for [String.prototype.toLowerCase], of which nothing is
    assumed.  [normalizeGameName] is the instance at the Latin-1 table. *)
Definition normalizeAfterCopyWith (lower : jsstring -> jsstring)
    (s : jsstring) : jsstring :=
  trim (collapseWhiteSpace (stripSymbols (lower (replaceVersion s)))).

Definition normalizeGameNameWith (lower : jsstring -> jsstring)
    (name : option jsstring) : jsstring :=
  match name with
  | None => []
  | Some s =>
      if truthy s then normalizeAfterCopyWith lower (replaceCopy (trim s))
      else []
  end.

(* ===================================================================== *)
(** * Errors and results *)
(* ===================================================================== *)

(** A thrown value.  [MkError] is [new Error(message)]; [TypeErrorNull] is
    the engine's TypeError for a property read on [null]. *)
Inductive JsError :=
  | MkError (msg : jsstring)
  | TypeErrorNull (prop : jsstring).

(** [error.message] *)
Definition message (e : JsError) : jsstring :=
  match e with
  | MkError m => m
  | TypeErrorNull p =>
      str "Cannot read properties of null (reading '" ++ p ++ str "')"
  end.

Inductive Result (A : Type) :=
  | Ok (a : A)
  | Err (e : JsError).
Arguments Ok {A} a.
Arguments Err {A} e.

Definition bindR {A B} (r : Result A) (k : A -> Result B) : Result B :=
  match r with
  | Ok a => k a
  | Err e => Err e
  end.

#[global] Instance Result_bind : MBind Result := fun _ _ k r => bindR r k.
#[global] Instance Result_ret : MRet Result := fun _ a => Ok a.

(** Run [f] on every element, in order, stopping at the first throw. *)
Fixpoint mapR {A B} (f : A -> Result B) (l : list A) : Result (list B) :=
  match l with
  | [] => Ok []
  | a :: l' => b ← f a; bs ← mapR f l'; Ok (b :: bs)
  end.

Definition isErr {A} (r : Result A) : bool :=
  match r with Ok _ => false | Err _ => true end.

(* ===================================================================== *)
(** * Data model (types.ts) *)
(* ===================================================================== *)

(** The value returned by [JSON.parse].  A number is kept as its literal;
    the members of an object are listed in source order. *)
Inductive json :=
  | JNull
  | JBool (b : bool)
  | JNumber (literal : jsstring)
  | JString (s : jsstring)
  | JArray (elements : list json)
  | JObject (members : list (jsstring * json)).

(** The records of types.ts.  The interfaces declare the optional fields as
    [string | null]; the validator passes whatever JSON value it finds
    through, so the records are parametric in the type [V] of these fields:
    [json] for what the extraction produces, [option jsstring] for what the
    report and export components are declared to consume. *)
Record FileDetail (V : Type) := mkFileDetail {
  name : jsstring;
  md5 : V;
  sha1 : V
}.
Arguments mkFileDetail {V}.
Arguments name {V}.
Arguments md5 {V}.
Arguments sha1 {V}.

Record GameInstanceData (V : Type) := mkGameInstanceData {
  gameName : V;
  gameCode : V;
  files : list (FileDetail V)
}.
Arguments mkGameInstanceData {V}.
Arguments gameName {V}.
Arguments gameCode {V}.
Arguments files {V}.

Record ExtractedGeminiInfo (V : Type) := mkExtractedGeminiInfo {
  reportNumber : V;
  certificationDate : V;
  supplierRegistrationNumber : V;
  gameInstances : list (GameInstanceData V)
}.
Arguments mkExtractedGeminiInfo {V}.
Arguments reportNumber {V}.
Arguments certificationDate {V}.
Arguments supplierRegistrationNumber {V}.
Arguments gameInstances {V}.

(** The status literals of [ProcessedFileData]. *)
Inductive Status :=
  | st_pending | st_processing | st_completed | st_error | st_queued.

#[global] Instance Status_eq_dec : EqDecision Status.
Proof. solve_decision. Defined.

Record ProcessedFileData (V : Type) := mkProcessedFileData {
  id : jsstring;
  pdfFileName : jsstring;
  status : Status;
  errorMessage : option jsstring;
  pfReportNumber : V;
  pfCertificationDate : V;
  pfSupplierRegistrationNumber : V;
  extractedInstances : list (GameInstanceData V)
}.
Arguments mkProcessedFileData {V}.
Arguments id {V}.
Arguments pdfFileName {V}.
Arguments status {V}.
Arguments errorMessage {V}.
Arguments pfReportNumber {V}.
Arguments pfCertificationDate {V}.
Arguments pfSupplierRegistrationNumber {V}.
Arguments extractedInstances {V}.

Record ProviderInfo := mkProviderInfo {
  provider : jsstring;
  portalLiveDate : option jsstring;
  imsGameCode : option jsstring
}.

(** [GameProviderMap = Map<string, ProviderInfo>] *)
Abbreviation GameProviderMap := (gmap jsstring ProviderInfo).

(** An uploaded [File]: its name, MIME type, size in bytes and content. *)
Record File := mkFile {
  fileName : jsstring;
  fileType : jsstring;
  fileSize : Z;
  fileBytes : list Z
}.

(* ===================================================================== *)
(** * Extraction validator (services/geminiService.ts) *)
(* ===================================================================== *)

(** The member bound to [k]; the last one when a key is repeated in the
    source text, as [JSON.parse] keeps it. *)
Fixpoint lookupMember (k : jsstring) (ms : list (jsstring * json))
  : option json :=
  match ms with
  | [] => None
  | (k', v) :: ms' =>
      match lookupMember k ms' with
      | Some w => Some w
      | None => if decide (k' = k) then Some v else None
      end
  end.

(** The property read [v.k] for the keys the validator reads, none of which
    is a built-in property of a string, number, boolean or array: [None] is
    [undefined].  Reading a property of [null] throws. *)
Definition getProp (v : json) (k : jsstring) : Result (option json) :=
  match v with
  | JNull => Err (TypeErrorNull k)
  | JObject ms => Ok (lookupMember k ms)
  | _ => Ok None
  end.

(** [typeof x === 'undefined'] *)
Definition isUndefined (x : option json) : bool :=
  match x with None => true | Some _ => false end.

(** [Array.isArray(x)] *)
Definition isArray (x : option json) : bool :=
  match x with Some (JArray _) => true | _ => false end.

(** [typeof x === 'string'] *)
Definition isString (x : option json) : bool :=
  match x with Some (JString _) => true | _ => false end.

(** [x ?? null] *)
Definition nullish (x : option json) : json :=
  match x with
  | None => JNull
  | Some JNull => JNull
  | Some v => v
  end.

(** [x === undefined ? null : x] *)
Definition undefinedToNull (x : option json) : json :=
  match x with None => JNull | Some v => v end.

Definition structureErrorMessage : jsstring :=
  str "Parsed JSON does not match expected structure (missing reportNumber, certificationDate, supplierRegistrationNumber, or gameInstances array).".
Definition instanceErrorMessage : jsstring :=
  str "Parsed JSON for a game instance is invalid (missing gameName, gameCode, or files array).".
Definition fileErrorMessage : jsstring :=
  str "Parsed JSON for a file entry is invalid (missing name).".

Definition checkFile (file : json) : Result unit :=
  n ← getProp file (str "name");
  if negb (isString n) then Err (MkError fileErrorMessage) else Ok tt.

Definition checkInstance (instance : json) : Result unit :=
  gn ← getProp instance (str "gameName");
  gc ← getProp instance (str "gameCode");
  fs ← getProp instance (str "files");
  if isUndefined gn || isUndefined gc || negb (isArray fs)
  then Err (MkError instanceErrorMessage)
  else match fs with
       | Some (JArray fl) => _ ← mapR checkFile fl; Ok tt
       | _ => Ok tt
       end.

Definition structureFile (f : json) : Result (FileDetail json) :=
  n ← getProp f (str "name");
  m ← getProp f (str "md5");
  s ← getProp f (str "sha1");
  Ok (mkFileDetail
        (match n with Some (JString x) => x | _ => [] end)
        (undefinedToNull m) (undefinedToNull s)).

Definition structureInstance (instance : json)
  : Result (GameInstanceData json) :=
  gn ← getProp instance (str "gameName");
  gc ← getProp instance (str "gameCode");
  fs ← getProp instance (str "files");
  fl ← mapR structureFile
          (match fs with Some (JArray l) => l | _ => [] end);
  Ok (mkGameInstanceData (nullish gn) (nullish gc) fl).

(** [validateAndStructureData(parsedData, rawResponseText)].  The raw text
    only goes to the console. *)
Definition validateAndStructureData (parsedData : json)
    (rawResponseText : jsstring) : Result (ExtractedGeminiInfo json) :=
  rn ← getProp parsedData (str "reportNumber");
  cd ← getProp parsedData (str "certificationDate");
  sr ← getProp parsedData (str "supplierRegistrationNumber");
  gi ← getProp parsedData (str "gameInstances");
  if isUndefined rn || isUndefined cd || isUndefined sr || negb (isArray gi)
  then Err (MkError structureErrorMessage)
  else
    let instances := match gi with Some (JArray l) => l | _ => [] end in
    _ ← mapR checkInstance instances;
    il ← mapR structureInstance instances;
    Ok (mkExtractedGeminiInfo (nullish rn) (nullish cd) (nullish sr) il).

(* ===================================================================== *)
(** * Extraction client (services/geminiService.ts) *)
(* ===================================================================== *)

Definition MAX_RETRIES : nat := 3.
Definition RETRY_DELAY_MS : Z := 1000.

(** What [ai.models.generateContent] does with one request: it resolves
    with a response text or rejects with an error.  A response without
    text makes the [trim] of the client throw inside the same [try], which
    is a rejection for what follows. *)
Inductive ModelOutcome :=
  | Responded (text : jsstring)
  | Threw (e : JsError).

Inductive ClientRequest :=
  | TextRequest (ocrText apiKey : jsstring)
  | ImageRequest (imageBase64 mimeType apiKey : jsstring).

(** Observable steps: a model request, a [setTimeout] delay, a status
    written by the batch orchestrator. *)
Inductive Event :=
  | EvGenerate (req : ClientRequest)
  | EvSleep (ms : Z)
  | EvStatus (fileId : jsstring) (s : Status).

(** The collaborators outside the repository.  [generateContent n] is the
    outcome of the [n]-th model request made since the start; the other
    fields are [JSON.parse], the text items pdf.js finds on each page and
    [FileReader.readAsDataURL] ([None]: the result is not a string). *)
Record Externals := mkExternals {
  JSON_parse : jsstring -> Result json;
  generateContent : nat -> ModelOutcome;
  pdfTextItems : File -> Result (list (list jsstring));
  readAsDataURL : File -> Result (option jsstring)
}.

(** The number of model requests made so far and the steps observed. *)
Record World := mkWorld {
  calls : nat;
  log : list Event
}.

Definition emit (ev : Event) (w : World) : World :=
  mkWorld (calls w) (log w ++ [ev]).

Definition request (ext : Externals) (req : ClientRequest) (w : World)
  : ModelOutcome * World :=
  (generateContent ext (calls w),
   mkWorld (S (calls w)) (log w ++ [EvGenerate req])).

Definition fence : jsstring := str "```".

(** The fence pattern of the client (an opening fence, an optional word as
    language tag, white space, a lazy group, white space, a closing fence,
    anchored at both ends, dot matching line breaks) applied to the trimmed
    response.  It matches when the text opens and closes with fences that
    do not overlap; the greedy tag and white space are consumed first, and
    the lazy group stops before the white space that precedes the closing
    fence.  The trimmed group replaces the text when the group is not
    empty. *)
Definition stripFence (jsonStr : jsstring) : jsstring :=
  if startsWith fence jsonStr && endsWith jsonStr fence
     && (6 <=? length jsonStr)%nat
  then
    let inner := take (length jsonStr - 6) (drop 3 jsonStr) in
    let group := trimEnd (dropWhile isWhiteSpace (dropWhile isWordChar inner)) in
    if truthy group then trim group else jsonStr
  else jsonStr.

(** The body of the [try] of one attempt, given what the model request did:
    the inner [try] rewraps a parse or validation error. *)
Definition tryExtract (ext : Externals) (label : jsstring)
    (outcome : ModelOutcome) : Result (ExtractedGeminiInfo json) :=
  match outcome with
  | Threw e => Err e
  | Responded text =>
      let jsonStr := stripFence (trim text) in
      match (parsedData ← JSON_parse ext jsonStr;
             validateAndStructureData parsedData text) with
      | Ok d => Ok d
      | Err e =>
          Err (MkError (str "Failed to parse/validate JSON from AI ("
                        ++ label ++ str "). Raw: " ++ substring0 1000 text
                        ++ str ". Err: " ++ message e))
      end
  end.

Definition invalidKeyError : JsError :=
  MkError (str "The provided API Key is invalid or has been rejected by Google.").

Definition exhaustedError (label : jsstring) : JsError :=
  MkError (str "Failed to extract info from " ++ label
           ++ str " after 3 attempts.").

(** The loop [for (let attempt = 1; attempt <= MAX_RETRIES; attempt++)] with
    [remaining = MAX_RETRIES + 1 - attempt] iterations to go, and the
    [throw] after it. *)
Fixpoint retryLoop (ext : Externals) (label : jsstring) (req : ClientRequest)
    (remaining : nat) (lastError : option JsError) (w : World)
  : Result (ExtractedGeminiInfo json) * World :=
  match remaining with
  | O =>
      (Err (match lastError with
            | Some e => e
            | None => exhaustedError label
            end), w)
  | S r =>
      let attempt := (MAX_RETRIES - r)%nat in
      let '(outcome, w1) := request ext req w in
      match tryExtract ext label outcome with
      | Ok d => (Ok d, w1)
      | Err error =>
          let errorMessage := message error in
          if includes errorMessage (str "API key not valid")
          then (Err invalidKeyError, w1)
          else if includes errorMessage (str "500")
                  && (attempt <? MAX_RETRIES)%nat
          then retryLoop ext label req r (Some error)
                 (emit (EvSleep (RETRY_DELAY_MS * Z.of_nat attempt)) w1)
          else retryLoop ext label req r (Some error) w1
      end
  end.

Definition missingKeyError : JsError :=
  MkError (str "API Key is not provided.").

Definition extractInfoFromText (ext : Externals) (ocrText apiKey : jsstring)
    (w : World) : Result (ExtractedGeminiInfo json) * World :=
  if negb (truthy apiKey) then (Err missingKeyError, w)
  else retryLoop ext (str "text") (TextRequest ocrText apiKey)
         MAX_RETRIES None w.

Definition extractInfoFromImage (ext : Externals)
    (imageBase64 mimeType apiKey : jsstring) (w : World)
  : Result (ExtractedGeminiInfo json) * World :=
  if negb (truthy apiKey) then (Err missingKeyError, w)
  else retryLoop ext (str "image") (ImageRequest imageBase64 mimeType apiKey)
         MAX_RETRIES None w.

(** The number of model requests in a log. *)
Definition isGenerate (ev : Event) : bool :=
  match ev with EvGenerate _ => true | _ => false end.

Definition requestCount (l : list Event) : nat :=
  length (filter (fun ev => isGenerate ev = true) l).

(** The delays in a log, in order. *)
Definition delays (l : list Event) : list Z :=
  omap (fun ev => match ev with EvSleep ms => Some ms | _ => None end) l.

(* ===================================================================== *)
(** * Batch orchestrator (App.tsx) *)
(* ===================================================================== *)

(** [items.join(' ')] *)
Fixpoint joinSpace (items : list jsstring) : jsstring :=
  match items with
  | [] => []
  | [x] => x
  | x :: rest => x ++ [32] ++ joinSpace rest
  end.

(** [extractTextFromPdf]: the items of each page joined by a space, a line
    feed after each page. *)
Definition extractTextFromPdf (ext : Externals) (file : File)
  : Result jsstring :=
  pages ← pdfTextItems ext file;
  Ok (concat (map (fun items => joinSpace items ++ [10]) pages)).

(** [convertFileToBase64AndGetMime] *)
Definition convertFileToBase64AndGetMime (ext : Externals) (file : File)
  : Result (jsstring * jsstring) :=
  r ← readAsDataURL ext file;
  match r with
  | None => Err (MkError (str "File could not be read as a data URL."))
  | Some result =>
      let parts := splitOn 59 result in
      if (length parts <? 2)%nat
         || negb (startsWith (str "data:") (nth 0 parts []))
      then Err (MkError (str "Invalid Data URL format"))
      else Ok (drop 7 (nth 1 parts []), drop 5 (nth 0 parts []))
  end.

Definition isPdfType (t : jsstring) : bool :=
  bool_decide (t = str "application/pdf").
Definition isImageType (t : jsstring) : bool :=
  startsWith (str "image/png") t || startsWith (str "image/jpeg") t.

(** The body of the [try] of one file of the batch. *)
Definition tryProcess (ext : Externals) (apiKey : jsstring)
    (originalFilesMap : gmap jsstring File) (fileId : jsstring) (w : World)
  : Result (ExtractedGeminiInfo json) * World :=
  match originalFilesMap !! fileId with
  | None => (Err (MkError (str "Original file not found for processing.")), w)
  | Some file =>
      if isPdfType (fileType file) then
        match extractTextFromPdf ext file with
        | Err e => (Err e, w)
        | Ok textContent =>
            if negb (truthy (trim textContent))
            then (Err (MkError
                    (str "No text content could be extracted from the PDF.")), w)
            else extractInfoFromText ext textContent apiKey w
        end
      else if isImageType (fileType file) then
        match convertFileToBase64AndGetMime ext file with
        | Err e => (Err e, w)
        | Ok (base64, mimeType) =>
            if negb (truthy base64)
            then (Err (MkError (str "Could not convert image to base64.")), w)
            else extractInfoFromImage ext base64 mimeType apiKey w
        end
      else (Err (MkError (str "Unsupported file type for processing: "
                          ++ fileType file)), w)
  end.

Definition withStatus {V} (s : Status) (f : ProcessedFileData V)
  : ProcessedFileData V :=
  mkProcessedFileData (id f) (pdfFileName f) s (errorMessage f)
    (pfReportNumber f) (pfCertificationDate f)
    (pfSupplierRegistrationNumber f) (extractedInstances f).

Definition withError {V} (msg : jsstring) (f : ProcessedFileData V)
  : ProcessedFileData V :=
  mkProcessedFileData (id f) (pdfFileName f) st_error (Some msg)
    (pfReportNumber f) (pfCertificationDate f)
    (pfSupplierRegistrationNumber f) (extractedInstances f).

Definition withExtracted {V} (d : ExtractedGeminiInfo V)
    (f : ProcessedFileData V) : ProcessedFileData V :=
  mkProcessedFileData (id f) (pdfFileName f) st_completed (errorMessage f)
    (reportNumber d) (certificationDate d) (supplierRegistrationNumber d)
    (gameInstances d).

(** [prev.map(f => f.id === fileId ? g(f) : f)] *)
Definition updateById {V} (fileId : jsstring)
    (g : ProcessedFileData V -> ProcessedFileData V)
    (prev : list (ProcessedFileData V)) : list (ProcessedFileData V) :=
  map (fun f => if decide (id f = fileId) then g f else f) prev.

Definition defaultFailureMessage : jsstring :=
  str "Failed to process file or extract data.".

(** The message stored for a caught error:
    [error.message || 'Failed to process file or extract data.'] *)
Definition storedMessage (e : JsError) : jsstring :=
  orElse (message e) defaultFailureMessage.

(** One iteration of the batch loop. *)
Definition processFile (ext : Externals) (apiKey : jsstring)
    (originalFilesMap : gmap jsstring File)
    (st : list (ProcessedFileData json) * World)
    (currentFileToProcess : ProcessedFileData json)
  : list (ProcessedFileData json) * World :=
  let fileId := id currentFileToProcess in
  let files1 := updateById fileId (withStatus st_processing) st.1 in
  let w1 := emit (EvStatus fileId st_processing) st.2 in
  match tryProcess ext apiKey originalFilesMap fileId w1 with
  | (Ok extractedData, w2) =>
      (updateById fileId (withExtracted extractedData) files1,
       emit (EvStatus fileId st_completed) w2)
  | (Err e, w2) =>
      (updateById fileId (withError (storedMessage e)) files1,
       emit (EvStatus fileId st_error) w2)
  end.

Definition isQueued {V} (f : ProcessedFileData V) : bool :=
  bool_decide (status f = st_queued).

(** [handleStartProcessing], from the state it closes over to the state it
    leaves. *)
Definition handleStartProcessing (ext : Externals)
    (isBatchProcessing isZipping : bool) (apiKey : jsstring)
    (processedFiles : list (ProcessedFileData json))
    (originalFilesMap : gmap jsstring File) (w : World)
  : list (ProcessedFileData json) * World :=
  if isBatchProcessing || isZipping then (processedFiles, w)
  else if negb (truthy apiKey) then
    (map (fun f => if isQueued f
                   then withError (str "API Key not set.") f else f)
       processedFiles, w)
  else
    let filesToProcess := filter (fun f => isQueued f = true) processedFiles in
    if (length filesToProcess =? 0)%nat then (processedFiles, w)
    else foldl (processFile ext apiKey originalFilesMap) (processedFiles, w)
           filesToProcess.

(* ===================================================================== *)
(** * Provider table loader (components/ExcelDataProvider.tsx) *)
(* ===================================================================== *)

(** [s || null] *)
Definition orNull (s : jsstring) : option jsstring :=
  if truthy s then Some s else None.

(** The body of the [forEach] of [handleParseData] for one line: the entry
    the line records, if it records one. *)
Definition parseLine (line : jsstring) : option (jsstring * ProviderInfo) :=
  let parts := splitOn 9 line in
  if (6 <=? length parts)%nat then
    let gameName := trim (nth 0 parts []) in
    let providerName := trim (nth 1 parts []) in
    let portalLiveDate := orNull (trim (nth 3 parts [])) in
    let imsGameCode := orNull (trim (nth 5 parts [])) in
    if truthy gameName && truthy providerName then
      let normalizedKey := normalizeGameName (Some gameName) in
      if truthy normalizedKey
      then Some (normalizedKey,
                 mkProviderInfo providerName portalLiveDate imsGameCode)
      else None
    else None
  else None.

Definition recordLine (acc : GameProviderMap * nat) (line : jsstring)
  : GameProviderMap * nat :=
  match parseLine line with
  | Some (normalizedKey, info) => (<[normalizedKey := info]> acc.1, S acc.2)
  | None => acc
  end.

(** The lines after the header row, if the first line is one. *)
Definition dataLinesOf (excelData : jsstring) : list jsstring :=
  let lines := splitOn 10 excelData in
  match lines with
  | l0 :: rest =>
      if truthy l0 && includes (toLowerCase l0) (str "game provider")
      then rest else lines
  | [] => lines
  end.

(** [handleParseData]: the arguments it passes to [onDataParsed]. *)
Definition handleParseData (excelData : jsstring) : GameProviderMap * nat :=
  foldl recordLine (∅, 0%nat) (dataLinesOf excelData).

(* ===================================================================== *)
(** * Reconciliation (components/ReportTable.tsx) *)
(* ===================================================================== *)

Definition addProviderCode (gameNameKey : jsstring) (providerInfo : ProviderInfo)
    (acc : gmap jsstring jsstring) : gmap jsstring jsstring :=
  match imsGameCode providerInfo with
  | Some code => if truthy code then <[gameNameKey := code]> acc else acc
  | None => acc
  end.

Definition fillFromInstance (acc : gmap jsstring jsstring)
    (instance : GameInstanceData (option jsstring)) : gmap jsstring jsstring :=
  let gameNameKey := normalizeGameName (gameName instance) in
  if truthy gameNameKey && negb (bool_decide (is_Some (acc !! gameNameKey)))
     && truthyOpt (gameCode instance)
  then match gameCode instance with
       | Some code => <[gameNameKey := code]> acc
       | None => acc
       end
  else acc.

Definition fillFromFile (acc : gmap jsstring jsstring)
    (fileEntry : ProcessedFileData (option jsstring)) : gmap jsstring jsstring :=
  if decide (status fileEntry = st_completed)
  then foldl fillFromInstance acc (extractedInstances fileEntry)
  else acc.

(** [authoritativeImsCodeMap] as both copy functions build it: the provider
    table's codes first, then the extracted ones for the keys still free. *)
Definition authoritativeImsCodeMap (gameProviderMap : GameProviderMap)
    (data : list (ProcessedFileData (option jsstring)))
  : gmap jsstring jsstring :=
  foldl fillFromFile (map_fold addProviderCode ∅ gameProviderMap) data.

(* ===================================================================== *)
(** * Provider-partitioned export (App.tsx) *)
(* ===================================================================== *)

Definition uncategorized : jsstring := str "Uncategorized".

(** The folder of one game instance. *)
Definition folderNameOf (gameProviderMap : GameProviderMap)
    (instance : GameInstanceData (option jsstring)) : jsstring :=
  let gameNameKey := normalizeGameName (gameName instance) in
  let providerInfo := gameProviderMap !! gameNameKey in
  let providerName := provider <$> providerInfo in
  let providerName :=
    if truthyOpt providerName then providerName
    else match gameCode instance with
         | Some gc =>
             if truthy gc then
               if endsWith gc (str "_mcg") then Some (str "Games Global")
               else if endsWith gc (str "_prg") then Some (str "Pragmatic")
               else providerName
             else providerName
         | None => providerName
         end in
  match providerName with
  | Some p => orElse (trim p) uncategorized
  | None => uncategorized
  end.

(** A call [zip.folder(folder).file(entryName, content, ...)].  The
    development speaks of these calls, in the order in which they are
    made, not of the entries of the archive built from them: the archive
    library keeps one entry for each path, so a later call with the folder
    and the name of an earlier one replaces what the earlier one put
    there. *)
Record ZipEntry := mkZipEntry {
  folder : jsstring;
  entryName : jsstring;
  content : File
}.

(** The body of the loop over the instances of one file; the state is the
    calls made on the archive so far and [processedFolders].  [zip.folder]
    of the archive library always returns a folder. *)
Definition addInstance (gameProviderMap : GameProviderMap) (originalFile : File)
    (st : list ZipEntry * list jsstring)
    (instance : GameInstanceData (option jsstring))
  : list ZipEntry * list jsstring :=
  let folderName := folderNameOf gameProviderMap instance in
  if bool_decide (folderName ∈ st.2) then st
  else (st.1 ++ [mkZipEntry folderName (fileName originalFile) originalFile],
        st.2 ++ [folderName]).

(** The body of the loop over the completed files; the state is the calls
    made on the archive so far and [filesAddedToZip]. *)
Definition exportFile (gameProviderMap : GameProviderMap)
    (originalFilesMap : gmap jsstring File)
    (st : list ZipEntry * nat)
    (processedFile : ProcessedFileData (option jsstring))
  : list ZipEntry * nat :=
  match originalFilesMap !! id processedFile with
  | None => st
  | Some originalFile =>
      let '(zip1, processedFolders) :=
        foldl (addInstance gameProviderMap originalFile) (st.1, [])
          (extractedInstances processedFile) in
      let '(zip2, processedFolders2) :=
        if (length processedFolders =? 0)%nat
        then (zip1 ++ [mkZipEntry uncategorized (fileName originalFile)
                         originalFile],
              processedFolders ++ [uncategorized])
        else (zip1, processedFolders) in
      if (0 <? length processedFolders2)%nat
      then (zip2, S st.2) else (zip2, st.2)
  end.

Definition isCompleted {V} (f : ProcessedFileData V) : bool :=
  bool_decide (status f = st_completed).

(** The loop of [handleExportZip]: the calls on the archive, in order, and
    [filesAddedToZip]. *)
Definition exportLoop (gameProviderMap : GameProviderMap)
    (originalFilesMap : gmap jsstring File)
    (processedFiles : list (ProcessedFileData (option jsstring)))
  : list ZipEntry * nat :=
  foldl (exportFile gameProviderMap originalFilesMap) ([], 0%nat)
    (filter (fun pf => isCompleted pf = true) processedFiles).

Inductive ExportOutcome :=
  | ExportRefused
  | NothingExported
  | GenerationFailed
  | Exported (fileCalls : list ZipEntry) (filesAddedToZip : nat).

(** [handleExportZip]; [generates] tells whether [zip.generateAsync]
    resolves. *)
Definition handleExportZip (isZipping isBatchProcessing : bool)
    (processedFiles : list (ProcessedFileData (option jsstring)))
    (originalFilesMap : gmap jsstring File)
    (gameProviderMap : GameProviderMap) (generates : bool) : ExportOutcome :=
  if isZipping || isBatchProcessing
     || (length (filter (fun f => isCompleted f = true) processedFiles) =? 0)%nat
     || (size gameProviderMap =? 0)%nat
  then ExportRefused
  else
    let '(zip, filesAddedToZip) :=
      exportLoop gameProviderMap originalFilesMap processedFiles in
    if (filesAddedToZip =? 0)%nat then NothingExported
    else if generates then Exported zip filesAddedToZip
    else GenerationFailed.

(* ===================================================================== *)
(** * Specification-side notions for the name normaliser *)
(* ===================================================================== *)

(** [t] is the literal [pat] up to letter case. *)
Definition equalsIgnoreCase (pat t : jsstring) : Prop :=
  Forall2 (fun p c => eqUnitIgnoreCase p c = true) pat t.

(** [s] contains a copy token, in any letter case, at some position. *)
Definition ContainsCopy (s : jsstring) : Prop :=
  exists a t b, s = a ++ t ++ b /\ equalsIgnoreCase copyToken t.

(** [s] ends with white space followed by one of the version suffixes. *)
Definition EndsWithVersion (s : jsstring) : Prop :=
  exists a ws t,
    s = a ++ ws ++ t /\ ws <> [] /\ Forall (fun c => isWhiteSpace c = true) ws
    /\ (equalsIgnoreCase suffix94pct t \/ equalsIgnoreCase suffixV94 t).

(** White space in [s] is normalised: every white space code unit is a
    single space, and none follows another one ([prev]: the code unit
    before [s] was white space). *)
Fixpoint normalWs (prev : bool) (s : jsstring) : Prop :=
  match s with
  | [] => True
  | c :: s' =>
      if isWhiteSpace c then c = 32 /\ prev = false /\ normalWs true s'
      else normalWs false s'
  end.

(** Decision procedures for the two notions above. *)
Fixpoint containsCopy (s : jsstring) : bool :=
  match matchLiteralIgnoreCase copyToken s with
  | Some _ => true
  | None =>
      match s with
      | [] => false
      | _ :: s' => containsCopy s'
      end
  end.

Fixpoint endsWithVersion (s : jsstring) : bool :=
  matchVersionAt s ||
  match s with
  | [] => false
  | _ :: s' => endsWithVersion s'
  end.

(* ===================================================================== *)
(** * Specification-side notions for the extraction validator *)
(* ===================================================================== *)

(** The key [k] is absent from [v]: [v] is not an object with a member
    [k].  A member bound to [null] is present. *)
Definition keyAbsent (v : json) (k : jsstring) : bool :=
  match v with
  | JObject ms => negb (existsb (fun m => bool_decide (m.1 = k)) ms)
  | _ => true
  end.

(** The value of the member [k] of [v], if [v] is an object that has it. *)
Definition memberAt (v : json) (k : jsstring) : option json :=
  match v with
  | JObject ms => lookupMember k ms
  | _ => None
  end.

(** The elements of the member [k] of [v] when it is an array. *)
Definition arrayAt (v : json) (k : jsstring) : option (list json) :=
  match memberAt v k with
  | Some (JArray l) => Some l
  | _ => None
  end.

(** A file entry lacks a string [name]. *)
Definition fileViolates (f : json) : bool :=
  match memberAt f (str "name") with
  | Some (JString _) => false
  | _ => true
  end.

(** An instance lacks one of the two keys, or its [files] is not an array,
    or one of its file entries lacks a string [name]. *)
Definition instanceViolates (i : json) : bool :=
  keyAbsent i (str "gameName") || keyAbsent i (str "gameCode")
  || match arrayAt i (str "files") with
     | Some fl => existsb fileViolates fl
     | None => true
     end.

(** The conditions under which the validator is specified to fail. *)
Definition schemaViolation (v : json) : bool :=
  keyAbsent v (str "reportNumber") || keyAbsent v (str "certificationDate")
  || keyAbsent v (str "supplierRegistrationNumber")
  || match arrayAt v (str "gameInstances") with
     | Some il => existsb instanceViolates il
     | None => true
     end.

(** The value of an optional field: [null] when the member is absent or
    [null], the member's value otherwise. *)
Definition orNullValue (x : option json) : json := default JNull x.

(** What the validator is specified to return for a file entry, an
    instance, and the whole value. *)
Definition fileStructured (f : json) (o : FileDetail json) : Prop :=
  memberAt f (str "name") = Some (JString (name o))
  /\ md5 o = orNullValue (memberAt f (str "md5"))
  /\ sha1 o = orNullValue (memberAt f (str "sha1")).

Definition instanceStructured (i : json) (o : GameInstanceData json) : Prop :=
  gameName o = orNullValue (memberAt i (str "gameName"))
  /\ gameCode o = orNullValue (memberAt i (str "gameCode"))
  /\ exists fl, arrayAt i (str "files") = Some fl
               /\ Forall2 fileStructured fl (files o).

Definition dataStructured (v : json) (d : ExtractedGeminiInfo json) : Prop :=
  reportNumber d = orNullValue (memberAt v (str "reportNumber"))
  /\ certificationDate d = orNullValue (memberAt v (str "certificationDate"))
  /\ supplierRegistrationNumber d
     = orNullValue (memberAt v (str "supplierRegistrationNumber"))
  /\ exists il, arrayAt v (str "gameInstances") = Some il
               /\ Forall2 instanceStructured il (gameInstances d).

(* ===================================================================== *)
(** * Specification-side notions for the client and the batch *)
(* ===================================================================== *)

(** An error the client takes for a transient server-side failure: its
    message mentions 500 and does not say that the key is invalid. *)
Definition transient (e : JsError) : Prop :=
  includes (message e) (str "500") = true
  /\ includes (message e) (str "API key not valid") = false.

(** The error the client raises for a response that does not parse. *)
Definition parseFailure (label text : jsstring) (e : JsError) : JsError :=
  MkError (str "Failed to parse/validate JSON from AI (" ++ label
           ++ str "). Raw: " ++ substring0 1000 text
           ++ str ". Err: " ++ message e).

(** The files a log shows entering the [processing] status, in order. *)
Definition attempted (l : list Event) : list jsstring :=
  omap (fun ev => match ev with
                  | EvStatus i st_processing => Some i
                  | _ => None
                  end) l.

(** Every file of the work list attempted on its own, in order: the
    outcome of each attempt and the world after the last one. *)
Fixpoint attemptAll (ext : Externals) (apiKey : jsstring)
    (originalFilesMap : gmap jsstring File) (ids : list jsstring) (w : World)
  : list (jsstring * Result (ExtractedGeminiInfo json)) * World :=
  match ids with
  | [] => ([], w)
  | i :: rest =>
      let '(r, w1) :=
        tryProcess ext apiKey originalFilesMap i
          (emit (EvStatus i st_processing) w) in
      let w2 :=
        emit (EvStatus i (match r with
                          | Ok _ => st_completed
                          | Err _ => st_error
                          end)) w1 in
      let '(rs, w3) := attemptAll ext apiKey originalFilesMap rest w2 in
      ((i, r) :: rs, w3)
  end.

Fixpoint outcomeOf {X} (i : jsstring) (results : list (jsstring * X))
  : option X :=
  match results with
  | [] => None
  | (j, r) :: rest => if decide (j = i) then Some r else outcomeOf i rest
  end.

(** A file after the batch: a queued file ends [completed] with the data
    of its own extraction or in [error] with the message of its own error
    (a fixed text when that message is empty); every other file is as it
    was. *)
Definition settled
    (results : list (jsstring * Result (ExtractedGeminiInfo json)))
    (f : ProcessedFileData json) : ProcessedFileData json :=
  if isQueued f then
    match outcomeOf (id f) results with
    | Some (Ok d) =>
        mkProcessedFileData (id f) (pdfFileName f) st_completed (errorMessage f)
          (reportNumber d) (certificationDate d)
          (supplierRegistrationNumber d) (gameInstances d)
    | Some (Err e) =>
        mkProcessedFileData (id f) (pdfFileName f) st_error
          (Some (if truthy (message e) then message e
                 else str "Failed to process file or extract data."))
          (pfReportNumber f) (pfCertificationDate f)
          (pfSupplierRegistrationNumber f) (extractedInstances f)
    | None => f
    end
  else f.

(** What the two updates of one iteration of the batch make of the entry
    of the file processed. *)
Definition applyOutcome (r : Result (ExtractedGeminiInfo json))
    (f : ProcessedFileData json) : ProcessedFileData json :=
  match r with
  | Ok d => withExtracted d (withStatus st_processing f)
  | Err e => withError (storedMessage e) (withStatus st_processing f)
  end.

Definition applyResult (fs : list (ProcessedFileData json))
    (p : jsstring * Result (ExtractedGeminiInfo json))
  : list (ProcessedFileData json) :=
  updateById p.1 (applyOutcome p.2) fs.

(** A report that parses and validates, and three queued PDF documents. *)
Definition sampleReport : json :=
  JObject [(str "reportNumber", JString (str "R-1"));
           (str "certificationDate", JNull);
           (str "supplierRegistrationNumber", JNull);
           (str "gameInstances",
            JArray [JObject [(str "gameName", JString (str "Mega Fortune"));
                             (str "gameCode", JNull);
                             (str "files", JArray [])]])].

Definition queuedFile (i : jsstring) : ProcessedFileData json :=
  mkProcessedFileData i i st_queued None JNull JNull JNull [].

Definition pdfFile (n : jsstring) : File :=
  mkFile n (str "application/pdf") 1024 [37; 80; 68; 70].

Definition threeQueued : list (ProcessedFileData json) :=
  [queuedFile (str "a.pdf-1"); queuedFile (str "b.pdf-2");
   queuedFile (str "c.pdf-3")].

Definition threeOriginals : gmap jsstring File :=
  <[str "a.pdf-1" := pdfFile (str "a.pdf")]>
    (<[str "b.pdf-2" := pdfFile (str "b.pdf")]>
       (<[str "c.pdf-3" := pdfFile (str "c.pdf")]> ∅)).

(** Worlds for the examples: a parser that rejects its input with a fixed
    message or returns a fixed value, a model that does the same thing at
    every request or follows a list of outcomes, and one page of text for
    every document. *)
Definition rejectingParser : jsstring -> Result json :=
  fun _ => Err (MkError (str "Unexpected token o in JSON at position 1")).

Definition constantParser (v : json) : jsstring -> Result json :=
  fun _ => Ok v.

Definition serverError : JsError := MkError (str "got status: 500 UNKNOWN").

Definition scripted (outcomes : list ModelOutcome) : nat -> ModelOutcome :=
  fun n => nth n outcomes (Threw serverError).

Definition sampleExternals (parse : jsstring -> Result json)
    (model : nat -> ModelOutcome) : Externals :=
  mkExternals parse model (fun _ => Ok [[str "Certificate"; str "text"]])
    (fun _ => Ok None).

(** The model answers the first and the third request and rejects the key
    at the second one. *)
Definition secondKeyRejected : Externals :=
  sampleExternals (constantParser sampleReport)
    (scripted [Responded (str "{}");
               Threw (MkError (str "API key not valid. Please pass a valid API key."));
               Responded (str "{}")]).

(* ===================================================================== *)
(** * Specification-side notions for the loader, the report and the export *)
(* ===================================================================== *)

(** The entries of the accepted lines of a pasted table, in order. *)
Definition acceptedEntries (excelData : jsstring)
  : list (jsstring * ProviderInfo) :=
  omap parseLine (dataLinesOf excelData).

(** A table with the entries recorded in order, a later entry replacing an
    earlier one with the same key. *)
Definition insertAll (m : GameProviderMap)
    (entries : list (jsstring * ProviderInfo)) : GameProviderMap :=
  foldl (fun acc p => <[p.1 := p.2]> acc) m entries.

(** The instances of the completed files, in file-then-instance order. *)
Definition completedInstances
    (data : list (ProcessedFileData (option jsstring)))
  : list (GameInstanceData (option jsstring)) :=
  flat_map (fun f => if decide (status f = st_completed)
                     then extractedInstances f else []) data.

(** The code the provider table gives for an entry. *)
Definition tableCode (info : ProviderInfo) : option jsstring :=
  match imsGameCode info with
  | Some c => if truthy c then Some c else None
  | None => None
  end.

(** The code an instance offers for the key [k]: its own code, when its
    name normalises to [k] and the code is not empty. *)
Definition offer (k : jsstring) (i : GameInstanceData (option jsstring))
  : option jsstring :=
  if decide (normalizeGameName (gameName i) = k)
  then match gameCode i with
       | Some c => if truthy c then Some c else None
       | None => None
       end
  else None.

(** The first non-empty extracted code for the key [k]. *)
Definition firstExtractedCode (k : jsstring)
    (data : list (ProcessedFileData (option jsstring))) : option jsstring :=
  head (omap (offer k) (completedInstances data)).

(** The first non-null extracted code for the key [k]. *)
Definition firstNonNullCode (k : jsstring)
    (data : list (ProcessedFileData (option jsstring))) : option jsstring :=
  head (omap (fun i => if decide (normalizeGameName (gameName i) = k)
                       then gameCode i else None)
          (completedInstances data)).

(** The step of [placedFolders]. *)
Definition noteFolder (gameProviderMap : GameProviderMap) (acc : list jsstring)
    (i : GameInstanceData (option jsstring)) : list jsstring :=
  let f := folderNameOf gameProviderMap i in
  if bool_decide (f ∈ acc) then acc else acc ++ [f].

(** The folders one file is placed into: the folders of its instances,
    each once, in the order of their first instance; [Uncategorized] for a
    file without instances. *)
Definition placedFolders (gameProviderMap : GameProviderMap)
    (instances : list (GameInstanceData (option jsstring))) : list jsstring :=
  match foldl (noteFolder gameProviderMap) [] instances with
  | [] => [uncategorized]
  | f :: fs => f :: fs
  end.

(** The calls on the archive that come from one completed file. *)
Definition placements (gameProviderMap : GameProviderMap)
    (originalFilesMap : gmap jsstring File)
    (pf : ProcessedFileData (option jsstring)) : list ZipEntry :=
  match originalFilesMap !! id pf with
  | None => []
  | Some o =>
      map (fun f => mkZipEntry f (fileName o) o)
        (placedFolders gameProviderMap (extractedInstances pf))
  end.

(** A completed file whose bytes are in the file store. *)
Definition exportable (originalFilesMap : gmap jsstring File)
    (pf : ProcessedFileData (option jsstring)) : bool :=
  isCompleted pf && bool_decide (is_Some (originalFilesMap !! id pf)).

(** Data for the examples: a pasted table with a header row, two lines
    with the same key and a line that is too short; a completed file with
    given instances; a table with two providers. *)
Definition samplePaste : jsstring :=
  str "Name" ++ [9] ++ str "Game Provider" ++ [9; 9; 9; 9] ++ [10]
  ++ str "Foo" ++ [9] ++ str "Acme" ++ [9; 9] ++ str "2020" ++ [9; 9]
  ++ str "foo_ims" ++ [10]
  ++ str "foo (copy)" ++ [9] ++ str "Beta" ++ [9; 9; 9; 9] ++ [10]
  ++ str "too" ++ [9] ++ str "short".

Definition completedFile (i : jsstring)
    (instances : list (GameInstanceData (option jsstring)))
  : ProcessedFileData (option jsstring) :=
  mkProcessedFileData i i st_completed None None None None instances.

Definition instanceOf (n c : option jsstring)
  : GameInstanceData (option jsstring) :=
  mkGameInstanceData n c [].

Definition twoProviders : GameProviderMap :=
  <[str "alpha" := mkProviderInfo (str "Acme") None (Some (str "A"))]>
    (<[str "beta" := mkProviderInfo (str "Beta Corp") None None]> ∅).

Definition certificate : File := pdfFile (str "cert.pdf").

(* ===================================================================== *)
(** * Upload and clearing (App.tsx) *)
(* ===================================================================== *)

Definition MAX_FILE_SIZE_MB : Z := 10.
Definition MAX_FILE_SIZE_BYTES : Z := MAX_FILE_SIZE_MB * 1024 * 1024.

(** The message of an oversized file, with [MAX_FILE_SIZE_MB] printed. *)
Definition sizeLimitMessage : jsstring := str "File exceeds 10MB limit.".

Definition invalidTypeMessage (t : jsstring) : jsstring :=
  str "Invalid file type: " ++ t
  ++ str ". Please upload PDF (.pdf), PNG (.png), or JPEG (.jpg) files.".

(** The entry pushed for an uploaded file. *)
Definition initialEntry (fileId pdfName : jsstring) (s : Status)
    (msg : option jsstring) : ProcessedFileData json :=
  mkProcessedFileData fileId pdfName s msg JNull JNull JNull [].

(** The body of the loop of [handleFilesSelected]; the state is the loop
    index, [newInitialFilesData] and [newOriginalFilesMap].  [now i] is
    the text of [Date.now()] at the [i]-th iteration. *)
Definition uploadStep (now : nat -> jsstring)
    (st : nat * list (ProcessedFileData json) * gmap jsstring File)
    (file : File)
  : nat * list (ProcessedFileData json) * gmap jsstring File :=
  let '(i, newInitialFilesData, newOriginalFilesMap) := st in
  let fileId := fileName file ++ str "-" ++ now i in
  let newOriginalFilesMap := <[fileId := file]> newOriginalFilesMap in
  if MAX_FILE_SIZE_BYTES <? fileSize file then
    (S i,
     newInitialFilesData
     ++ [initialEntry fileId (fileName file) st_error (Some sizeLimitMessage)],
     newOriginalFilesMap)
  else if negb (isPdfType (fileType file)) && negb (isImageType (fileType file))
  then
    (S i,
     newInitialFilesData
     ++ [initialEntry fileId (fileName file) st_error
           (Some (invalidTypeMessage (fileType file)))],
     newOriginalFilesMap)
  else
    (S i,
     newInitialFilesData ++ [initialEntry fileId (fileName file) st_queued None],
     newOriginalFilesMap).

(** [handleFilesSelected]: the processed files and the file store it
    leaves. *)
Definition handleFilesSelected (now : nat -> jsstring)
    (processedFiles : list (ProcessedFileData json))
    (originalFilesMap : gmap jsstring File) (files : list File)
  : list (ProcessedFileData json) * gmap jsstring File :=
  let '(_, newInitialFilesData, newOriginalFilesMap) :=
    foldl (uploadStep now) (0%nat, [], originalFilesMap) files in
  (processedFiles ++ newInitialFilesData, newOriginalFilesMap).

(** [handleClearAllData] *)
Definition handleClearAllData {V} (isBatchProcessing isZipping : bool)
    (processedFiles : list (ProcessedFileData V))
    (originalFilesMap : gmap jsstring File)
  : list (ProcessedFileData V) * gmap jsstring File :=
  if isBatchProcessing || isZipping then (processedFiles, originalFilesMap)
  else ([], ∅).

(* ===================================================================== *)
(** * Further specification-side notions *)
(* ===================================================================== *)

(** An upload that is queued: not larger than the limit, and a PDF, PNG or
    JPEG by its type. *)
Definition acceptedUpload (file : File) : bool :=
  (fileSize file <=? MAX_FILE_SIZE_BYTES)
  && (isPdfType (fileType file) || isImageType (fileType file)).

(** The id given to the [i]-th file of an upload. *)
Definition uploadId (now : nat -> jsstring) (i : nat) (file : File)
  : jsstring :=
  fileName file ++ str "-" ++ now i.

(** The delays the retry loop can make with [remaining] iterations to go. *)
Fixpoint delaySchedule (remaining : nat) : list Z :=
  match remaining with
  | O => []
  | S r =>
      (if (MAX_RETRIES - r <? MAX_RETRIES)%nat
       then [RETRY_DELAY_MS * Z.of_nat (MAX_RETRIES - r)] else [])
      ++ delaySchedule r
  end.

(** A world-independent reading of one client call: the events it added. *)
Definition eventsSince (w w' : World) : list Event :=
  drop (length (log w)) (log w').

(** The entry of the [i]-th file of an upload: queued when the upload is
    accepted, in error with the reason otherwise. *)
Definition uploadedEntry (now : nat -> jsstring) (i : nat) (file : File)
  : ProcessedFileData json :=
  initialEntry (uploadId now i file) (fileName file)
    (if acceptedUpload file then st_queued else st_error)
    (if acceptedUpload file then None
     else Some (if MAX_FILE_SIZE_BYTES <? fileSize file then sizeLimitMessage
                else invalidTypeMessage (fileType file))).

Fixpoint uploadedEntries (now : nat -> jsstring) (i : nat) (files : list File)
  : list (ProcessedFileData json) :=
  match files with
  | [] => []
  | f :: fs => uploadedEntry now i f :: uploadedEntries now (S i) fs
  end.

(** The ids of the accepted files of an upload, in order. *)
Fixpoint acceptedIds (now : nat -> jsstring) (i : nat) (files : list File)
  : list jsstring :=
  match files with
  | [] => []
  | f :: fs =>
      (if acceptedUpload f then [uploadId now i f] else [])
      ++ acceptedIds now (S i) fs
  end.

(* ===================================================================== *)
(** * Report copies (components/ReportTable.tsx) *)
(* ===================================================================== *)

Definition notAvailable : jsstring := str "N/A".

(** [x || d] for a text [x] that may be null or undefined. *)
Definition orDefault (x : option jsstring) (d : jsstring) : jsstring :=
  match x with Some s => orElse s d | None => d end.

(** [a || b] for two texts that may be null or undefined. *)
Definition orOpt (a b : option jsstring) : option jsstring :=
  if truthyOpt a then a else b.

(** [items.join(sep)] on an array of strings. *)
Fixpoint joinWith (sep : jsstring) (items : list jsstring) : jsstring :=
  match items with
  | [] => []
  | x :: rest =>
      match rest with
      | [] => x
      | _ :: _ => x ++ sep ++ joinWith sep rest
      end
  end.

Definition getDisplayHash (file : FileDetail (option jsstring)) : jsstring :=
  if truthyOpt (md5 file) then default [] (md5 file)
  else if truthyOpt (sha1 file) then default [] (sha1 file)
  else notAvailable.

Definition getGameProvider (gameProviderMap : GameProviderMap)
    (gameName : option jsstring) : jsstring :=
  match gameName with
  | None => notAvailable
  | Some g =>
      if negb (truthy g) || negb (truthy (trim g))
         || (size gameProviderMap =? 0)%nat
      then notAvailable
      else
        let providerInfo := gameProviderMap !! normalizeGameName gameName in
        orDefault (provider <$> providerInfo) notAvailable
  end.

(** The global replacement applied to [content]: every quotation mark
    (code unit 34) is doubled. *)
Definition escapeQuotes (content : jsstring) : jsstring :=
  flat_map (fun c => if c =? 34 then [34; 34] else [c]) content.

(** [formatListForClipboard]; [items] is the array the two call sites
    build with [instance.files.map]. *)
Definition formatListForClipboard (items : list jsstring) : jsstring :=
  if (length items =? 0)%nat then notAvailable
  else
    let content :=
      joinWith (str ", ") (filter (fun s => truthy s = true) items) in
    if negb (truthy content) then notAvailable
    else [34] ++ escapeQuotes content ++ [34].

(** [providerInfo?.portalLiveDate || fileEntry.certificationDate || 'N/A'] *)
Definition portalDateOf (gameProviderMap : GameProviderMap)
    (fileEntry : ProcessedFileData (option jsstring)) (gameNameKey : jsstring)
  : jsstring :=
  let providerInfo := gameProviderMap !! gameNameKey in
  orDefault (orOpt (providerInfo ≫= portalLiveDate)
               (pfCertificationDate fileEntry))
    notAvailable.

Definition clipboardHeaders : jsstring :=
  str "GameName" ++ [9] ++ str "GameCodes" ++ [9] ++ str "Progressive" ++ [9]
  ++ str "CertificateRef" ++ [9] ++ str "Date" ++ [9]
  ++ str "SupplierRegistrationnumber" ++ [9] ++ str "Deactivated" ++ [9]
  ++ str "FileList" ++ [9] ++ str "HashList".

(** The row of one instance of a completed file. *)
Definition clipboardRow (gameProviderMap : GameProviderMap)
    (authoritativeImsCodeMap : gmap jsstring jsstring)
    (fileEntry : ProcessedFileData (option jsstring))
    (instance : GameInstanceData (option jsstring)) : jsstring :=
  let cleanedGameName := cleanGameNameForDisplay (gameName instance) in
  let gameNameKey := normalizeGameName (gameName instance) in
  let gameCodes :=
    orDefault (authoritativeImsCodeMap !! gameNameKey) notAvailable in
  let portalDate := portalDateOf gameProviderMap fileEntry gameNameKey in
  joinWith [9]
    [cleanedGameName; gameCodes; [];
     orDefault (pfReportNumber fileEntry) notAvailable;
     portalDate; []; [];
     formatListForClipboard (map name (files instance));
     formatListForClipboard (map getDisplayHash (files instance))].

(** The row of a completed file without instances. *)
Definition emptyClipboardRow
    (fileEntry : ProcessedFileData (option jsstring)) : jsstring :=
  joinWith [9]
    [notAvailable; notAvailable; [];
     orDefault (pfReportNumber fileEntry) notAvailable;
     orDefault (pfCertificationDate fileEntry) notAvailable;
     []; []; notAvailable; notAvailable].

(** [tableRows] of [copyToClipboard]. *)
Definition tableRows (gameProviderMap : GameProviderMap)
    (data : list (ProcessedFileData (option jsstring))) : list jsstring :=
  let codes := authoritativeImsCodeMap gameProviderMap data in
  flat_map
    (fun fileEntry =>
       if decide (status fileEntry = st_completed) then
         if (0 <? length (extractedInstances fileEntry))%nat
         then map (clipboardRow gameProviderMap codes fileEntry)
                (extractedInstances fileEntry)
         else [emptyClipboardRow fileEntry]
       else [])
    data.

(** [copyToClipboard]: the text handed to [navigator.clipboard.writeText],
    or nothing when the function alerts and returns. *)
Definition copyToClipboard (gameProviderMap : GameProviderMap)
    (data : list (ProcessedFileData (option jsstring))) : option jsstring :=
  let rows := joinWith [10] (tableRows gameProviderMap data) in
  if negb (truthy (trim rows)) then None
  else Some (clipboardHeaders ++ [10] ++ rows).

Record ComRow := mkComRow {
  comGameName : jsstring;
  comGameCode : jsstring;
  certificateNumber : jsstring;
  comPortalLiveDate : jsstring
}.

#[global] Instance ComRow_eq_dec : EqDecision ComRow.
Proof. solve_decision. Defined.

(** [{ gameName: null, gameCode: null, files: [] }] *)
Definition placeholderInstance : GameInstanceData (option jsstring) :=
  mkGameInstanceData None None [].

Definition comRow (gameProviderMap : GameProviderMap)
    (authoritativeImsCodeMap : gmap jsstring jsstring)
    (fileEntry : ProcessedFileData (option jsstring))
    (instance : GameInstanceData (option jsstring)) : ComRow :=
  let gameNameKey := normalizeGameName (gameName instance) in
  mkComRow (cleanGameNameForDisplay (gameName instance))
    (orDefault (authoritativeImsCodeMap !! gameNameKey) notAvailable)
    (orDefault (pfReportNumber fileEntry) notAvailable)
    (portalDateOf gameProviderMap fileEntry gameNameKey).

(** [comDataRows] of [copyForComProcess]. *)
Definition comDataRows (gameProviderMap : GameProviderMap)
    (data : list (ProcessedFileData (option jsstring))) : list ComRow :=
  let codes := authoritativeImsCodeMap gameProviderMap data in
  flat_map
    (fun fileEntry =>
       if decide (status fileEntry = st_completed) then
         let instances :=
           if (0 <? length (extractedInstances fileEntry))%nat
           then extractedInstances fileEntry else [placeholderInstance] in
         map (comRow gameProviderMap codes fileEntry) instances
       else [])
    data.

(** [Map.prototype.set] on a [Map] kept as the list of its entries in
    insertion order: the value of a key that is present is replaced where
    it stands, a new key is added at the end. *)
Fixpoint mapSet {V} (k : jsstring) (v : V) (m : list (jsstring * V))
  : list (jsstring * V) :=
  match m with
  | [] => [(k, v)]
  | (k', v') :: m' =>
      if decide (k' = k) then (k, v) :: m' else (k', v') :: mapSet k v m'
  end.

Definition uniqueComDataMap (rows : list ComRow) : list (jsstring * ComRow) :=
  foldl (fun m row => mapSet (comGameName row) row m) [] rows.

(** [Array.from(uniqueComDataMap.values())] *)
Definition uniqueRows (rows : list ComRow) : list ComRow :=
  map snd (uniqueComDataMap rows).

Definition comLine (row : ComRow) : jsstring :=
  joinWith [9]
    [comGameName row; comGameCode row; certificateNumber row;
     comPortalLiveDate row].

Definition comHeaders : jsstring :=
  str "Game Name" ++ [9] ++ str "IMS Game Code" ++ [9]
  ++ str "Certificate Number" ++ [9] ++ str "Portal Live Date".

(** [copyForComProcess]: the text handed to
    [navigator.clipboard.writeText], or nothing when the function alerts
    and returns. *)
Definition copyForComProcess (gameProviderMap : GameProviderMap)
    (data : list (ProcessedFileData (option jsstring))) : option jsstring :=
  let rows :=
    joinWith [10]
      (map comLine (uniqueRows (comDataRows gameProviderMap data))) in
  if negb (truthy (trim rows)) then None
  else Some (comHeaders ++ [10] ++ rows).

(** The text between the quotation marks of a formatted list read back:
    every doubled quotation mark stands for one. *)
Fixpoint unescapeQuotes (s : jsstring) : jsstring :=
  match s with
  | [] => []
  | c :: s' =>
      if c =? 34
      then match s' with
           | d :: s'' => if d =? 34 then 34 :: unescapeQuotes s''
                         else c :: unescapeQuotes s'
           | [] => [c]
           end
      else c :: unescapeQuotes s'
  end.

(** The entries of the [Map] built by setting each value under its key,
    in order. *)
Definition keyed {V} (key : V -> jsstring) (vs : list V)
  : list (jsstring * V) :=
  foldl (fun m v => mapSet (key v) v m) [] vs.

(** Every completed entry has its uploaded file in the file store. *)
Definition bytesKept {V : Type} (originalFilesMap : gmap jsstring File)
    (processedFiles : list (ProcessedFileData V)) : Prop :=
  forall f, f ∈ processedFiles -> status f = st_completed ->
            is_Some (originalFilesMap !! id f).

(* ===================================================================== *)
(** * Further notions for the normaliser and the batch *)
(* ===================================================================== *)

(** A string of the Basic Latin and Latin-1 Supplement blocks. *)
Definition latin1 (s : jsstring) : Prop := Forall (fun c => 0 <= c < 256) s.

Definition latin1Name (name : option jsstring) : Prop :=
  match name with Some s => latin1 s | None => True end.

(** What is known of the engine's lower-casing: on Latin-1 strings it is
    the table above. *)
Definition agreesOnLatin1 (lower : jsstring -> jsstring) : Prop :=
  forall s, latin1 s -> lower s = toLowerCase s.







(* ===================================================================== *)
(** * Facts about JavaScript strings *)
(* ===================================================================== *)

Section StringFacts.

Implicit Types (s t : jsstring) (p : Z -> bool).

Lemma dropWhile_split p s :
  exists a, s = a ++ dropWhile p s /\ Forall (fun c => p c = true) a.
Proof.
  induction s as [|c s IH]; simpl.
  - exists []. split; [reflexivity | constructor].
  - destruct (p c) eqn:Hc.
    + destruct IH as (a & Ha & Hall). exists (c :: a). split.
      * simpl. congruence.
      * constructor; assumption.
    + exists []. split; [reflexivity | constructor].
Qed.

Lemma dropWhile_head p s c s' :
  dropWhile p s = c :: s' -> p c = false.
Proof.
  induction s as [|d s IH]; simpl; [discriminate|].
  destruct (p d) eqn:Hd; [assumption|].
  intros [= -> _]. assumption.
Qed.

Lemma dropWhile_fixed p s :
  match s with [] => True | c :: _ => p c = false end -> dropWhile p s = s.
Proof. destruct s as [|c s]; simpl; [reflexivity|]. intros ->. reflexivity. Qed.

Lemma dropWhile_idem p s : dropWhile p (dropWhile p s) = dropWhile p s.
Proof.
  apply dropWhile_fixed. destruct (dropWhile p s) eqn:E; [exact I|].
  eapply dropWhile_head; eassumption.
Qed.

Lemma dropWhile_all p a s :
  Forall (fun c => p c = true) a -> dropWhile p (a ++ s) = dropWhile p s.
Proof. induction 1 as [|c a Hc _ IH]; simpl; [reflexivity|]. rewrite Hc. exact IH. Qed.

Lemma trimEnd_snoc s c :
  trimEnd (s ++ [c]) = if isWhiteSpace c then trimEnd s else s ++ [c].
Proof.
  unfold trimEnd. rewrite rev_app_distr. simpl.
  destruct (isWhiteSpace c); [reflexivity|].
  simpl. rewrite rev_involutive. reflexivity.
Qed.

Lemma trimEnd_split s :
  exists b, s = trimEnd s ++ b /\ Forall (fun c => isWhiteSpace c = true) b.
Proof.
  unfold trimEnd.
  destruct (dropWhile_split isWhiteSpace (rev s)) as (a & Ha & Hall).
  exists (rev a). split.
  - rewrite <- rev_app_distr, <- Ha, rev_involutive. reflexivity.
  - apply Forall_rev. assumption.
Qed.

Lemma trimEnd_idem s : trimEnd (trimEnd s) = trimEnd s.
Proof. unfold trimEnd. rewrite rev_involutive, dropWhile_idem. reflexivity. Qed.

Lemma trimEnd_cons_keep c s :
  isWhiteSpace c = false -> exists s', trimEnd (c :: s) = c :: s'.
Proof.
  intros Hc. induction s as [|d s IH] using rev_ind.
  - exists []. unfold trimEnd. simpl. rewrite Hc. reflexivity.
  - change (c :: s ++ [d]) with ((c :: s) ++ [d]). rewrite trimEnd_snoc.
    destruct (isWhiteSpace d); [exact IH|]. eexists. reflexivity.
Qed.

Lemma trim_split s :
  exists a b, s = a ++ trim s ++ b
    /\ Forall (fun c => isWhiteSpace c = true) a
    /\ Forall (fun c => isWhiteSpace c = true) b.
Proof.
  unfold trim, trimStart.
  destruct (dropWhile_split isWhiteSpace s) as (a & Ha & Hall).
  destruct (trimEnd_split (dropWhile isWhiteSpace s)) as (b & Hb & Hbll).
  exists a, b. split; [|split; assumption].
  rewrite <- Hb. exact Ha.
Qed.

Lemma trim_idem s : trim (trim s) = trim s.
Proof.
  unfold trim at 1. unfold trimStart.
  assert (H : dropWhile isWhiteSpace (trim s) = trim s).
  { apply dropWhile_fixed. unfold trim, trimStart.
    destruct (dropWhile isWhiteSpace s) as [|c r] eqn:E.
    - unfold trimEnd. simpl. exact I.
    - pose proof (dropWhile_head _ _ _ _ E) as Hc.
      destruct (trimEnd_cons_keep c r Hc) as (r' & ->). exact Hc. }
  rewrite H. unfold trim. apply trimEnd_idem.
Qed.

Lemma Forall_trim (P : Z -> Prop) s : Forall P s -> Forall P (trim s).
Proof.
  intros H. destruct (trim_split s) as (a & b & Hs & _).
  rewrite Hs in H. apply Forall_app in H as [_ H].
  apply Forall_app in H as [H _]. exact H.
Qed.

Lemma length_dropWhile p s : (length (dropWhile p s) <= length s)%nat.
Proof.
  destruct (dropWhile_split p s) as (a & Ha & _).
  rewrite Ha at 2. rewrite length_app. lia.
Qed.

Lemma length_trim s : (length (trim s) <= length s)%nat.
Proof.
  destruct (trim_split s) as (a & b & Hs & _).
  rewrite Hs at 2. rewrite !length_app. lia.
Qed.

Lemma matchLiteral_spec pat s rest :
  matchLiteralIgnoreCase pat s = Some rest <->
  exists t, s = t ++ rest /\ equalsIgnoreCase pat t.
Proof.
  revert s. induction pat as [|q pat IH]; intros s; simpl.
  - split.
    + intros [= ->]. exists []. split; [reflexivity | constructor].
    + intros (t & -> & Ht). inversion Ht. reflexivity.
  - destruct s as [|c s].
    + split; [discriminate|]. intros (t & Hs & Ht).
      inversion Ht; subst. discriminate.
    + destruct (eqUnitIgnoreCase q c) eqn:Hc.
      * rewrite IH. split.
        -- intros (t & -> & Ht). exists (c :: t). split; [reflexivity|].
           constructor; assumption.
        -- intros (t & Hs & Ht). inversion Ht as [|? c' ? t' Hc' Ht']; subst.
           injection Hs as -> ->. exists t'. split; [reflexivity | assumption].
      * split; [discriminate|]. intros (t & Hs & Ht).
        inversion Ht as [|? c' ? t' Hc' Ht']; subst.
        injection Hs as -> ->. congruence.
Qed.

End StringFacts.

(* ===================================================================== *)
(** * The name normaliser *)
(* ===================================================================== *)

Section NormalizerFacts.

Implicit Types (s t : jsstring).

Lemma ContainsCopy_cons c s : ContainsCopy s -> ContainsCopy (c :: s).
Proof.
  intros (a & t & b & -> & Ht). exists (c :: a), t, b. split; [reflexivity | exact Ht].
Qed.

Lemma matchCopyAt_contains s rest :
  matchCopyAt s = Some rest -> ContainsCopy s.
Proof.
  unfold matchCopyAt. intros H.
  apply matchLiteral_spec in H as (t & Hd & Ht).
  destruct (dropWhile_split isWhiteSpace s) as (a & Ha & _).
  exists a, t, rest. split; [congruence | exact Ht].
Qed.

(** Without a token there is nothing to replace. *)
Lemma replaceCopy_clean s : ~ ContainsCopy s -> replaceCopy s = s.
Proof.
  induction s as [|c s IH]; intros Hn.
  - reflexivity.
  - simpl. destruct (matchCopyAt (c :: s)) eqn:E.
    + exfalso. apply Hn. eapply matchCopyAt_contains; eassumption.
    + f_equal. apply IH. intros H. apply Hn. apply ContainsCopy_cons. exact H.
Qed.

Lemma matchVersionAt_ends s : matchVersionAt s = true -> EndsWithVersion s.
Proof.
  destruct s as [|c s]; [discriminate|].
  unfold matchVersionAt. cbn [dropWhile].
  destruct (isWhiteSpace c) eqn:Hc; [|discriminate].
  rewrite andb_true_l. intros H.
  destruct (dropWhile_split isWhiteSpace s) as (a & Ha & Hall).
  exists [], (c :: a), (dropWhile isWhiteSpace s). split; [|split; [|split]].
  - simpl. congruence.
  - discriminate.
  - constructor; assumption.
  - apply orb_true_iff in H as [H|H]; apply bool_decide_eq_true in H;
      apply matchLiteral_spec in H as (t & Ht & Heq);
      rewrite app_nil_r in Ht; subst t; [left | right]; exact Heq.
Qed.

Lemma EndsWithVersion_cons c s : EndsWithVersion s -> EndsWithVersion (c :: s).
Proof.
  intros (a & ws & t & -> & H). exists (c :: a), ws, t.
  split; [reflexivity | exact H].
Qed.

Lemma replaceVersion_clean s : ~ EndsWithVersion s -> replaceVersion s = s.
Proof.
  induction s as [|c s IH]; intros Hn.
  - reflexivity.
  - cbn [replaceVersion]. destruct (matchVersionAt (c :: s)) eqn:E.
    + exfalso. apply Hn. apply matchVersionAt_ends. exact E.
    + f_equal. apply IH. intros H. apply Hn. apply EndsWithVersion_cons. exact H.
Qed.

Lemma toLowerCaseUnit_idem c : toLowerCaseUnit (toLowerCaseUnit c) = toLowerCaseUnit c.
Proof.
  unfold toLowerCaseUnit.
  destruct (Z.leb_spec 65 c), (Z.leb_spec c 90), (Z.leb_spec 192 c),
    (Z.leb_spec c 222), (Z.eqb_spec c 215); cbn [andb negb];
  repeat match goal with
         | |- context [Z.leb ?a ?b] => destruct (Z.leb_spec a b)
         | |- context [Z.eqb ?a ?b] => destruct (Z.eqb_spec a b)
         end; cbn [andb negb]; lia.
Qed.

Lemma toLowerCase_fixed s :
  Forall (fun c => toLowerCaseUnit c = c) s -> toLowerCase s = s.
Proof.
  unfold toLowerCase. induction 1 as [|c s Hc _ IH]; simpl; [reflexivity|].
  rewrite Hc, IH. reflexivity.
Qed.

Lemma toLowerCase_lower s :
  Forall (fun c => toLowerCaseUnit c = c) (toLowerCase s).
Proof.
  unfold toLowerCase. induction s as [|c s IH]; simpl; constructor.
  - apply toLowerCaseUnit_idem.
  - exact IH.
Qed.

Lemma stripSymbols_fixed s :
  Forall (fun c => isSymbol c = false) s -> stripSymbols s = s.
Proof.
  unfold stripSymbols. induction 1 as [|c s Hc _ IH]; [reflexivity|].
  rewrite filter_cons. destruct (decide (isSymbol c = false)); [|contradiction].
  rewrite IH. reflexivity.
Qed.

Lemma stripSymbols_clean s : Forall (fun c => isSymbol c = false) (stripSymbols s).
Proof.
  unfold stripSymbols. induction s as [|c s IH]; [constructor|].
  rewrite filter_cons. destruct (decide (isSymbol c = false)); [|exact IH].
  constructor; assumption.
Qed.

Lemma Forall_stripSymbols (P : Z -> Prop) s : Forall P s -> Forall P (stripSymbols s).
Proof.
  unfold stripSymbols. induction 1 as [|c s Hc _ IH]; [constructor|].
  rewrite filter_cons. destruct (decide (isSymbol c = false)); [|exact IH].
  constructor; assumption.
Qed.

Lemma Forall_collapseFrom (P : Z -> Prop) b s :
  P 32 -> Forall P s -> Forall P (collapseFrom b s).
Proof.
  intros H32 H. revert b. induction H as [|c s Hc _ IH]; intros b; simpl.
  - constructor.
  - destruct (isWhiteSpace c); [destruct b|]; try constructor; auto.
Qed.

Lemma collapseFrom_normal b s : normalWs b (collapseFrom b s).
Proof.
  revert b. induction s as [|c s IH]; intros b; simpl; [exact I|].
  destruct (isWhiteSpace c) eqn:Hc.
  - destruct b; [apply IH|]. change (normalWs false (32 :: collapseFrom true s)).
    cbn. repeat split. apply IH.
  - simpl. rewrite Hc. apply IH.
Qed.

Lemma normalWs_fixed b s : normalWs b s -> collapseFrom b s = s.
Proof.
  revert b. induction s as [|c s IH]; intros b; simpl; [reflexivity|].
  destruct (isWhiteSpace c).
  - intros (-> & -> & H). f_equal. apply IH. exact H.
  - intros H. f_equal. apply IH. exact H.
Qed.

Lemma normalWs_weaken b s : normalWs b s -> normalWs false s.
Proof.
  destruct s as [|c s]; simpl; [trivial|].
  destruct (isWhiteSpace c); [|trivial]. intros (? & ? & ?). auto.
Qed.

Lemma normalWs_suffix b a s : normalWs b (a ++ s) -> normalWs false s.
Proof.
  revert b. induction a as [|c a IH]; intros b; simpl.
  - apply normalWs_weaken.
  - destruct (isWhiteSpace c).
    + intros (_ & _ & H). eapply IH. exact H.
    + apply IH.
Qed.

Lemma normalWs_prefix b s t : normalWs b (s ++ t) -> normalWs b s.
Proof.
  revert b. induction s as [|c s IH]; intros b; simpl; [trivial|].
  destruct (isWhiteSpace c).
  - intros (? & ? & H). repeat split; eauto.
  - apply IH.
Qed.

Lemma normalWs_trim s : normalWs false s -> normalWs false (trim s).
Proof.
  intros H. destruct (trim_split s) as (a & b & Hs & _).
  rewrite Hs in H. apply normalWs_suffix in H. eapply normalWs_prefix. exact H.
Qed.

(** The shape of every normalised key. *)
Lemma normalizeAfterCopy_shape s :
  let n := normalizeAfterCopy s in
  trim n = n
  /\ Forall (fun c => toLowerCaseUnit c = c) n
  /\ Forall (fun c => isSymbol c = false) n
  /\ normalWs false n.
Proof.
  unfold normalizeAfterCopy. cbv zeta. split; [|split; [|split]].
  - apply trim_idem.
  - apply Forall_trim, Forall_collapseFrom; [reflexivity|].
    apply Forall_stripSymbols, toLowerCase_lower.
  - apply Forall_trim, Forall_collapseFrom; [reflexivity|].
    apply stripSymbols_clean.
  - apply normalWs_trim, collapseFrom_normal.
Qed.

Lemma normalizeGameName_shape name :
  let n := normalizeGameName name in
  trim n = n
  /\ Forall (fun c => toLowerCaseUnit c = c) n
  /\ Forall (fun c => isSymbol c = false) n
  /\ normalWs false n.
Proof.
  destruct name as [s|]; simpl.
  - destruct (truthy s).
    + apply normalizeAfterCopy_shape.
    + repeat split; constructor.
  - repeat split; constructor.
Qed.

(** A string of the shape of a key, without token and version suffix, is a
    fixed point of the normaliser. *)
Lemma normalize_fixed n :
  trim n = n ->
  Forall (fun c => toLowerCaseUnit c = c) n ->
  Forall (fun c => isSymbol c = false) n ->
  normalWs false n ->
  ~ ContainsCopy n -> ~ EndsWithVersion n ->
  normalizeGameName (Some n) = n.
Proof.
  intros Ht Hl Hs Hw Hc Hv. simpl. destruct n as [|c n']; [reflexivity|].
  cbn [truthy]. rewrite Ht. rewrite (replaceCopy_clean _ Hc).
  unfold normalizeAfterCopy. rewrite (replaceVersion_clean _ Hv).
  rewrite (toLowerCase_fixed _ Hl), (stripSymbols_fixed _ Hs).
  unfold collapseWhiteSpace. rewrite (normalWs_fixed _ _ Hw). exact Ht.
Qed.

End NormalizerFacts.

Section CopyToken.

Implicit Types (s t : jsstring).

Lemma eqUnitIgnoreCase_inv p h :
  eqUnitIgnoreCase p h = true ->
  h = canonicalize p \/ (h = canonicalize p + 32 /\ 97 <= h <= 122).
Proof.
  unfold eqUnitIgnoreCase. intros H. apply Z.eqb_eq in H. revert H.
  unfold canonicalize at 2. generalize (canonicalize p). intros q.
  destruct (Z.leb_spec 97 h), (Z.leb_spec h 122); cbn [andb]; intros; lia.
Qed.

(** A code unit that continues the token is neither white space nor an
    opening parenthesis. *)
Lemma token_tail_unit p h :
  p = 99 \/ p = 111 \/ p = 112 \/ p = 121 \/ p = 41 ->
  eqUnitIgnoreCase p h = true ->
  isWhiteSpace h = false /\ eqUnitIgnoreCase 40 h = false.
Proof.
  intros Hp H. apply eqUnitIgnoreCase_inv in H.
  destruct Hp as [->|[->|[->|[->| ->]]]];
    destruct H as [->|[-> _]]; vm_compute; split; reflexivity.
Qed.

Lemma token_head_unit h :
  eqUnitIgnoreCase 40 h = true -> isWhiteSpace h = false.
Proof.
  intros H. apply eqUnitIgnoreCase_inv in H.
  destruct H as [->|[-> H]]; [reflexivity|].
  change (canonicalize 40) with 40 in H. lia.
Qed.

Lemma version_head_unit p h :
  p = 57 \/ p = 118 -> eqUnitIgnoreCase p h = true -> isWhiteSpace h = false.
Proof.
  intros Hp H. apply eqUnitIgnoreCase_inv in H.
  destruct Hp as [->| ->]; destruct H as [->|[-> _]]; reflexivity.
Qed.

Lemma equalsIgnoreCase_copy_inv t :
  equalsIgnoreCase copyToken t ->
  exists t1 t2 t3 t4 t5 t6 : Z,
    t = [t1; t2; t3; t4; t5; t6]
    /\ eqUnitIgnoreCase 40 t1 = true /\ eqUnitIgnoreCase 99 t2 = true
    /\ eqUnitIgnoreCase 111 t3 = true /\ eqUnitIgnoreCase 112 t4 = true
    /\ eqUnitIgnoreCase 121 t5 = true /\ eqUnitIgnoreCase 41 t6 = true.
Proof.
  unfold equalsIgnoreCase, copyToken. cbn [str]. intros H.
  repeat match goal with
         | H : Forall2 _ (_ :: _) _ |- _ => inversion H; clear H; subst
         | H : Forall2 _ [] _ |- _ => inversion H; clear H; subst
         end.
  repeat eexists; eassumption.
Qed.

(** A match of the token that starts inside [x] and is followed by white
    space or by an opening parenthesis lies inside [x]. *)
Lemma no_straddle x y rest :
  x <> [] ->
  matchLiteralIgnoreCase copyToken (x ++ y) = Some rest ->
  match y with
  | [] => True
  | h :: _ => isWhiteSpace h = true \/ eqUnitIgnoreCase 40 h = true
  end ->
  exists t x', x = t ++ x' /\ equalsIgnoreCase copyToken t.
Proof.
  intros Hx H Hy. apply matchLiteral_spec in H as (t & Heq & Ht).
  pose proof Ht as Ht'.
  apply equalsIgnoreCase_copy_inv in Ht'
    as (t1 & t2 & t3 & t4 & t5 & t6 & -> & H1 & H2 & H3 & H4 & H5 & H6).
  destruct x as [|x1 [|x2 [|x3 [|x4 [|x5 [|x6 x']]]]]]; [congruence| | | | | |].
  6: { exists [t1; t2; t3; t4; t5; t6], x'. simpl in Heq.
       injection Heq as -> -> -> -> -> -> _. split; [reflexivity | exact Ht]. }
  all: exfalso; destruct y as [|h y']; simpl in Heq; [discriminate|];
    injection Heq; intros; subst;
    match goal with
    | Hy' : isWhiteSpace ?u = true \/ _, Hu : eqUnitIgnoreCase ?p ?u = true |- _ =>
        let K := fresh in
        assert (K : isWhiteSpace u = false /\ eqUnitIgnoreCase 40 u = false)
          by (apply (token_tail_unit p); [lia | exact Hu]);
        destruct K; destruct Hy'; congruence
    end.
Qed.

Lemma replaceCopy_eq s :
  replaceCopy s =
  match matchCopyAt s with
  | Some rest => rest
  | None => match s with [] => [] | c :: s' => c :: replaceCopy s' end
  end.
Proof. destruct s; reflexivity. Qed.

Lemma dropWhile_keeps_last x y :
  (forall x0 c, x = x0 ++ [c] -> isWhiteSpace c = false) -> x <> [] ->
  exists a x', x = a ++ x' /\ x' <> []
    /\ dropWhile isWhiteSpace (x ++ y) = x' ++ y.
Proof.
  induction x as [|c x IH]; intros Hlast Hne; [congruence|].
  cbn [dropWhile app]. destruct (isWhiteSpace c) eqn:Hc.
  - destruct x as [|d x].
    + exfalso. specialize (Hlast [] c eq_refl). congruence.
    + destruct IH as (a & x' & Ha & Hx' & Hd).
      * intros x0 e Hx0. apply (Hlast (c :: x0) e). rewrite Hx0. reflexivity.
      * discriminate.
      * exists (c :: a), x'. split; [simpl; congruence|]. split; assumption.
  - exists [], (c :: x). split; [reflexivity|]. split; [discriminate | reflexivity].
Qed.

(** The replacement removes the leftmost token and the white space run in
    front of it, and nothing else. *)
Lemma replaceCopy_leftmost pre ws tok post :
  ~ ContainsCopy pre ->
  (forall pre0 c, pre = pre0 ++ [c] -> isWhiteSpace c = false) ->
  Forall (fun c => isWhiteSpace c = true) ws ->
  equalsIgnoreCase copyToken tok ->
  replaceCopy (pre ++ ws ++ tok ++ post) = pre ++ post.
Proof.
  intros Hpre Hlast Hws Htok.
  pose proof (equalsIgnoreCase_copy_inv _ Htok)
    as (t1 & t2 & t3 & t4 & t5 & t6 & Et & H1 & _).
  induction pre as [|c pre IH].
  - cbn [app]. rewrite replaceCopy_eq. unfold matchCopyAt.
    rewrite (dropWhile_all _ _ _ Hws).
    rewrite dropWhile_fixed.
    + assert (E : matchLiteralIgnoreCase copyToken (tok ++ post) = Some post).
      { apply matchLiteral_spec. exists tok. split; [reflexivity | exact Htok]. }
      rewrite E. reflexivity.
    + rewrite Et. cbn [app]. apply token_head_unit. exact H1.
  - rewrite replaceCopy_eq.
    destruct (matchCopyAt ((c :: pre) ++ ws ++ tok ++ post)) as [rest|] eqn:E.
    + exfalso. unfold matchCopyAt in E.
      destruct (dropWhile_keeps_last (c :: pre) (ws ++ tok ++ post) Hlast)
        as (a & x' & Ha & Hx' & Hd); [discriminate|].
      rewrite Hd in E. apply no_straddle in E; [|exact Hx'|].
      * destruct E as (t & x'' & Hx'' & Ht). apply Hpre.
        exists a, t, x''. split; [|exact Ht]. rewrite Ha, Hx''. reflexivity.
      * destruct Hws as [|w ws Hw _]; cbn [app].
        -- rewrite Et. cbn [app]. right. exact H1.
        -- left. exact Hw.
    + cbn [app]. f_equal. apply IH.
      * intros H. apply Hpre. apply ContainsCopy_cons. exact H.
      * intros pre0 e Hp. apply (Hlast (c :: pre0) e). rewrite Hp. reflexivity.
Qed.

Lemma ContainsCopy_bool s : ContainsCopy s -> containsCopy s = true.
Proof.
  intros (a & t & b & -> & Ht). induction a as [|c a IH].
  - cbn [app].
    assert (E : matchLiteralIgnoreCase copyToken (t ++ b) = Some b).
    { apply matchLiteral_spec. exists t. split; [reflexivity | exact Ht]. }
    destruct (t ++ b); cbn [containsCopy]; rewrite E; reflexivity.
  - cbn [app containsCopy].
    destruct (matchLiteralIgnoreCase copyToken (c :: a ++ t ++ b)); [reflexivity | exact IH].
Qed.

Lemma EndsWithVersion_bool s : EndsWithVersion s -> endsWithVersion s = true.
Proof.
  intros (a & ws & t & -> & Hne & Hws & Ht). induction a as [|c a IH].
  - cbn [app]. destruct ws as [|w ws]; [congruence|].
    inversion Hws as [|? ? Hw Hws']; subst.
    cbn [app endsWithVersion]. apply orb_true_iff. left.
    unfold matchVersionAt. cbn [dropWhile]. rewrite Hw. cbn [andb].
    rewrite (dropWhile_all _ _ _ Hws').
    assert (Hd : dropWhile isWhiteSpace t = t).
    { apply dropWhile_fixed. destruct Ht as [Ht|Ht];
        unfold equalsIgnoreCase, suffix94pct, suffixV94 in Ht; cbn [str] in Ht;
        inversion Ht as [|p u ps us Hu Hrest]; subst;
        (eapply version_head_unit; [|exact Hu]); vm_compute; auto. }
    rewrite Hd. apply orb_true_iff.
    destruct Ht as [Ht|Ht]; [left | right]; apply bool_decide_eq_true;
      apply matchLiteral_spec; exists t; rewrite app_nil_r; split; auto.
  - cbn [app endsWithVersion]. apply orb_true_iff. right. exact IH.
Qed.

(** Lengths: no step of the normaliser makes a string longer, and the two
    replacements make it shorter when they apply. *)
Lemma length_matchLiteral pat s rest :
  matchLiteralIgnoreCase pat s = Some rest ->
  (length s = length pat + length rest)%nat.
Proof.
  intros H. apply matchLiteral_spec in H as (t & -> & Ht).
  rewrite length_app. apply Forall2_length in Ht. lia.
Qed.

Lemma length_replaceCopy s : (length (replaceCopy s) <= length s)%nat.
Proof.
  induction s as [|c s IH]; rewrite replaceCopy_eq.
  - destruct (matchCopyAt []) eqn:E; [|cbn; lia].
    unfold matchCopyAt in E. apply length_matchLiteral in E.
    pose proof (length_dropWhile isWhiteSpace []). lia.
  - destruct (matchCopyAt (c :: s)) eqn:E; [|cbn [length]; lia].
    unfold matchCopyAt in E. apply length_matchLiteral in E.
    pose proof (length_dropWhile isWhiteSpace (c :: s)). lia.
Qed.

Lemma length_replaceCopy_lt s :
  containsCopy s = true -> (length (replaceCopy s) < length s)%nat.
Proof.
  induction s as [|c s IH]; intros H; [discriminate H|].
  rewrite replaceCopy_eq.
  destruct (matchCopyAt (c :: s)) as [rest|] eqn:E.
  - unfold matchCopyAt in E. apply length_matchLiteral in E.
    pose proof (length_dropWhile isWhiteSpace (c :: s)).
    change (length copyToken) with 6%nat in E. lia.
  - cbn [containsCopy] in H.
    destruct (matchLiteralIgnoreCase copyToken (c :: s)) as [b|] eqn:Em.
    + exfalso. unfold matchCopyAt in E. rewrite dropWhile_fixed in E; [congruence|].
      pose proof Em as Em'. apply matchLiteral_spec in Em' as (t & Ht & Heq).
      apply equalsIgnoreCase_copy_inv in Heq
        as (t1 & t2 & t3 & t4 & t5 & t6 & -> & H1 & _).
      cbn [app] in Ht. injection Ht as -> _. apply token_head_unit. exact H1.
    + cbn [length]. specialize (IH H). lia.
Qed.

Lemma length_replaceVersion s : (length (replaceVersion s) <= length s)%nat.
Proof.
  induction s as [|c s IH]; cbn [replaceVersion].
  - destruct (matchVersionAt []); cbn; lia.
  - destruct (matchVersionAt (c :: s)); cbn [length]; lia.
Qed.

Lemma length_replaceVersion_lt s :
  endsWithVersion s = true -> (length (replaceVersion s) < length s)%nat.
Proof.
  induction s as [|c s IH]; intros H; [discriminate H|].
  cbn [replaceVersion]. cbn [endsWithVersion] in H.
  destruct (matchVersionAt (c :: s)); cbn [length]; [lia|].
  specialize (IH H). lia.
Qed.

Lemma length_collapseFrom b s : (length (collapseFrom b s) <= length s)%nat.
Proof.
  revert b. induction s as [|c s IH]; intros b; cbn [collapseFrom length]; [lia|].
  destruct (isWhiteSpace c); [destruct b|]; cbn [length];
    [specialize (IH true) | specialize (IH true) | specialize (IH false)]; lia.
Qed.

Lemma length_normalizeAfterCopy s :
  (length (normalizeAfterCopy s) <= length (replaceVersion s))%nat.
Proof.
  unfold normalizeAfterCopy, collapseWhiteSpace, stripSymbols, toLowerCase.
  etrans; [apply length_trim|]. etrans; [apply length_collapseFrom|].
  etrans; [apply length_filter|]. rewrite length_map. lia.
Qed.

(** A trimmed string that holds a token or ends with a version suffix is
    changed by the normaliser. *)
Lemma normalize_changes_unclean n :
  trim n = n -> ContainsCopy n \/ EndsWithVersion n ->
  normalizeGameName (Some n) <> n.
Proof.
  intros Ht H E.
  assert (Hlt : (length (normalizeGameName (Some n)) < length n)%nat); [|rewrite E in Hlt; lia].
  cbn [normalizeGameName]. destruct n as [|c n']; [|cbn [truthy]; rewrite Ht].
  - exfalso. destruct H as [H|H].
    + apply ContainsCopy_bool in H. discriminate H.
    + apply EndsWithVersion_bool in H. discriminate H.
  - pose proof (length_normalizeAfterCopy (replaceCopy (c :: n'))) as H1.
    pose proof (length_replaceVersion (replaceCopy (c :: n'))) as H2.
    pose proof (length_replaceCopy (c :: n')) as H3.
    destruct (containsCopy (c :: n')) eqn:Ec.
    + apply length_replaceCopy_lt in Ec. lia.
    + destruct H as [H|H]; [apply ContainsCopy_bool in H; congruence|].
      assert (Hc : replaceCopy (c :: n') = c :: n').
      { apply replaceCopy_clean. intros Hc. apply ContainsCopy_bool in Hc. congruence. }
      rewrite Hc in *. apply EndsWithVersion_bool, length_replaceVersion_lt in H. lia.
Qed.

End CopyToken.

(* ===================================================================== *)
(** * Properties of the name normaliser *)
(* ===================================================================== *)

Example normalize_mega_fortune :
  normalizeGameName (Some (str "Mega Fortune" ++ [8482] ++ str " (copy) 94%"))
  = normalizeGameName (Some (str "mega fortune")).
Proof. vm_compute. reflexivity. Qed.

Example normalize_null : normalizeGameName None = [].
Proof. reflexivity. Qed.

Example clean_for_display_keeps_case :
  cleanGameNameForDisplay (Some (str " Mega  Fortune (Copy) V94 "))
  = str "Mega Fortune".
Proof. vm_compute. reflexivity. Qed.

(** The two conditions are also necessary: a key is a fixed point of the
    normaliser exactly when it holds no token and no version suffix. *)
Lemma normalize_fixed_point_iff (name : option jsstring) :
  normalizeGameName (Some (normalizeGameName name)) = normalizeGameName name
  <-> ~ ContainsCopy (normalizeGameName name)
      /\ ~ EndsWithVersion (normalizeGameName name).
Proof.
  destruct (normalizeGameName_shape name) as (Ht & Hl & Hs & Hw). split.
  - intros E. split; intros H;
      apply (normalize_changes_unclean _ Ht); auto.
  - intros [Hc Hv]. apply normalize_fixed; assumption.
Qed.

(** C7, as stated: the key of a name that contains copy tokens contains
    none.  This fails for a name with two tokens. *)
Lemma normalize_keeps_later_copy_counterexample :
  ContainsCopy (str "a (copy) (copy)")
  /\ ContainsCopy (normalizeGameName (Some (str "a (copy) (copy)"))).
Proof.
  split.
  - exists (str "a "), (str "(copy)"), (str " (copy)").
    split; [reflexivity|]. repeat constructor.
  - exists (str "a "), (str "(copy)"), [].
    split; [vm_compute; reflexivity|]. repeat constructor.
Qed.

(** C7, amended: the normaliser removes the leftmost copy token of the
    trimmed name, in any letter case, together with the white space run in
    front of it, and leaves a name without token as it is; the remaining
    steps (removal of a trailing version suffix, lower-casing, stripping of
    the three symbols, collapsing of white space, trimming) are then
    applied in this order. *)
Theorem normalize_removes_leftmost_copy (s pre ws tok post : jsstring) :
  truthy s = true ->
  (trim s = pre ++ ws ++ tok ++ post ->
   ~ ContainsCopy pre ->
   (forall c, last pre = Some c -> isWhiteSpace c = false) ->
   Forall (fun c => isWhiteSpace c = true) ws ->
   equalsIgnoreCase copyToken tok ->
   normalizeGameName (Some s)
   = trim (collapseWhiteSpace (stripSymbols (toLowerCase
       (replaceVersion (pre ++ post))))))
  /\ (~ ContainsCopy (trim s) ->
      normalizeGameName (Some s)
      = trim (collapseWhiteSpace (stripSymbols (toLowerCase
          (replaceVersion (trim s)))))).
Proof.
  intros Hs. split.
  - intros Htrim Hpre Hlast Hws Htok. cbn [normalizeGameName]. rewrite Hs, Htrim.
    rewrite replaceCopy_leftmost; [reflexivity | assumption | | assumption | assumption].
    intros pre0 c ->. apply Hlast. apply last_snoc.
  - intros Hn. cbn [normalizeGameName]. rewrite Hs.
    rewrite (replaceCopy_clean _ Hn). reflexivity.
Qed.

Lemma normalize_removes_leftmost_copy_witness :
  normalizeGameName (Some (str "Mega Fortune" ++ [8482] ++ str " (copy) 94%"))
  = trim (collapseWhiteSpace (stripSymbols (toLowerCase
      (replaceVersion ((str "Mega Fortune" ++ [8482]) ++ str " 94%"))))).
Proof.
  apply (proj1 (normalize_removes_leftmost_copy
                  (str "Mega Fortune" ++ [8482] ++ str " (copy) 94%")
                  (str "Mega Fortune" ++ [8482]) (str " ") (str "(copy)")
                  (str " 94%") eq_refl)).
  - vm_compute. reflexivity.
  - intros H. apply ContainsCopy_bool in H. vm_compute in H. discriminate H.
  - intros c H. vm_compute in H. injection H as <-. reflexivity.
  - repeat constructor.
  - repeat constructor.
Defined.

(* ===================================================================== *)
(** * The extraction validator *)
(* ===================================================================== *)

Section ValidatorFacts.

Ltac unfold_bind := unfold mbind, Result_bind, bindR.

Lemma lookupMember_undefined k ms :
  isUndefined (lookupMember k ms)
  = negb (existsb (fun m => bool_decide (m.1 = k)) ms).
Proof.
  induction ms as [|[k' v] ms IH]; [reflexivity|].
  cbn [lookupMember existsb fst]. destruct (lookupMember k ms) as [w|].
  - cbn [isUndefined] in *. symmetry in IH. apply negb_false_iff in IH.
    rewrite IH, orb_true_r. reflexivity.
  - cbn [isUndefined] in IH. symmetry in IH. apply negb_true_iff in IH.
    rewrite IH, orb_false_r. destruct (decide (k' = k)) as [E|E].
    + rewrite bool_decide_eq_true_2 by exact E. reflexivity.
    + rewrite bool_decide_eq_false_2 by exact E. reflexivity.
Qed.

Lemma isErr_mapR {A B} (f : A -> Result B) l :
  isErr (mapR f l) = existsb (fun a => isErr (f a)) l.
Proof.
  induction l as [|a l IH]; [reflexivity|].
  cbn [mapR existsb]. unfold_bind. destruct (f a); [|reflexivity].
  cbn [isErr orb]. rewrite <- IH. destruct (mapR f l); reflexivity.
Qed.

Lemma mapR_Forall2 {A B} (f : A -> Result B) (R : A -> B -> Prop) l bs :
  (forall a b, f a = Ok b -> R a b) ->
  mapR f l = Ok bs -> Forall2 R l bs.
Proof.
  intros Hf. revert bs. induction l as [|a l IH]; intros bs.
  - intros [= <-]. constructor.
  - cbn [mapR]. unfold_bind. destruct (f a) as [b|] eqn:Ea; [|discriminate].
    destruct (mapR f l) as [bs'|]; [|discriminate].
    intros [= <-]. constructor; [apply Hf; exact Ea | apply IH; reflexivity].
Qed.

Lemma mapR_total {A B} (f : A -> Result B) l :
  existsb (fun a => isErr (f a)) l = false -> exists bs, mapR f l = Ok bs.
Proof.
  rewrite <- isErr_mapR. destruct (mapR f l) as [bs|]; [|discriminate].
  intros _. exists bs. reflexivity.
Qed.

Lemma checkFile_violates f : isErr (checkFile f) = fileViolates f.
Proof.
  unfold checkFile, fileViolates. destruct f; try reflexivity.
  cbn [getProp memberAt]. unfold_bind.
  destruct (lookupMember (str "name") members) as [[]|]; reflexivity.
Qed.

Lemma structureFile_ok f :
  fileViolates f = false ->
  exists o, structureFile f = Ok o /\ fileStructured f o.
Proof.
  unfold fileViolates, structureFile, fileStructured.
  destruct f; try discriminate. cbn [getProp memberAt]. unfold_bind.
  destruct (lookupMember (str "name") members) as [[]|]; try discriminate.
  intros _. eexists. split; [reflexivity|]. cbn [name md5 sha1].
  split; [reflexivity|].
  split; destruct (lookupMember _ members); reflexivity.
Qed.

Lemma nullish_orNullValue x : nullish x = orNullValue x.
Proof. destruct x as [[]|]; reflexivity. Qed.

Lemma existsb_ext_eq {A} (f g : A -> bool) l :
  (forall a, f a = g a) -> existsb f l = existsb g l.
Proof. intros H. induction l as [|a l IH]; simpl; [reflexivity|]. rewrite H, IH. reflexivity. Qed.

Lemma checkInstance_violates i : isErr (checkInstance i) = instanceViolates i.
Proof.
  unfold checkInstance, instanceViolates, arrayAt, keyAbsent.
  destruct i; try reflexivity.
  cbn [getProp memberAt]. unfold_bind.
  rewrite <- !lookupMember_undefined.
  destruct (isUndefined (lookupMember (str "gameName") members)); [reflexivity|].
  destruct (isUndefined (lookupMember (str "gameCode") members)); [reflexivity|].
  cbn [orb]. destruct (lookupMember (str "files") members) as [[]|]; try reflexivity.
  cbn [isArray negb]. rewrite <- (existsb_ext_eq _ _ _ checkFile_violates).
  rewrite <- isErr_mapR. destruct (mapR checkFile elements); reflexivity.
Qed.

Lemma mapR_structureFile fl :
  existsb fileViolates fl = false ->
  exists os, mapR structureFile fl = Ok os /\ Forall2 fileStructured fl os.
Proof.
  induction fl as [|f fl IH]; cbn [existsb mapR].
  - intros _. exists []. split; [reflexivity | constructor].
  - intros H. apply orb_false_iff in H as [Hf Hfl].
    destruct (structureFile_ok f Hf) as (o & Eo & Ho).
    destruct (IH Hfl) as (os & Eos & Hos).
    exists (o :: os). unfold_bind. rewrite Eo, Eos.
    split; [reflexivity | constructor; assumption].
Qed.

Lemma structureInstance_ok i :
  instanceViolates i = false ->
  exists o, structureInstance i = Ok o /\ instanceStructured i o.
Proof.
  unfold instanceViolates, structureInstance, instanceStructured, arrayAt, keyAbsent.
  destruct i; try discriminate. cbn [getProp memberAt]. unfold_bind.
  intros H. apply orb_false_iff in H as [H Hf].
  destruct (lookupMember (str "files") members) as [[]|]; try discriminate.
  destruct (mapR_structureFile elements Hf) as (os & Eos & Hos).
  rewrite Eos. eexists. split; [reflexivity|].
  cbn [gameName gameCode files]. rewrite !nullish_orNullValue.
  split; [reflexivity|]. split; [reflexivity|].
  exists elements. split; [reflexivity | exact Hos].
Qed.

Lemma mapR_structureInstance il :
  existsb instanceViolates il = false ->
  exists os, mapR structureInstance il = Ok os
             /\ Forall2 instanceStructured il os.
Proof.
  induction il as [|i il IH]; cbn [existsb mapR].
  - intros _. exists []. split; [reflexivity | constructor].
  - intros H. apply orb_false_iff in H as [Hi Hil].
    destruct (structureInstance_ok i Hi) as (o & Eo & Ho).
    destruct (IH Hil) as (os & Eos & Hos).
    exists (o :: os). unfold_bind. rewrite Eo, Eos.
    split; [reflexivity | constructor; assumption].
Qed.

(** The validator fails exactly on the specified violations, and what it
    returns otherwise is the specified structure. *)
Lemma validate_cases v raw :
  (schemaViolation v = true /\ exists e, validateAndStructureData v raw = Err e)
  \/ (schemaViolation v = false
      /\ exists d, validateAndStructureData v raw = Ok d /\ dataStructured v d).
Proof.
  unfold validateAndStructureData, schemaViolation, dataStructured, arrayAt, keyAbsent.
  destruct v; try (left; split; [reflexivity | eexists; reflexivity]).
  cbn [getProp memberAt]. unfold_bind.
  rewrite <- !lookupMember_undefined.
  destruct (isUndefined (lookupMember (str "reportNumber") members));
    [left; split; [reflexivity | eexists; reflexivity]|].
  destruct (isUndefined (lookupMember (str "certificationDate") members));
    [left; split; [reflexivity | eexists; reflexivity]|].
  destruct (isUndefined (lookupMember (str "supplierRegistrationNumber") members));
    [left; split; [reflexivity | eexists; reflexivity]|].
  cbn [orb].
  destruct (lookupMember (str "gameInstances") members) as [[]|];
    try (left; split; [reflexivity | eexists; reflexivity]).
  cbn [isArray negb].
  destruct (existsb instanceViolates elements) eqn:Hv.
  - left. split; [reflexivity|].
    rewrite <- (existsb_ext_eq _ _ _ checkInstance_violates) in Hv.
    rewrite <- isErr_mapR in Hv.
    destruct (mapR checkInstance elements); [discriminate | eexists; reflexivity].
  - right. split; [reflexivity|].
    pose proof Hv as Hc.
    rewrite <- (existsb_ext_eq _ _ _ checkInstance_violates) in Hc.
    rewrite <- isErr_mapR in Hc.
    destruct (mapR checkInstance elements); [|discriminate].
    destruct (mapR_structureInstance elements Hv) as (os & Eos & Hos).
    rewrite Eos. eexists. split; [reflexivity|].
    cbn [reportNumber certificationDate supplierRegistrationNumber gameInstances].
    rewrite !nullish_orNullValue. repeat (split; [reflexivity|]).
    exists elements. split; [reflexivity | exact Hos].
Qed.

Lemma mapR_Err {A B} (f : A -> Result B) l e :
  mapR f l = Err e -> exists a, a ∈ l /\ f a = Err e.
Proof.
  induction l as [|a l IH]; [discriminate|].
  cbn [mapR]. unfold_bind. destruct (f a) as [b|e'] eqn:Ea.
  - destruct (mapR f l) as [bs|e'']; [discriminate|].
    intros [= ->]. destruct (IH eq_refl) as (x & Hx & Ex).
    exists x. split; [apply elem_of_cons; auto | exact Ex].
  - intros [= ->]. exists a. split; [apply elem_of_cons; auto | exact Ea].
Qed.

(** The errors of the validator: its own three, and the TypeError of a
    property read on [null]. *)
Lemma checkFile_error f e :
  checkFile f = Err e ->
  e = MkError fileErrorMessage \/ e = TypeErrorNull (str "name").
Proof.
  unfold checkFile. destruct f; cbn [getProp]; unfold_bind; cbn [isString negb];
    try (intros [= <-]; auto).
  destruct (lookupMember (str "name") members) as [[]|]; cbn [isString negb];
    intros [= <-]; auto.
Qed.

Lemma checkInstance_error i e :
  checkInstance i = Err e ->
  e = MkError instanceErrorMessage \/ e = MkError fileErrorMessage
  \/ exists p, e = TypeErrorNull p.
Proof.
  unfold checkInstance. destruct i; cbn [getProp]; unfold_bind;
    cbn [isUndefined orb]; try (intros [= <-]; eauto).
  destruct (isUndefined (lookupMember (str "gameName") members)
            || isUndefined (lookupMember (str "gameCode") members)
            || negb (isArray (lookupMember (str "files") members)));
    [intros [= <-]; auto|].
  destruct (lookupMember (str "files") members) as [[]|]; try discriminate.
  destruct (mapR checkFile elements) as [u|e'] eqn:E; [discriminate|].
  intros [= ->]. apply mapR_Err in E as (f & _ & Ef).
  apply checkFile_error in Ef as [->| ->]; eauto.
Qed.

Lemma validate_error v raw e :
  validateAndStructureData v raw = Err e ->
  e = MkError structureErrorMessage \/ e = MkError instanceErrorMessage
  \/ e = MkError fileErrorMessage \/ exists p, e = TypeErrorNull p.
Proof.
  unfold validateAndStructureData. destruct v; cbn [getProp]; unfold_bind;
    cbn [isUndefined orb]; try (intros [= <-]; eauto 6).
  destruct (isUndefined (lookupMember (str "reportNumber") members)
            || isUndefined (lookupMember (str "certificationDate") members)
            || isUndefined (lookupMember (str "supplierRegistrationNumber") members)
            || negb (isArray (lookupMember (str "gameInstances") members)));
    [intros [= <-]; auto|].
  destruct (lookupMember (str "gameInstances") members) as [[]|];
    try (cbn [mapR]; discriminate).
  destruct (mapR checkInstance elements) as [u|e'] eqn:E.
  - assert (Hv : existsb instanceViolates elements = false).
    { rewrite <- (existsb_ext_eq _ _ _ checkInstance_violates), <- isErr_mapR, E.
      reflexivity. }
    destruct (mapR_structureInstance elements Hv) as (os & -> & _). discriminate.
  - intros [= ->]. apply mapR_Err in E as (i & _ & Ei).
    apply checkInstance_error in Ei as [->|[->|Hp]]; auto.
Qed.

End ValidatorFacts.

(* ===================================================================== *)
(** * Properties of the extraction validator *)
(* ===================================================================== *)

Example schema_rejection :
  validateAndStructureData
    (JObject [(str "reportNumber", JNull);
              (str "gameInstances", JString (str "not-an-array"))]) []
  = Err (MkError structureErrorMessage).
Proof. vm_compute. reflexivity. Qed.

Example schema_defaulting :
  validateAndStructureData
    (JObject [(str "reportNumber", JNull);
              (str "certificationDate", JNull);
              (str "supplierRegistrationNumber", JNull);
              (str "gameInstances",
               JArray [JObject [(str "gameName", JString (str "X"));
                                (str "gameCode", JNull);
                                (str "files",
                                 JArray [JObject [(str "name",
                                                   JString (str "a.dll"))]])]])])
    []
  = Ok (mkExtractedGeminiInfo JNull JNull JNull
          [mkGameInstanceData (JString (str "X")) JNull
             [mkFileDetail (str "a.dll") JNull JNull]]).
Proof. vm_compute. reflexivity. Qed.

(** A [null] where an object is expected makes the property read itself
    throw. *)
Example null_instance_throws :
  validateAndStructureData
    (JObject [(str "reportNumber", JNull);
              (str "certificationDate", JNull);
              (str "supplierRegistrationNumber", JNull);
              (str "gameInstances", JArray [JNull])]) []
  = Err (TypeErrorNull (str "gameName")).
Proof. vm_compute. reflexivity. Qed.

(** C5: the validator throws exactly when one of the three top-level keys
    is absent, or [gameInstances] is not an array, or an instance lacks the
    [gameName] or [gameCode] key or has a [files] that is not an array, or a
    file entry lacks a string [name] (the thrown value is one of the
    validator's own errors, or the engine's TypeError where the value read
    is [null]); on every other input it returns the structured data, in
    which an optional field is [null] when the member is absent or [null]
    and the member's value otherwise. *)
Theorem validator_contract (v : json) (raw : jsstring) :
  isErr (validateAndStructureData v raw) = schemaViolation v
  /\ (schemaViolation v = false ->
      exists d, validateAndStructureData v raw = Ok d)
  /\ (forall d, validateAndStructureData v raw = Ok d -> dataStructured v d).
Proof.
  destruct (validate_cases v raw) as [(Hv & e & He)|(Hv & d & Hd & Hs)].
  - rewrite He, Hv. split; [reflexivity|]. split; [discriminate|].
    intros d [=].
  - rewrite Hd, Hv. split; [reflexivity|]. split.
    + intros _. exists d. reflexivity.
    + intros d' [= <-]. exact Hs.
Qed.

Lemma validator_contract_witness :
  exists d,
    validateAndStructureData
      (JObject [(str "reportNumber", JNull);
                (str "certificationDate", JString (str "2024-01-01"));
                (str "supplierRegistrationNumber", JNull);
                (str "gameInstances",
                 JArray [JObject [(str "gameName", JString (str "X"));
                                  (str "gameCode", JNull);
                                  (str "files",
                                   JArray [JObject [(str "name",
                                                     JString (str "a.dll"))]])]])])
      [] = Ok d.
Proof.
  apply (proj1 (proj2 (validator_contract _ []))). vm_compute. reflexivity.
Defined.

(* ===================================================================== *)
(** * The extraction client *)
(* ===================================================================== *)

Section ClientFacts.

Variable ext : Externals.

(** One iteration that ends in a caught error which is neither an invalid
    key nor a server error: the loop goes on at once. *)
Lemma retryLoop_other_error label req r last w e :
  tryExtract ext label (generateContent ext (calls w)) = Err e ->
  includes (message e) (str "API key not valid") = false ->
  includes (message e) (str "500") = false ->
  retryLoop ext label req (S r) last w
  = retryLoop ext label req r (Some e)
      (mkWorld (S (calls w)) (log w ++ [EvGenerate req])).
Proof.
  intros He Hk H5. cbn [retryLoop]. unfold request. rewrite He, Hk, H5.
  reflexivity.
Qed.

(** One iteration that ends in a transient error. *)
Lemma retryLoop_transient label req r last w e :
  generateContent ext (calls w) = Threw e -> transient e ->
  retryLoop ext label req (S r) last w
  = retryLoop ext label req r (Some e)
      (if (MAX_RETRIES - r <? MAX_RETRIES)%nat
       then mkWorld (S (calls w))
              ((log w ++ [EvGenerate req])
               ++ [EvSleep (RETRY_DELAY_MS * Z.of_nat (MAX_RETRIES - r))])
       else mkWorld (S (calls w)) (log w ++ [EvGenerate req])).
Proof.
  intros He [H5 Hk]. cbn [retryLoop]. unfold request. rewrite He.
  cbn [tryExtract]. rewrite Hk, H5. cbn [andb].
  destruct (MAX_RETRIES - r <? MAX_RETRIES)%nat; reflexivity.
Qed.

Lemma retryLoop_transient_all label req w e1 e2 e3 :
  generateContent ext (calls w) = Threw e1 ->
  generateContent ext (S (calls w)) = Threw e2 ->
  generateContent ext (S (S (calls w))) = Threw e3 ->
  transient e1 -> transient e2 -> transient e3 ->
  retryLoop ext label req MAX_RETRIES None w
  = (Err e3,
     mkWorld (3 + calls w)
       (log w ++ [EvGenerate req; EvSleep 1000; EvGenerate req;
                  EvSleep 2000; EvGenerate req])).
Proof.
  intros H1 H2 H3 T1 T2 T3. unfold MAX_RETRIES.
  rewrite (retryLoop_transient _ _ _ _ _ e1 H1 T1).
  cbn [Nat.ltb Nat.leb Nat.sub MAX_RETRIES].
  erewrite retryLoop_transient; [| cbn [calls]; exact H2 | exact T2].
  cbn [Nat.ltb Nat.leb Nat.sub MAX_RETRIES].
  erewrite retryLoop_transient; [| cbn [calls]; exact H3 | exact T3].
  cbn [Nat.ltb Nat.leb Nat.sub MAX_RETRIES].
  cbn [retryLoop calls log]. rewrite <- !app_assoc. reflexivity.
Qed.

Lemma retryLoop_parse_failure label req w text e :
  generateContent ext (calls w) = Responded text ->
  generateContent ext (S (calls w)) = Responded text ->
  generateContent ext (S (S (calls w))) = Responded text ->
  JSON_parse ext (stripFence (trim text)) = Err e ->
  includes (message (parseFailure label text e)) (str "API key not valid") = false ->
  includes (message (parseFailure label text e)) (str "500") = false ->
  retryLoop ext label req MAX_RETRIES None w
  = (Err (parseFailure label text e),
     mkWorld (3 + calls w)
       (log w ++ [EvGenerate req; EvGenerate req; EvGenerate req])).
Proof.
  intros H1 H2 H3 Hp Hk H5. unfold MAX_RETRIES.
  assert (Ht : tryExtract ext label (Responded text)
               = Err (parseFailure label text e)).
  { cbn [tryExtract]. rewrite Hp. reflexivity. }
  erewrite retryLoop_other_error;
    [| rewrite H1; exact Ht | exact Hk | exact H5].
  erewrite retryLoop_other_error;
    [| cbn [calls]; rewrite H2; exact Ht | exact Hk | exact H5].
  erewrite retryLoop_other_error;
    [| cbn [calls]; rewrite H3; exact Ht | exact Hk | exact H5].
  cbn [retryLoop calls log]. rewrite <- !app_assoc. reflexivity.
Qed.

End ClientFacts.

(* ===================================================================== *)
(** * Properties of the extraction client *)
(* ===================================================================== *)

(** C8: when every attempt of an extraction fails with a transient
    server-side error, exactly three model requests are made, with a delay
    of one second after the first and of two seconds after the second, and
    the error of the third attempt is raised. *)
Theorem retry_bound (ext : Externals) (apiKey : jsstring) (w : World)
    (e1 e2 e3 : JsError) :
  truthy apiKey = true ->
  generateContent ext (calls w) = Threw e1 ->
  generateContent ext (S (calls w)) = Threw e2 ->
  generateContent ext (S (S (calls w))) = Threw e3 ->
  transient e1 -> transient e2 -> transient e3 ->
  (forall ocrText,
     extractInfoFromText ext ocrText apiKey w
     = (Err e3,
        mkWorld (3 + calls w)
          (log w ++ [EvGenerate (TextRequest ocrText apiKey); EvSleep 1000;
                     EvGenerate (TextRequest ocrText apiKey); EvSleep 2000;
                     EvGenerate (TextRequest ocrText apiKey)])))
  /\ (forall imageBase64 mimeType,
        extractInfoFromImage ext imageBase64 mimeType apiKey w
        = (Err e3,
           mkWorld (3 + calls w)
             (log w ++ [EvGenerate (ImageRequest imageBase64 mimeType apiKey);
                        EvSleep 1000;
                        EvGenerate (ImageRequest imageBase64 mimeType apiKey);
                        EvSleep 2000;
                        EvGenerate (ImageRequest imageBase64 mimeType apiKey)]))).
Proof.
  intros Hk H1 H2 H3 T1 T2 T3. split; intros;
    unfold extractInfoFromText, extractInfoFromImage; rewrite Hk; cbn [negb];
    apply (retryLoop_transient_all ext _ _ w e1 e2 e3); assumption.
Qed.

Lemma retry_bound_witness :
  extractInfoFromText
    (sampleExternals rejectingParser (fun _ => Threw serverError))
    (str "report text") (str "key") (mkWorld 0 [])
  = (Err serverError,
     mkWorld 3
       [EvGenerate (TextRequest (str "report text") (str "key")); EvSleep 1000;
        EvGenerate (TextRequest (str "report text") (str "key")); EvSleep 2000;
        EvGenerate (TextRequest (str "report text") (str "key"))]).
Proof.
  refine (proj1 (retry_bound
                   (sampleExternals rejectingParser (fun _ => Threw serverError))
                   (str "key") (mkWorld 0 []) serverError serverError serverError
                   eq_refl eq_refl eq_refl eq_refl _ _ _) (str "report text"));
    split; vm_compute; reflexivity.
Defined.

(** An invalid key is fatal at the first attempt. *)
Example invalid_key_is_not_retried :
  extractInfoFromText
    (sampleExternals rejectingParser
       (fun _ => Threw (MkError (str "API key not valid. Please pass a valid API key."))))
    (str "report text") (str "key") (mkWorld 0 [])
  = (Err invalidKeyError,
     mkWorld 1 [EvGenerate (TextRequest (str "report text") (str "key"))]).
Proof. vm_compute. reflexivity. Qed.

(** C4, on the code: a response that is not valid JSON is not raised at
    once.  The caught parse error falls through to the next iteration, so
    three model requests are made, without delay, before the parse error of
    the last one is raised. *)
Theorem parse_failure_is_retried :
  extractInfoFromText
    (sampleExternals rejectingParser (fun _ => Responded (str "not json")))
    (str "report text") (str "key") (mkWorld 0 [])
  = (Err (parseFailure (str "text") (str "not json")
            (MkError (str "Unexpected token o in JSON at position 1"))),
     mkWorld 3
       [EvGenerate (TextRequest (str "report text") (str "key"));
        EvGenerate (TextRequest (str "report text") (str "key"));
        EvGenerate (TextRequest (str "report text") (str "key"))])
  /\ extractInfoFromImage
       (sampleExternals rejectingParser (fun _ => Responded (str "not json")))
       (str "aGk=") (str "image/png") (str "key") (mkWorld 0 [])
     = (Err (parseFailure (str "image") (str "not json")
               (MkError (str "Unexpected token o in JSON at position 1"))),
        mkWorld 3
          [EvGenerate (ImageRequest (str "aGk=") (str "image/png") (str "key"));
           EvGenerate (ImageRequest (str "aGk=") (str "image/png") (str "key"));
           EvGenerate (ImageRequest (str "aGk=") (str "image/png") (str "key"))]).
Proof. split; vm_compute; reflexivity. Qed.

(** The same holds for every response that does not parse, whatever the
    world, as long as the rewrapped message is not taken for an invalid key
    or a server error. *)
Lemma parse_failure_is_retried_general (ext : Externals)
    (ocrText apiKey text : jsstring) (w : World) (e : JsError) :
  truthy apiKey = true ->
  generateContent ext (calls w) = Responded text ->
  generateContent ext (S (calls w)) = Responded text ->
  generateContent ext (S (S (calls w))) = Responded text ->
  JSON_parse ext (stripFence (trim text)) = Err e ->
  includes (message (parseFailure (str "text") text e))
    (str "API key not valid") = false ->
  includes (message (parseFailure (str "text") text e)) (str "500") = false ->
  extractInfoFromText ext ocrText apiKey w
  = (Err (parseFailure (str "text") text e),
     mkWorld (3 + calls w)
       (log w ++ [EvGenerate (TextRequest ocrText apiKey);
                  EvGenerate (TextRequest ocrText apiKey);
                  EvGenerate (TextRequest ocrText apiKey)])).
Proof.
  intros Hk H1 H2 H3 Hp Hi H5. unfold extractInfoFromText. rewrite Hk. cbn [negb].
  apply retryLoop_parse_failure; assumption.
Qed.

(* ===================================================================== *)
(** * The batch orchestrator *)
(* ===================================================================== *)

Section BatchFacts.

Variable ext : Externals.
Variable apiKey : jsstring.
Variable originalFilesMap : gmap jsstring File.

Implicit Types (f : ProcessedFileData json) (w : World).

Lemma attempted_app l1 l2 : attempted (l1 ++ l2) = attempted l1 ++ attempted l2.
Proof. unfold attempted. apply omap_app. Qed.

(** The client only adds model requests and delays to the log. *)
Lemma retryLoop_log label req r last w :
  exists evs, log (retryLoop ext label req r last w).2 = log w ++ evs
              /\ attempted evs = [].
Proof.
  revert last w. induction r as [|r IH]; intros last w.
  - exists []. cbn. rewrite app_nil_r. split; reflexivity.
  - cbn [retryLoop]. unfold request.
    destruct (tryExtract ext label (generateContent ext (calls w))) as [d|e].
    + exists [EvGenerate req]. split; reflexivity.
    + destruct (includes (message e) (str "API key not valid")).
      { exists [EvGenerate req]. split; reflexivity. }
      destruct (includes (message e) (str "500") && (MAX_RETRIES - r <? MAX_RETRIES)%nat).
      * destruct (IH (Some e)
                    (emit (EvSleep (RETRY_DELAY_MS * Z.of_nat (MAX_RETRIES - r)))
                       (mkWorld (S (calls w)) (log w ++ [EvGenerate req]))))
          as (evs & Hl & Ha).
        exists ([EvGenerate req] ++ [EvSleep (RETRY_DELAY_MS * Z.of_nat (MAX_RETRIES - r))] ++ evs).
        split.
        -- rewrite Hl. cbn [emit log]. rewrite <- !app_assoc. reflexivity.
        -- rewrite !attempted_app, Ha. reflexivity.
      * destruct (IH (Some e) (mkWorld (S (calls w)) (log w ++ [EvGenerate req])))
          as (evs & Hl & Ha).
        exists ([EvGenerate req] ++ evs). split.
        -- rewrite Hl. cbn [log]. rewrite <- app_assoc. reflexivity.
        -- rewrite attempted_app, Ha. reflexivity.
Qed.

Lemma tryProcess_log i w :
  exists evs, log (tryProcess ext apiKey originalFilesMap i w).2 = log w ++ evs
              /\ attempted evs = [].
Proof.
  assert (Hnil : exists evs, log w = log w ++ evs /\ attempted evs = []).
  { exists []. rewrite app_nil_r. split; reflexivity. }
  unfold tryProcess. destruct (originalFilesMap !! i) as [file|]; [|exact Hnil].
  destruct (isPdfType (fileType file)).
  - destruct (extractTextFromPdf ext file) as [t|]; [|exact Hnil].
    destruct (negb (truthy (trim t))); [exact Hnil|].
    unfold extractInfoFromText. destruct (negb (truthy apiKey)); [exact Hnil|].
    apply retryLoop_log.
  - destruct (isImageType (fileType file)); [|exact Hnil].
    destruct (convertFileToBase64AndGetMime ext file) as [[b m]|]; [|exact Hnil].
    destruct (negb (truthy b)); [exact Hnil|].
    unfold extractInfoFromImage. destruct (negb (truthy apiKey)); [exact Hnil|].
    apply retryLoop_log.
Qed.

Lemma updateById_twice i (g h : ProcessedFileData json -> ProcessedFileData json) fs :
  (forall f, id (h f) = id f) ->
  updateById i g (updateById i h fs) = updateById i (fun f => g (h f)) fs.
Proof.
  intros Hid. unfold updateById. rewrite map_map. apply map_ext. intros f.
  destruct (decide (id f = i)) as [E|E].
  - rewrite Hid. destruct (decide (id f = i)); [reflexivity | contradiction].
  - destruct (decide (id f = i)); [contradiction | reflexivity].
Qed.

(** One iteration of the loop, in terms of the outcome of its [try]. *)
Lemma processFile_outcome fs w cur :
  processFile ext apiKey originalFilesMap (fs, w) cur
  = let '(r, w1) :=
      tryProcess ext apiKey originalFilesMap (id cur)
        (emit (EvStatus (id cur) st_processing) w) in
    (updateById (id cur) (applyOutcome r) fs,
     emit (EvStatus (id cur)
             (match r with Ok _ => st_completed | Err _ => st_error end)) w1).
Proof.
  unfold processFile. cbn [fst snd].
  destruct (tryProcess ext apiKey originalFilesMap (id cur)
              (emit (EvStatus (id cur) st_processing) w)) as [[d|e] w1];
    rewrite updateById_twice by reflexivity; reflexivity.
Qed.

(** The loop is the attempts of the work list, each applied to the entry
    with its id. *)
Lemma batch_loop snap fs w :
  foldl (processFile ext apiKey originalFilesMap) (fs, w) snap
  = (foldl applyResult fs
       (attemptAll ext apiKey originalFilesMap (map id snap) w).1,
     (attemptAll ext apiKey originalFilesMap (map id snap) w).2).
Proof.
  revert fs w. induction snap as [|cur snap IH]; intros fs w; [reflexivity|].
  cbn [foldl map attemptAll]. rewrite processFile_outcome.
  destruct (tryProcess ext apiKey originalFilesMap (id cur)
              (emit (EvStatus (id cur) st_processing) w)) as [r w1].
  rewrite IH.
  destruct (attemptAll ext apiKey originalFilesMap (map id snap)
              (emit (EvStatus (id cur)
                       (match r with Ok _ => st_completed | Err _ => st_error end))
                 w1)) as [rs w3].
  reflexivity.
Qed.

Lemma attemptAll_ids ids w :
  map fst (attemptAll ext apiKey originalFilesMap ids w).1 = ids.
Proof.
  revert w. induction ids as [|i ids IH]; intros w; [reflexivity|].
  cbn [attemptAll].
  destruct (tryProcess ext apiKey originalFilesMap i
              (emit (EvStatus i st_processing) w)) as [r w1].
  specialize (IH (emit (EvStatus i
                          (match r with Ok _ => st_completed | Err _ => st_error end))
                    w1)).
  destruct (attemptAll ext apiKey originalFilesMap ids _) as [rs w3].
  cbn [fst map] in *. rewrite IH. reflexivity.
Qed.

Lemma attemptAll_attempted ids w :
  attempted (log (attemptAll ext apiKey originalFilesMap ids w).2)
  = attempted (log w) ++ ids.
Proof.
  revert w. induction ids as [|i ids IH]; intros w.
  - cbn. rewrite app_nil_r. reflexivity.
  - cbn [attemptAll].
    destruct (tryProcess_log i (emit (EvStatus i st_processing) w))
      as (evs & Hl & Ha).
    destruct (tryProcess ext apiKey originalFilesMap i
                (emit (EvStatus i st_processing) w)) as [r w1].
    cbn [snd] in Hl.
    specialize (IH (emit (EvStatus i
                            (match r with Ok _ => st_completed | Err _ => st_error end))
                      w1)).
    destruct (attemptAll ext apiKey originalFilesMap ids _) as [rs w3].
    cbn [snd] in *. rewrite IH. cbn [emit log]. rewrite Hl. cbn [emit log].
    rewrite !attempted_app, Ha.
    assert (E : attempted [EvStatus i (match r with Ok _ => st_completed | Err _ => st_error end)] = []).
    { destruct r; reflexivity. }
    rewrite E. cbn [attempted omap]. rewrite !app_nil_r, <- app_assoc. reflexivity.
Qed.

Lemma outcomeOf_None {X} i (results : list (jsstring * X)) :
  i ∉ map fst results -> outcomeOf i results = None.
Proof.
  induction results as [|[j r] rs IH]; [reflexivity|].
  cbn [map fst outcomeOf]. intros H. apply not_elem_of_cons in H as [Hne H].
  destruct (decide (j = i)); [congruence | auto].
Qed.

Lemma applyOutcome_id r f : id (applyOutcome r f) = id f.
Proof. destruct r; reflexivity. Qed.

(** With distinct ids in the work list, applying the outcomes one after
    the other is applying to each entry the outcome with its id. *)
Lemma applyResults_pointwise results fs :
  NoDup (map fst results) ->
  foldl applyResult fs results
  = map (fun f => match outcomeOf (id f) results with
                  | Some r => applyOutcome r f
                  | None => f
                  end) fs.
Proof.
  revert fs. induction results as [|[i r] rs IH]; intros fs Hnd.
  - cbn. rewrite map_id. reflexivity.
  - cbn [map fst] in Hnd. apply NoDup_cons in Hnd as [Hi Hnd].
    cbn [foldl]. rewrite IH by exact Hnd.
    unfold applyResult, updateById. cbn [fst snd]. rewrite map_map.
    apply map_ext. intros f. cbn [outcomeOf].
    destruct (decide (id f = i)) as [E|E].
    + rewrite applyOutcome_id, E. rewrite (outcomeOf_None _ _ Hi).
      destruct (decide (i = i)); [reflexivity | contradiction].
    + destruct (decide (i = id f)); [congruence | reflexivity].
Qed.

Lemma id_injective_on (fs : list (ProcessedFileData json)) f g :
  NoDup (map id fs) -> f ∈ fs -> g ∈ fs -> id f = id g -> f = g.
Proof.
  induction fs as [|h fs IH]; intros Hnd Hf Hg E.
  - inversion Hf.
  - cbn [map] in Hnd. apply NoDup_cons in Hnd as [Hh Hnd].
    apply elem_of_cons in Hf as [->|Hf]; apply elem_of_cons in Hg as [->|Hg].
    + reflexivity.
    + exfalso. apply Hh. rewrite E. apply list_elem_of_fmap_2. exact Hg.
    + exfalso. apply Hh. rewrite <- E. apply list_elem_of_fmap_2. exact Hf.
    + auto.
Qed.

Lemma settled_pointwise fs results :
  NoDup (map id fs) ->
  map fst results = map id (filter (fun f => isQueued f = true) fs) ->
  map (fun f => match outcomeOf (id f) results with
                | Some r => applyOutcome r f
                | None => f
                end) fs
  = map (settled results) fs.
Proof.
  intros Hnd Hids. apply map_ext_in. intros f Hf. apply list_elem_of_In in Hf.
  unfold settled. destruct (isQueued f) eqn:Hq.
  - destruct (outcomeOf (id f) results) as [[d|e]|]; reflexivity.
  - rewrite outcomeOf_None; [reflexivity|].
    rewrite Hids. intros Hin. apply list_elem_of_fmap in Hin as (g & Eg & Hg).
    apply list_elem_of_filter in Hg as [Hgq Hg].
    assert (f = g) by (eapply id_injective_on; eassumption).
    subst g. congruence.
Qed.

End BatchFacts.

(* ===================================================================== *)
(** * Properties of the batch orchestrator *)
(* ===================================================================== *)

Lemma NoDup_ids_filter {V} (P : ProcessedFileData V -> Prop)
    `{!forall f, Decision (P f)} (fs : list (ProcessedFileData V)) :
  NoDup (map id fs) -> NoDup (map id (filter P fs)).
Proof.
  induction fs as [|f fs IH]; [intros; constructor|].
  cbn [map]. intros Hnd. apply NoDup_cons in Hnd as [Hf Hnd].
  rewrite filter_cons. destruct (decide (P f)); [|auto].
  cbn [map]. apply NoDup_cons. split; [|auto].
  intros Hin. apply Hf. apply list_elem_of_fmap in Hin as (g & Eg & Hg).
  apply list_elem_of_filter in Hg as [_ Hg]. rewrite Eg.
  apply list_elem_of_fmap_2. exact Hg.
Qed.

Lemma storedMessage_message (e : JsError) :
  truthy (message e) = true -> storedMessage e = message e.
Proof. unfold storedMessage, orElse. intros ->. reflexivity. Qed.

(** The batch of the specification: the key is rejected for the second of
    three queued files; the third one is still attempted and completes. *)
Example batch_of_three :
  map (fun f => (status f, errorMessage f))
    (handleStartProcessing secondKeyRejected false false (str "key")
       threeQueued threeOriginals (mkWorld 0 [])).1
  = [(st_completed, None);
     (st_error, Some (message invalidKeyError));
     (st_completed, None)]
  /\ attempted
       (log (handleStartProcessing secondKeyRejected false false (str "key")
               threeQueued threeOriginals (mkWorld 0 [])).2)
     = [str "a.pdf-1"; str "b.pdf-2"; str "c.pdf-3"].
Proof. split; vm_compute; reflexivity. Qed.

(** Without a key nothing is attempted and every queued file is marked. *)
Example batch_without_key :
  handleStartProcessing secondKeyRejected false false [] threeQueued
    threeOriginals (mkWorld 0 [])
  = (map (withError (str "API Key not set.")) threeQueued, mkWorld 0 []).
Proof. vm_compute. reflexivity. Qed.

(* ===================================================================== *)
(** * The provider table loader *)
(* ===================================================================== *)

Section LoaderFacts.

Implicit Types (m : GameProviderMap) (es : list (jsstring * ProviderInfo)).

Lemma foldl_recordLine (lines : list jsstring) m (n : nat) :
  foldl recordLine (m, n) lines
  = (insertAll m (omap parseLine lines),
     (n + length (omap parseLine lines))%nat).
Proof.
  revert m n. induction lines as [|l lines IH]; intros m n.
  - cbn. f_equal. lia.
  - cbn [foldl omap list_omap]. unfold recordLine at 2.
    destruct (parseLine l) as [[k info]|].
    + cbn [fst snd]. rewrite IH. unfold insertAll.
      cbn [foldl length fst snd]. f_equal. lia.
    + apply IH.
Qed.

Lemma size_insertAll_le m es :
  (size (insertAll m es) <= size m + length es)%nat.
Proof.
  revert m. induction es as [|[k v] es IH]; intros m.
  - cbn. lia.
  - cbn [insertAll foldl length fst snd]. specialize (IH (<[k:=v]> m)).
    unfold insertAll in IH. etrans; [exact IH|].
    rewrite map_size_insert. destruct (m !! k); unfold Datatypes.id; lia.
Qed.

Lemma size_insertAll_lt m es :
  (exists k, k ∈ map fst es /\ is_Some (m !! k)) \/ ~ NoDup (map fst es) ->
  (size (insertAll m es) < size m + length es)%nat.
Proof.
  revert m. induction es as [|[k v] es IH]; intros m H.
  - exfalso. destruct H as [(k & Hk & _)|H].
    + inversion Hk.
    + apply H. constructor.
  - cbn [insertAll foldl length fst snd].
    destruct (m !! k) as [x|] eqn:Hm.
    + pose proof (size_insertAll_le (<[k:=v]> m) es) as Hle.
      unfold insertAll in Hle. rewrite map_size_insert, Hm in Hle.
      unfold Datatypes.id in Hle. lia.
    + assert (Hstrict : (size (insertAll (<[k:=v]> m) es)
                         < size (<[k:=v]> m) + length es)%nat).
      { apply IH. destruct H as [(k' & Hk' & Hs)|H].
        - cbn [map fst] in Hk'. apply elem_of_cons in Hk' as [->|Hk'].
          + rewrite Hm in Hs. destruct Hs as [? [=]].
          + left. exists k'. split; [exact Hk'|].
            destruct (decide (k = k')) as [->|Hne].
            * rewrite lookup_insert_eq. eauto.
            * rewrite lookup_insert_ne by exact Hne. exact Hs.
        - cbn [map fst] in H.
          destruct (decide (k ∈ map fst es)) as [Hin|Hnin].
          + left. exists k. split; [exact Hin|]. rewrite lookup_insert_eq. eauto.
          + right. intros Hnd. apply H. apply NoDup_cons. split; assumption. }
      unfold insertAll in Hstrict. rewrite map_size_insert, Hm in Hstrict. lia.
Qed.

Lemma lookup_insertAll_notin m es k :
  k ∉ map fst es -> insertAll m es !! k = m !! k.
Proof.
  revert m. induction es as [|[k' v] es IH]; intros m H; [reflexivity|].
  cbn [map fst] in H. apply not_elem_of_cons in H as [Hne H].
  cbn [insertAll foldl fst snd]. specialize (IH (<[k':=v]> m) H).
  unfold insertAll in IH. rewrite IH. apply lookup_insert_ne. congruence.
Qed.

Lemma lookup_insertAll_last m es1 k v es2 :
  k ∉ map fst es2 -> insertAll m (es1 ++ (k, v) :: es2) !! k = Some v.
Proof.
  intros H. unfold insertAll. rewrite foldl_app. cbn [foldl fst snd].
  pose proof (lookup_insertAll_notin
                (<[k:=v]> (foldl (fun acc p => <[p.1:=p.2]> acc) m es1)) es2 k H) as E.
  unfold insertAll in E. rewrite E. apply lookup_insert_eq.
Qed.

Lemma repeated_key_not_NoDup es (i j : nat) k v1 v2 :
  (i < j)%nat -> es !! i = Some (k, v1) -> es !! j = Some (k, v2) ->
  ~ NoDup (map fst es).
Proof.
  intros Hij Hi Hj Hnd. rewrite NoDup_alt in Hnd.
  assert (i = j); [|lia].
  apply (Hnd i j k); rewrite list_lookup_fmap.
  - rewrite Hi. reflexivity.
  - rewrite Hj. reflexivity.
Qed.

End LoaderFacts.

(* ===================================================================== *)
(** * Properties of the provider table loader *)
(* ===================================================================== *)

Example loader_sample :
  (handleParseData samplePaste).2 = 2%nat
  /\ (handleParseData samplePaste).1
     = {[ str "foo" := mkProviderInfo (str "Beta") None None ]}.
Proof. split; vm_compute; reflexivity. Qed.

(** C10: the count returned by the loader is the number of accepted lines,
    lines with the same key counted one by one.  It is at least the number
    of keys of the returned table, and greater when two accepted lines
    normalise to the same key; for such a key the table holds the entry of
    the last of these lines. *)
Theorem loader_count (excelData : jsstring) :
  (handleParseData excelData).2 = length (acceptedEntries excelData)
  /\ (size (handleParseData excelData).1 <= (handleParseData excelData).2)%nat
  /\ (forall (i j : nat) k v1 v2,
        (i < j)%nat ->
        acceptedEntries excelData !! i = Some (k, v1) ->
        acceptedEntries excelData !! j = Some (k, v2) ->
        (size (handleParseData excelData).1 < (handleParseData excelData).2)%nat)
  /\ (forall es1 k v es2,
        acceptedEntries excelData = es1 ++ (k, v) :: es2 ->
        k ∉ map fst es2 ->
        (handleParseData excelData).1 !! k = Some v).
Proof.
  unfold handleParseData, acceptedEntries. rewrite foldl_recordLine.
  cbn [fst snd]. split; [reflexivity|]. split; [|split].
  - pose proof (size_insertAll_le ∅ (omap parseLine (dataLinesOf excelData))) as H.
    rewrite map_size_empty in H. exact H.
  - intros i j k v1 v2 Hij Hi Hj.
    pose proof (size_insertAll_lt ∅ (omap parseLine (dataLinesOf excelData))) as H.
    rewrite map_size_empty in H. apply H. right.
    eapply repeated_key_not_NoDup; eassumption.
  - intros es1 k v es2 E Hk. rewrite E. apply lookup_insertAll_last. exact Hk.
Qed.

Lemma loader_count_witness :
  (size (handleParseData samplePaste).1 < (handleParseData samplePaste).2)%nat.
Proof.
  apply (proj1 (proj2 (proj2 (loader_count samplePaste)))
           0%nat 1%nat (str "foo")
           (mkProviderInfo (str "Acme") (Some (str "2020")) (Some (str "foo_ims")))
           (mkProviderInfo (str "Beta") None None)).
  - lia.
  - vm_compute. reflexivity.
  - vm_compute. reflexivity.
Defined.

(* ===================================================================== *)
(** * The authoritative code map *)
(* ===================================================================== *)

Section ReconciliationFacts.

Implicit Types (acc : gmap jsstring jsstring)
  (i : GameInstanceData (option jsstring)).

Lemma providerCodes_lookup (tbl : GameProviderMap) k :
  map_fold addProviderCode ∅ tbl !! k = tbl !! k ≫= tableCode.
Proof.
  revert k.
  apply (map_fold_weak_ind
           (fun (acc : gmap jsstring jsstring) (m : GameProviderMap) =>
              forall k, acc !! k = m !! k ≫= tableCode)).
  - intros k. rewrite !lookup_empty. reflexivity.
  - intros j x m r Hj IH k. unfold addProviderCode.
    destruct (decide (j = k)) as [->|Hne].
    + rewrite lookup_insert_eq. cbn. unfold tableCode.
      destruct (imsGameCode x) as [c|].
      * destruct (truthy c).
        -- apply lookup_insert_eq.
        -- rewrite IH, Hj. reflexivity.
      * rewrite IH, Hj. reflexivity.
    + rewrite (lookup_insert_ne m) by exact Hne.
      destruct (imsGameCode x) as [c|]; [destruct (truthy c)|];
        rewrite ?lookup_insert_ne by exact Hne; apply IH.
Qed.

Lemma fillFromFiles_flatten acc (data : list (ProcessedFileData (option jsstring))) :
  foldl fillFromFile acc data
  = foldl fillFromInstance acc (completedInstances data).
Proof.
  revert acc. induction data as [|f data IH]; intros acc; [reflexivity|].
  cbn [foldl completedInstances flat_map]. rewrite foldl_app.
  unfold fillFromFile at 2.
  destruct (decide (status f = st_completed)); apply IH.
Qed.

Lemma fillFromInstance_keeps acc i k c :
  acc !! k = Some c -> fillFromInstance acc i !! k = Some c.
Proof.
  intros H. unfold fillFromInstance.
  destruct (truthy (normalizeGameName (gameName i))); [|exact H].
  destruct (bool_decide (is_Some (acc !! normalizeGameName (gameName i)))) eqn:E;
    [exact H|].
  cbn [negb andb]. destruct (gameCode i) as [code|]; [|exact H].
  cbn [truthyOpt]. destruct (truthy code); [|exact H].
  apply bool_decide_eq_false in E.
  rewrite lookup_insert_ne; [exact H|].
  intros E'. apply E. rewrite E', H. eauto.
Qed.

Lemma fillFromInstances_keep acc (l : list (GameInstanceData (option jsstring))) k c :
  acc !! k = Some c -> foldl fillFromInstance acc l !! k = Some c.
Proof.
  revert acc. induction l as [|i l IH]; intros acc H; [exact H|].
  cbn [foldl]. apply IH. apply fillFromInstance_keeps. exact H.
Qed.

Lemma fillFromInstance_free acc i k :
  truthy k = true -> acc !! k = None ->
  fillFromInstance acc i !! k = offer k i.
Proof.
  intros Hk H. unfold fillFromInstance, offer.
  destruct (decide (normalizeGameName (gameName i) = k)) as [->|Hne].
  - rewrite Hk, H.
    rewrite bool_decide_eq_false_2 by (intros [? [=]]).
    cbn [negb andb]. destruct (gameCode i) as [c|]; [|exact H].
    cbn [truthyOpt]. destruct (truthy c); [apply lookup_insert_eq | exact H].
  - destruct (truthy (normalizeGameName (gameName i))
              && negb (bool_decide (is_Some (acc !! normalizeGameName (gameName i))))
              && truthyOpt (gameCode i)); [|exact H].
    destruct (gameCode i) as [c|]; [|exact H].
    rewrite lookup_insert_ne by exact Hne. exact H.
Qed.

Lemma fillFromInstances_free acc (l : list (GameInstanceData (option jsstring))) k :
  truthy k = true -> acc !! k = None ->
  foldl fillFromInstance acc l !! k = head (omap (offer k) l).
Proof.
  intros Hk. revert acc. induction l as [|i l IH]; intros acc H; [exact H|].
  cbn [foldl omap list_omap].
  pose proof (fillFromInstance_free acc i k Hk H) as E.
  destruct (offer k i) as [c|].
  - cbn [head]. apply fillFromInstances_keep. exact E.
  - apply IH. exact E.
Qed.

Lemma fillFromInstance_empty_key acc i k :
  truthy k = false -> fillFromInstance acc i !! k = acc !! k.
Proof.
  intros Hk. unfold fillFromInstance.
  destruct (truthy (normalizeGameName (gameName i))) eqn:E; [|reflexivity].
  cbn [andb].
  destruct (negb (bool_decide (is_Some (acc !! normalizeGameName (gameName i))))
            && truthyOpt (gameCode i)); [|reflexivity].
  destruct (gameCode i) as [c|]; [|reflexivity].
  apply lookup_insert_ne. intros E'. rewrite E' in E. congruence.
Qed.

Lemma fillFromInstances_empty_key acc
    (l : list (GameInstanceData (option jsstring))) k :
  truthy k = false -> foldl fillFromInstance acc l !! k = acc !! k.
Proof.
  intros Hk. revert acc. induction l as [|i l IH]; intros acc; [reflexivity|].
  cbn [foldl]. rewrite IH. apply fillFromInstance_empty_key. exact Hk.
Qed.

End ReconciliationFacts.

(* ===================================================================== *)
(** * Properties of the authoritative code map *)
(* ===================================================================== *)

Example code_precedence_sample :
  authoritativeImsCodeMap
    {[ str "k" := mkProviderInfo (str "Acme") None (Some (str "A")) ]}
    [completedFile (str "f") [instanceOf (Some (str "K")) (Some (str "B"))]]
  !! str "k" = Some (str "A").
Proof. vm_compute. reflexivity. Qed.

Example gap_filling_sample :
  authoritativeImsCodeMap ∅
    [completedFile (str "f") [instanceOf (Some (str "K")) (Some (str "B"))];
     completedFile (str "g") [instanceOf (Some (str "k")) (Some (str "C"))]]
  !! str "k" = Some (str "B").
Proof. vm_compute. reflexivity. Qed.

(** C1, as stated: a key without a code in the provider table resolves to
    the first non-null extracted code for it.  This fails where the
    extracted code or the key is the empty string: an empty extracted code
    is passed over for a later one, and the key of a null name gets no
    entry at all. *)
Lemma code_precedence_counterexample :
  (firstNonNullCode (str "k")
     [completedFile (str "f")
        [instanceOf (Some (str "k")) (Some []);
         instanceOf (Some (str "k")) (Some (str "C"))]] = Some []
   /\ authoritativeImsCodeMap ∅
        [completedFile (str "f")
           [instanceOf (Some (str "k")) (Some []);
            instanceOf (Some (str "k")) (Some (str "C"))]]
      !! str "k" = Some (str "C"))
  /\ (firstNonNullCode (normalizeGameName None)
        [completedFile (str "f") [instanceOf None (Some (str "B"))]]
      = Some (str "B")
      /\ authoritativeImsCodeMap ∅
           [completedFile (str "f") [instanceOf None (Some (str "B"))]]
         !! normalizeGameName None = None).
Proof. repeat split; vm_compute; reflexivity. Qed.

(** C1, amended: for every key to which the provider table gives a
    non-empty code, the authoritative map resolves the key to that code,
    whatever was extracted; for every non-empty key to which the table
    gives no such code (no entry, or an entry with a null or empty code),
    the map resolves the key to the first non-empty code that the
    instances of the completed files carry for it, in file-then-instance
    order, and has no entry for the key when there is none.  The empty
    key, which is the key of a null or empty game name, never gets an
    entry from extraction: the map has for it what the table gives, and
    nothing when the table has no code for it, whatever codes the
    instances without a name carry. *)
Theorem code_precedence (gameProviderMap : GameProviderMap)
    (data : list (ProcessedFileData (option jsstring))) (k : jsstring) :
  (forall info c,
     gameProviderMap !! k = Some info -> imsGameCode info = Some c ->
     truthy c = true ->
     authoritativeImsCodeMap gameProviderMap data !! k = Some c)
  /\ (truthy k = true ->
      (forall info, gameProviderMap !! k = Some info ->
                    truthyOpt (imsGameCode info) = false) ->
      authoritativeImsCodeMap gameProviderMap data !! k
      = firstExtractedCode k data)
  /\ (truthy k = false ->
      authoritativeImsCodeMap gameProviderMap data !! k
      = gameProviderMap !! k ≫= tableCode
      /\ ((forall info, gameProviderMap !! k = Some info ->
                        truthyOpt (imsGameCode info) = false) ->
          authoritativeImsCodeMap gameProviderMap data !! k = None)).
Proof.
  unfold authoritativeImsCodeMap. rewrite fillFromFiles_flatten.
  split; [|split].
  - intros info c Hk Hc Ht. apply fillFromInstances_keep.
    rewrite providerCodes_lookup, Hk. cbn. unfold tableCode. rewrite Hc, Ht.
    reflexivity.
  - intros Hk Hnone. unfold firstExtractedCode.
    apply fillFromInstances_free; [exact Hk|].
    rewrite providerCodes_lookup.
    destruct (gameProviderMap !! k) as [info|] eqn:E; [|reflexivity].
    cbn. specialize (Hnone info eq_refl). unfold tableCode, truthyOpt in *.
    destruct (imsGameCode info) as [c|]; [|reflexivity]. rewrite Hnone.
    reflexivity.
  - intros Hk. rewrite (fillFromInstances_empty_key _ _ _ Hk).
    rewrite providerCodes_lookup. split; [reflexivity|].
    intros Hnone. destruct (gameProviderMap !! k) as [info|] eqn:E;
      [|reflexivity].
    cbn. specialize (Hnone info eq_refl). unfold tableCode, truthyOpt in *.
    destruct (imsGameCode info) as [c|]; [|reflexivity]. rewrite Hnone.
    reflexivity.
Qed.

Lemma code_precedence_witness :
  authoritativeImsCodeMap
    {[ str "k" := mkProviderInfo (str "Acme") None (Some (str "A")) ]}
    [completedFile (str "f") [instanceOf (Some (str "K")) (Some (str "B"))]]
  !! str "k" = Some (str "A")
  /\ authoritativeImsCodeMap ∅
       [completedFile (str "f") [instanceOf (Some (str "K")) (Some (str "B"))];
        completedFile (str "g") [instanceOf (Some (str "k")) (Some (str "C"))]]
     !! str "k"
     = firstExtractedCode (str "k")
         [completedFile (str "f") [instanceOf (Some (str "K")) (Some (str "B"))];
          completedFile (str "g") [instanceOf (Some (str "k")) (Some (str "C"))]]
  /\ authoritativeImsCodeMap
       {[ str "k" := mkProviderInfo (str "Acme") None (Some (str "A")) ]}
       [completedFile (str "f") [instanceOf None (Some (str "B"));
                                 instanceOf (Some []) (Some (str "C"))]]
     !! [] = None.
Proof.
  split; [|split].
  - apply (proj1 (code_precedence _ _ (str "k"))
             (mkProviderInfo (str "Acme") None (Some (str "A"))));
      vm_compute; reflexivity.
  - apply (proj1 (proj2 (code_precedence ∅ _ (str "k")))); [reflexivity|].
    intros info H. vm_compute in H. discriminate H.
  - apply (proj2 (proj2 (code_precedence
                           {[ str "k" := mkProviderInfo (str "Acme") None
                                           (Some (str "A")) ]}
                           [completedFile (str "f")
                              [instanceOf None (Some (str "B"));
                               instanceOf (Some []) (Some (str "C"))]]
                           [])) eq_refl).
    intros info H. vm_compute in H. discriminate H.
Defined.

(* ===================================================================== *)
(** * The provider-partitioned export *)
(* ===================================================================== *)

Section ExportFacts.

Variable gameProviderMap : GameProviderMap.
Variable originalFilesMap : gmap jsstring File.

Implicit Types (insts : list (GameInstanceData (option jsstring)))
  (seen : list jsstring) (zip : list ZipEntry).

Lemma noteFolder_extends seen insts :
  exists new, foldl (noteFolder gameProviderMap) seen insts = seen ++ new.
Proof.
  revert seen. induction insts as [|i insts IH]; intros seen.
  - exists []. cbn. rewrite app_nil_r. reflexivity.
  - cbn [foldl]. unfold noteFolder at 2.
    destruct (bool_decide (folderNameOf gameProviderMap i ∈ seen)); [apply IH|].
    destruct (IH (seen ++ [folderNameOf gameProviderMap i])) as (new & E).
    exists ([folderNameOf gameProviderMap i] ++ new). rewrite E, <- app_assoc.
    reflexivity.
Qed.

(** The loop over the instances writes one entry for each folder it
    notes. *)
Lemma addInstances_spec o zip seen insts new :
  foldl (noteFolder gameProviderMap) seen insts = seen ++ new ->
  foldl (addInstance gameProviderMap o) (zip, seen) insts
  = (zip ++ map (fun f => mkZipEntry f (fileName o) o) new, seen ++ new).
Proof.
  revert zip seen new. induction insts as [|i insts IH]; intros zip seen new.
  - cbn [foldl]. intros E.
    assert (new = []) as ->.
    { apply (app_inv_head seen). rewrite app_nil_r. symmetry. exact E. }
    cbn. rewrite !app_nil_r. reflexivity.
  - cbn [foldl]. unfold noteFolder at 2. unfold addInstance at 2. cbn [fst snd].
    destruct (bool_decide (folderNameOf gameProviderMap i ∈ seen)).
    + apply IH.
    + intros E.
      destruct (noteFolder_extends (seen ++ [folderNameOf gameProviderMap i]) insts)
        as (new' & E').
      rewrite (IH _ _ new' E').
      rewrite E' in E. rewrite <- app_assoc in E. apply app_inv_head in E.
      subst new. cbn [map app]. rewrite <- !app_assoc. reflexivity.
Qed.

Lemma exportFile_spec zip n (pf : ProcessedFileData (option jsstring)) :
  exportFile gameProviderMap originalFilesMap (zip, n) pf
  = (zip ++ placements gameProviderMap originalFilesMap pf,
     match originalFilesMap !! id pf with
     | Some _ => S n
     | None => n
     end).
Proof.
  unfold exportFile, placements, placedFolders.
  destruct (originalFilesMap !! id pf) as [o|]; [|rewrite app_nil_r; reflexivity].
  cbn [fst snd].
  destruct (noteFolder_extends [] (extractedInstances pf)) as (new & E).
  rewrite (addInstances_spec o zip [] _ new E). rewrite E. cbn [app].
  destruct new as [|f fs]; [|reflexivity].
  cbn [map length Nat.eqb Nat.ltb Nat.leb app]. rewrite app_nil_r. reflexivity.
Qed.

Lemma exportFiles_spec zip n (fs : list (ProcessedFileData (option jsstring))) :
  foldl (exportFile gameProviderMap originalFilesMap) (zip, n) fs
  = (zip ++ flat_map (placements gameProviderMap originalFilesMap) fs,
     (n + length (filter (fun pf => is_Some (originalFilesMap !! id pf)) fs))%nat).
Proof.
  revert zip n. induction fs as [|pf fs IH]; intros zip n.
  - cbn. rewrite app_nil_r. f_equal. lia.
  - cbn [foldl flat_map]. rewrite exportFile_spec, IH, filter_cons.
    rewrite <- app_assoc. f_equal.
    destruct (originalFilesMap !! id pf) as [o|].
    + destruct (decide (is_Some (Some o))) as [_|Hn]; [|exfalso; apply Hn; eauto].
      cbn [length]. lia.
    + destruct (decide (is_Some (@None File))) as [[? [=]]|_]. reflexivity.
Qed.

Lemma filter_exportable (fs : list (ProcessedFileData (option jsstring))) :
  filter (fun pf => is_Some (originalFilesMap !! id pf))
    (filter (fun pf => isCompleted pf = true) fs)
  = filter (fun pf => exportable originalFilesMap pf = true) fs.
Proof.
  rewrite list_filter_filter. apply list_filter_iff. intros pf.
  unfold exportable. rewrite andb_true_iff, bool_decide_eq_true. tauto.
Qed.

Lemma exportLoop_spec (fs : list (ProcessedFileData (option jsstring))) :
  exportLoop gameProviderMap originalFilesMap fs
  = (flat_map (placements gameProviderMap originalFilesMap)
       (filter (fun pf => isCompleted pf = true) fs),
     length (filter (fun pf => exportable originalFilesMap pf = true) fs)).
Proof.
  unfold exportLoop. rewrite exportFiles_spec, filter_exportable. reflexivity.
Qed.

Lemma noteFolder_NoDup seen insts :
  NoDup seen -> NoDup (foldl (noteFolder gameProviderMap) seen insts).
Proof.
  revert seen. induction insts as [|i insts IH]; intros seen H; [exact H|].
  cbn [foldl]. apply IH. unfold noteFolder.
  destruct (bool_decide (folderNameOf gameProviderMap i ∈ seen)) eqn:E; [exact H|].
  apply bool_decide_eq_false in E.
  apply NoDup_app. split; [exact H|]. split.
  - intros x Hx Hin. apply list_elem_of_singleton in Hin. subst x. contradiction.
  - apply NoDup_singleton.
Qed.

Lemma noteFolder_elem seen insts f :
  f ∈ foldl (noteFolder gameProviderMap) seen insts
  <-> f ∈ seen \/ exists i, i ∈ insts /\ folderNameOf gameProviderMap i = f.
Proof.
  revert seen. induction insts as [|i insts IH]; intros seen.
  - cbn [foldl]. split; [auto|]. intros [H|(i & Hi & _)]; [exact H | inversion Hi].
  - cbn [foldl]. rewrite IH. unfold noteFolder.
    destruct (bool_decide (folderNameOf gameProviderMap i ∈ seen)) eqn:E.
    + apply bool_decide_eq_true in E. split.
      * intros [H|(j & Hj & Ej)]; [auto|]. right. exists j. split; [|exact Ej].
        apply elem_of_cons. auto.
      * intros [H|(j & Hj & Ej)]; [auto|].
        apply elem_of_cons in Hj as [->|Hj]; [left; congruence|].
        right. exists j. auto.
    + split.
      * intros [H|(j & Hj & Ej)].
        -- apply elem_of_app in H as [H|H]; [auto|].
           apply list_elem_of_singleton in H. right. exists i.
           split; [apply elem_of_cons; auto | congruence].
        -- right. exists j. split; [apply elem_of_cons; auto | exact Ej].
      * intros [H|(j & Hj & Ej)].
        -- left. apply elem_of_app. auto.
        -- apply elem_of_cons in Hj as [->|Hj].
           ++ left. apply elem_of_app. right. apply list_elem_of_singleton.
              congruence.
           ++ right. exists j. auto.
Qed.

Lemma placedFolders_NoDup insts : NoDup (placedFolders gameProviderMap insts).
Proof.
  unfold placedFolders.
  pose proof (noteFolder_NoDup [] insts (NoDup_nil_2)) as H.
  destruct (foldl (noteFolder gameProviderMap) [] insts); [apply NoDup_singleton | exact H].
Qed.

Lemma placedFolders_elem insts f :
  f ∈ placedFolders gameProviderMap insts
  <-> (exists i, i ∈ insts /\ folderNameOf gameProviderMap i = f)
      \/ (insts = [] /\ f = uncategorized).
Proof.
  unfold placedFolders.
  pose proof (noteFolder_elem [] insts) as H.
  destruct (foldl (noteFolder gameProviderMap) [] insts) as [|g gs] eqn:E.
  - assert (insts = []) as ->.
    { destruct insts as [|i insts]; [reflexivity|]. exfalso.
      assert (Hin : folderNameOf gameProviderMap i ∈ []).
      { apply H. right. exists i. split; [apply elem_of_cons; auto | reflexivity]. }
      inversion Hin. }
    rewrite list_elem_of_singleton. split.
    + intros ->. right. auto.
    + intros [(i & Hi & _)|[_ ->]]; [inversion Hi | reflexivity].
  - rewrite H. split.
    + intros [Hn|Hex]; [inversion Hn | left; exact Hex].
    + intros [Hex|[-> _]]; [right; exact Hex | discriminate E].
Qed.

Lemma placedFolders_nonempty insts : placedFolders gameProviderMap insts <> [].
Proof.
  unfold placedFolders.
  destruct (foldl (noteFolder gameProviderMap) [] insts); discriminate.
Qed.

Lemma placedFolders_uncategorized insts :
  (forall i, i ∈ insts -> folderNameOf gameProviderMap i = uncategorized) ->
  placedFolders gameProviderMap insts = [uncategorized].
Proof.
  intros Hall.
  assert (Hel : forall f, f ∈ placedFolders gameProviderMap insts -> f = uncategorized).
  { intros f Hf. apply placedFolders_elem in Hf as [(i & Hi & <-)|[_ ->]]; auto. }
  pose proof (placedFolders_NoDup insts) as Hnd.
  pose proof (placedFolders_nonempty insts) as Hne.
  destruct (placedFolders gameProviderMap insts) as [|a [|b l]]; [congruence| |].
  - rewrite (Hel a); [reflexivity | apply elem_of_cons; auto].
  - exfalso. apply NoDup_cons in Hnd as [Ha _]. apply Ha.
    rewrite (Hel a), (Hel b).
    + apply elem_of_cons. auto.
    + apply elem_of_cons. right. apply elem_of_cons. auto.
    + apply elem_of_cons. auto.
Qed.

End ExportFacts.

(* ===================================================================== *)
(** * Properties of the provider-partitioned export *)
(* ===================================================================== *)

Example export_grouping_sample :
  handleExportZip false false
    [completedFile (str "a.pdf-1") [instanceOf (Some (str "Alpha")) None];
     completedFile (str "b.pdf-2") [instanceOf (Some (str "ALPHA (copy)")) None];
     completedFile (str "c.pdf-3") [instanceOf (Some (str "Unknown")) None];
     completedFile (str "d.pdf-4") [instanceOf None (Some (str "wild_mcg"))]]
    (<[str "a.pdf-1" := pdfFile (str "a.pdf")]>
       (<[str "b.pdf-2" := pdfFile (str "b.pdf")]>
          (<[str "c.pdf-3" := pdfFile (str "c.pdf")]>
             (<[str "d.pdf-4" := pdfFile (str "d.pdf")]> ∅))))
    twoProviders true
  = Exported
      [mkZipEntry (str "Acme") (str "a.pdf") (pdfFile (str "a.pdf"));
       mkZipEntry (str "Acme") (str "b.pdf") (pdfFile (str "b.pdf"));
       mkZipEntry uncategorized (str "c.pdf") (pdfFile (str "c.pdf"));
       mkZipEntry (str "Games Global") (str "d.pdf") (pdfFile (str "d.pdf"))]
      4.
Proof. vm_compute. reflexivity. Qed.

(** C3, as stated: a completed file is placed under exactly one folder,
    the first resolved group.  This fails: a file whose instances resolve
    to two groups is placed under both. *)
Lemma export_two_folders_counterexample :
  handleExportZip false false
    [completedFile (str "cert.pdf-1")
       [instanceOf (Some (str "Alpha")) None;
        instanceOf (Some (str "Beta")) None]]
    {[ str "cert.pdf-1" := certificate ]} twoProviders true
  = Exported
      [mkZipEntry (str "Acme") (str "cert.pdf") certificate;
       mkZipEntry (str "Beta Corp") (str "cert.pdf") certificate]
      1.
Proof. vm_compute. reflexivity. Qed.

(** C3, amended: the export places a completed file at most once into each
    folder.  The calls on the archive are, file after file, one call for
    each folder that an instance of the file resolves to ([Uncategorized]
    for an instance without resolvable provider), in the order of the
    first such instance, so a file whose instances resolve to different
    groups is placed into each of them; a file without instances, or none
    of whose instances resolves to a group, is placed into [Uncategorized]
    exactly once. *)
Theorem export_once_per_folder (gameProviderMap : GameProviderMap)
    (originalFilesMap : gmap jsstring File)
    (processedFiles : list (ProcessedFileData (option jsstring))) :
  (exportLoop gameProviderMap originalFilesMap processedFiles).1
  = flat_map (placements gameProviderMap originalFilesMap)
      (filter (fun pf => isCompleted pf = true) processedFiles)
  /\ (forall insts, NoDup (placedFolders gameProviderMap insts))
  /\ (forall insts f,
        f ∈ placedFolders gameProviderMap insts
        <-> (exists i, i ∈ insts /\ folderNameOf gameProviderMap i = f)
            \/ (insts = [] /\ f = uncategorized))
  /\ (forall insts,
        (forall i, i ∈ insts -> folderNameOf gameProviderMap i = uncategorized) ->
        placedFolders gameProviderMap insts = [uncategorized]).
Proof.
  split; [rewrite exportLoop_spec; reflexivity|].
  split; [apply placedFolders_NoDup|].
  split; [apply placedFolders_elem | apply placedFolders_uncategorized].
Qed.

Lemma export_once_per_folder_witness :
  placedFolders twoProviders
    [instanceOf None None; instanceOf (Some (str "Unknown")) (Some (str "x"))]
  = [uncategorized].
Proof.
  apply (proj2 (proj2 (proj2 (export_once_per_folder twoProviders ∅ [])))).
  intros i Hi.
  apply elem_of_cons in Hi as [->|Hi]; [vm_compute; reflexivity|].
  apply elem_of_cons in Hi as [->|Hi]; [vm_compute; reflexivity|].
  inversion Hi.
Defined.

(** C9: a completed file whose bytes are missing from the file store is
    skipped: it adds no call on the archive and is not counted.  Every
    completed file whose bytes are there is placed into at least one
    folder, so the count of exported files, which the success message
    reports, is the number of completed files with bytes. *)
Theorem export_count (gameProviderMap : GameProviderMap)
    (originalFilesMap : gmap jsstring File)
    (processedFiles : list (ProcessedFileData (option jsstring))) :
  exportLoop gameProviderMap originalFilesMap processedFiles
  = (flat_map (placements gameProviderMap originalFilesMap)
       (filter (fun pf => isCompleted pf = true) processedFiles),
     length (filter (fun pf => exportable originalFilesMap pf = true)
               processedFiles))
  /\ (forall pf, originalFilesMap !! id pf = None ->
                 placements gameProviderMap originalFilesMap pf = [])
  /\ (forall pf, is_Some (originalFilesMap !! id pf) ->
                 placements gameProviderMap originalFilesMap pf <> [])
  /\ (forall isZipping isBatchProcessing generates zip n,
        handleExportZip isZipping isBatchProcessing processedFiles
          originalFilesMap gameProviderMap generates = Exported zip n ->
        n = length (filter (fun pf => exportable originalFilesMap pf = true)
                      processedFiles)
        /\ zip = flat_map (placements gameProviderMap originalFilesMap)
                   (filter (fun pf => isCompleted pf = true) processedFiles)).
Proof.
  split; [apply exportLoop_spec|]. split; [|split].
  - intros pf H. unfold placements. rewrite H. reflexivity.
  - intros pf [o H]. unfold placements. rewrite H.
    pose proof (placedFolders_nonempty gameProviderMap (extractedInstances pf)) as Hne.
    destruct (placedFolders gameProviderMap (extractedInstances pf)); [congruence|].
    discriminate.
  - intros isZipping isBatchProcessing generates zip n.
    unfold handleExportZip. rewrite exportLoop_spec.
    destruct (isZipping || isBatchProcessing
              || (length (filter (fun f => isCompleted f = true) processedFiles) =? 0)%nat
              || (size gameProviderMap =? 0)%nat); [discriminate|].
    destruct (length (filter (fun pf => exportable originalFilesMap pf = true)
                        processedFiles) =? 0)%nat; [discriminate|].
    destruct generates; [|discriminate].
    intros [= <- <-]. split; reflexivity.
Qed.

Lemma export_count_witness :
  1%nat
  = length (filter (fun pf => exportable {[ str "cert.pdf-1" := certificate ]} pf = true)
              [completedFile (str "cert.pdf-1")
                 [instanceOf (Some (str "Alpha")) None;
                  instanceOf (Some (str "Beta")) None];
               completedFile (str "lost.pdf-2")
                 [instanceOf (Some (str "Alpha")) None]]).
Proof.
  refine (proj1 (proj2 (proj2 (proj2
            (export_count twoProviders {[ str "cert.pdf-1" := certificate ]}
               [completedFile (str "cert.pdf-1")
                  [instanceOf (Some (str "Alpha")) None;
                   instanceOf (Some (str "Beta")) None];
                completedFile (str "lost.pdf-2")
                  [instanceOf (Some (str "Alpha")) None]])))
            false false true
            [mkZipEntry (str "Acme") (str "cert.pdf") certificate;
             mkZipEntry (str "Beta Corp") (str "cert.pdf") certificate]
            1%nat _)).
  vm_compute. reflexivity.
Defined.

(* ===================================================================== *)
(** * Further properties of the extraction client *)
(* ===================================================================== *)

Section ClientTrace.

Variable ext : Externals.

Lemma requestCount_app l1 l2 :
  requestCount (l1 ++ l2) = (requestCount l1 + requestCount l2)%nat.
Proof. unfold requestCount. rewrite filter_app, length_app. reflexivity. Qed.

Lemma requestCount_generate req l :
  requestCount (EvGenerate req :: l) = S (requestCount l).
Proof. reflexivity. Qed.

Lemma requestCount_sleep ms l : requestCount (EvSleep ms :: l) = requestCount l.
Proof. reflexivity. Qed.

Lemma delays_app l1 l2 : delays (l1 ++ l2) = delays l1 ++ delays l2.
Proof. unfold delays. apply omap_app. Qed.

(** What any run of the retry loop adds to the world. *)
Lemma retryLoop_trace label req r last w :
  exists evs,
    log (retryLoop ext label req r last w).2 = log w ++ evs
    /\ calls (retryLoop ext label req r last w).2
       = (calls w + requestCount evs)%nat
    /\ (requestCount evs <= r)%nat
    /\ delays evs `sublist_of` delaySchedule r
    /\ attempted evs = [].
Proof.
  revert last w. induction r as [|r IH]; intros last w.
  - exists []. cbn [retryLoop snd]. rewrite app_nil_r.
    split; [reflexivity|]. split; [cbn [app]; rewrite ?requestCount_generate, ?requestCount_sleep; cbn; lia|].
        split; [cbn [app]; rewrite ?requestCount_generate, ?requestCount_sleep; cbn; lia|].
    split; [constructor | reflexivity].
  - cbn [retryLoop delaySchedule]. unfold request.
    assert (Hone : exists evs,
               log w ++ [EvGenerate req] = log w ++ evs
               /\ S (calls w) = (calls w + requestCount evs)%nat
               /\ (requestCount evs <= S r)%nat
               /\ delays evs `sublist_of`
                    (if (MAX_RETRIES - r <? MAX_RETRIES)%nat
                     then [RETRY_DELAY_MS * Z.of_nat (MAX_RETRIES - r)] else [])
                    ++ delaySchedule r
               /\ attempted evs = []).
    { exists [EvGenerate req].
      split; [reflexivity|]. split; [cbn [app]; rewrite ?requestCount_generate, ?requestCount_sleep; cbn; lia|].
        split; [cbn [app]; rewrite ?requestCount_generate, ?requestCount_sleep; cbn; lia|].
      split; [apply sublist_nil_l | reflexivity]. }
    destruct (tryExtract ext label (generateContent ext (calls w))) as [d|e];
      [exact Hone|].
    destruct (includes (message e) (str "API key not valid")); [exact Hone|].
    destruct (includes (message e) (str "500")); cbn [andb].
    + destruct (MAX_RETRIES - r <? MAX_RETRIES)%nat.
      * destruct (IH (Some e)
                    (emit (EvSleep (RETRY_DELAY_MS * Z.of_nat (MAX_RETRIES - r)))
                       (mkWorld (S (calls w)) (log w ++ [EvGenerate req]))))
          as (evs & Hl & Hc & Hn & Hd & Ha).
        exists ([EvGenerate req; EvSleep (RETRY_DELAY_MS * Z.of_nat (MAX_RETRIES - r))]
                ++ evs).
        rewrite Hl, Hc. cbn [emit log calls]. rewrite <- !app_assoc.
        rewrite requestCount_app, delays_app, attempted_app, Ha.
        split; [reflexivity|]. split; [cbn [app]; rewrite ?requestCount_generate, ?requestCount_sleep; cbn; lia|].
        split; [cbn [app]; rewrite ?requestCount_generate, ?requestCount_sleep; cbn; lia|].
        split; [|reflexivity].
        cbn [delays omap list_omap app]. apply sublist_skip. exact Hd.
      * destruct (IH (Some e) (mkWorld (S (calls w)) (log w ++ [EvGenerate req])))
          as (evs & Hl & Hc & Hn & Hd & Ha).
        exists ([EvGenerate req] ++ evs).
        rewrite Hl, Hc. cbn [log calls]. rewrite <- !app_assoc.
        rewrite requestCount_app, delays_app, attempted_app, Ha.
        split; [reflexivity|]. split; [cbn [app]; rewrite ?requestCount_generate, ?requestCount_sleep; cbn; lia|].
        split; [cbn [app]; rewrite ?requestCount_generate, ?requestCount_sleep; cbn; lia|].
        split; [exact Hd | reflexivity].
    + destruct (IH (Some e) (mkWorld (S (calls w)) (log w ++ [EvGenerate req])))
        as (evs & Hl & Hc & Hn & Hd & Ha).
      exists ([EvGenerate req] ++ evs).
      rewrite Hl, Hc. cbn [log calls]. rewrite <- !app_assoc.
      rewrite requestCount_app, delays_app, attempted_app, Ha.
      split; [reflexivity|]. split; [cbn [app]; rewrite ?requestCount_generate, ?requestCount_sleep; cbn; lia|].
        split; [cbn [app]; rewrite ?requestCount_generate, ?requestCount_sleep; cbn; lia|].
      split; [|reflexivity].
      cbn [delays omap list_omap app]. apply sublist_inserts_l. exact Hd.
Qed.

Lemma tryExtract_Ok label outcome d :
  tryExtract ext label outcome = Ok d ->
  exists text v,
    outcome = Responded text
    /\ JSON_parse ext (stripFence (trim text)) = Ok v
    /\ validateAndStructureData v text = Ok d.
Proof.
  destruct outcome as [text|e]; cbn [tryExtract]; [|discriminate].
  destruct (JSON_parse ext (stripFence (trim text))) as [v|e] eqn:Ep;
    [|discriminate].
  cbn. destruct (validateAndStructureData v text) as [d'|e] eqn:Ev;
    [|discriminate].
  intros [= <-]. exists text, v. auto.
Qed.

(** A successful run ends with a request whose response parsed and passed
    the validator. *)
Lemma retryLoop_Ok label req r last w d w' :
  retryLoop ext label req r last w = (Ok d, w') ->
  exists text v,
    (calls w < calls w')%nat
    /\ generateContent ext (calls w' - 1) = Responded text
    /\ JSON_parse ext (stripFence (trim text)) = Ok v
    /\ validateAndStructureData v text = Ok d.
Proof.
  revert last w. induction r as [|r IH]; intros last w.
  - cbn [retryLoop]. intros [=].
  - cbn [retryLoop]. unfold request.
    destruct (tryExtract ext label (generateContent ext (calls w))) as [d0|e] eqn:Et.
    + intros [= <- <-]. apply tryExtract_Ok in Et as (text & v & Eo & Ep & Ev).
      exists text, v. cbn [calls]. replace (S (calls w) - 1)%nat with (calls w) by lia.
      repeat split; [lia | assumption..].
    + destruct (includes (message e) (str "API key not valid")); [intros [=]|].
      destruct (includes (message e) (str "500") && (MAX_RETRIES - r <? MAX_RETRIES)%nat);
        intros H; apply IH in H as (text & v & Hlt & Hg & Hp & Hv);
        cbn [emit calls] in Hlt; exists text, v; repeat split; try assumption; lia.
Qed.

Lemma retryLoop_invalid_key label req r last w e :
  generateContent ext (calls w) = Threw e ->
  includes (message e) (str "API key not valid") = true ->
  retryLoop ext label req (S r) last w
  = (Err invalidKeyError,
     mkWorld (S (calls w)) (log w ++ [EvGenerate req])).
Proof.
  intros He Hk. cbn [retryLoop]. unfold request. rewrite He.
  cbn [tryExtract]. rewrite Hk. reflexivity.
Qed.

Lemma retryLoop_success label req r last w text v d :
  generateContent ext (calls w) = Responded text ->
  JSON_parse ext (stripFence (trim text)) = Ok v ->
  validateAndStructureData v text = Ok d ->
  retryLoop ext label req (S r) last w
  = (Ok d, mkWorld (S (calls w)) (log w ++ [EvGenerate req])).
Proof.
  intros He Hp Hv. cbn [retryLoop]. unfold request. rewrite He.
  cbn [tryExtract]. rewrite Hp. cbn. rewrite Hv. reflexivity.
Qed.

End ClientTrace.

(** X1: whatever the model does, one call of an entry point makes at most
    three model requests, and its delays are taken, in order, from one
    second and two seconds; the request counter grows by the number of
    requests logged. *)
Theorem request_budget (ext : Externals) (apiKey : jsstring) (w : World) :
  (forall ocrText,
     exists evs,
       log (extractInfoFromText ext ocrText apiKey w).2 = log w ++ evs
       /\ calls (extractInfoFromText ext ocrText apiKey w).2
          = (calls w + requestCount evs)%nat
       /\ (requestCount evs <= 3)%nat
       /\ delays evs `sublist_of` [1000; 2000])
  /\ (forall imageBase64 mimeType,
        exists evs,
          log (extractInfoFromImage ext imageBase64 mimeType apiKey w).2
          = log w ++ evs
          /\ calls (extractInfoFromImage ext imageBase64 mimeType apiKey w).2
             = (calls w + requestCount evs)%nat
          /\ (requestCount evs <= 3)%nat
          /\ delays evs `sublist_of` [1000; 2000]).
Proof.
  assert (Hnil : exists evs : list Event,
             log w = log w ++ evs /\ calls w = (calls w + requestCount evs)%nat
             /\ (requestCount evs <= 3)%nat /\ delays evs `sublist_of` [1000; 2000]).
  { exists []. rewrite app_nil_r. split; [reflexivity|]. split; [cbn; lia|].
    split; [cbn; lia | apply sublist_nil_l]. }
  split; intros; unfold extractInfoFromText, extractInfoFromImage;
    (destruct (negb (truthy apiKey)); [exact Hnil|]);
    match goal with
    | |- context [retryLoop ?e ?l ?q ?r ?la ?ww] =>
        destruct (retryLoop_trace e l q r la ww) as (evs & Hl & Hc & Hn & Hd & _)
    end;
    exists evs; repeat split; assumption.
Qed.

Lemma startsWith_app pat s b :
  startsWith pat s = true -> startsWith pat (s ++ b) = true.
Proof.
  revert s. induction pat as [|p pat IH]; intros s; [reflexivity|].
  destruct s as [|c s]; cbn [startsWith app]; [discriminate|].
  intros H. apply andb_true_iff in H as [-> H]. cbn [andb]. apply IH. exact H.
Qed.

Lemma includes_app_l s b pat :
  includes s pat = true -> includes (s ++ b) pat = true.
Proof.
  induction s as [|c s IH]; cbn [includes app].
  - rewrite orb_false_r. intros H. destruct pat; [|discriminate H].
    destruct b; reflexivity.
  - intros H. apply orb_true_iff in H as [H|H]; apply orb_true_iff.
    + left. apply (startsWith_app pat (c :: s) b). exact H.
    + right. apply IH. exact H.
Qed.

Lemma includes_app_r a s pat :
  includes s pat = true -> includes (a ++ s) pat = true.
Proof.
  intros H. induction a as [|c a IH]; [exact H|].
  cbn [includes app]. rewrite IH. apply orb_true_r.
Qed.

(** X2: an error that says that the key is not valid ends the call at once
    with the invalid-key error, at the first attempt and also after a
    transient failure; no further request is made. *)
Theorem invalid_key_is_fatal (ext : Externals) (apiKey : jsstring) (w : World)
    (e : JsError) :
  truthy apiKey = true ->
  includes (message e) (str "API key not valid") = true ->
  (generateContent ext (calls w) = Threw e ->
   (forall ocrText,
      extractInfoFromText ext ocrText apiKey w
      = (Err invalidKeyError,
         mkWorld (1 + calls w) (log w ++ [EvGenerate (TextRequest ocrText apiKey)])))
   /\ (forall imageBase64 mimeType,
         extractInfoFromImage ext imageBase64 mimeType apiKey w
         = (Err invalidKeyError,
            mkWorld (1 + calls w)
              (log w ++ [EvGenerate (ImageRequest imageBase64 mimeType apiKey)]))))
  /\ (forall e1,
        generateContent ext (calls w) = Threw e1 -> transient e1 ->
        generateContent ext (S (calls w)) = Threw e ->
        forall ocrText,
          extractInfoFromText ext ocrText apiKey w
          = (Err invalidKeyError,
             mkWorld (2 + calls w)
               (log w ++ [EvGenerate (TextRequest ocrText apiKey); EvSleep 1000;
                          EvGenerate (TextRequest ocrText apiKey)]))).
Proof.
  intros Hk Hi. split.
  - intros He. split; intros;
      unfold extractInfoFromText, extractInfoFromImage; rewrite Hk; cbn [negb];
      unfold MAX_RETRIES; apply (retryLoop_invalid_key ext _ _ _ _ w e He Hi).
  - intros e1 H1 T1 He ocrText. unfold extractInfoFromText. rewrite Hk. cbn [negb].
    unfold MAX_RETRIES. rewrite (retryLoop_transient ext _ _ _ _ _ e1 H1 T1).
    cbn [Nat.ltb Nat.leb Nat.sub MAX_RETRIES].
    erewrite retryLoop_invalid_key; [| cbn [calls]; exact He | exact Hi].
    cbn [calls log]. rewrite <- !app_assoc. reflexivity.
Qed.

Lemma invalid_key_is_fatal_witness :
  extractInfoFromText
    (sampleExternals rejectingParser
       (scripted [Threw serverError;
                  Threw (MkError (str "API key not valid. Please pass a valid API key."))]))
    (str "report text") (str "key") (mkWorld 0 [])
  = (Err invalidKeyError,
     mkWorld 2
       [EvGenerate (TextRequest (str "report text") (str "key")); EvSleep 1000;
        EvGenerate (TextRequest (str "report text") (str "key"))]).
Proof.
  refine (proj2 (invalid_key_is_fatal
                   (sampleExternals rejectingParser
                      (scripted [Threw serverError;
                                 Threw (MkError (str "API key not valid. Please pass a valid API key."))]))
                   (str "key") (mkWorld 0 [])
                   (MkError (str "API key not valid. Please pass a valid API key."))
                   eq_refl _)
            serverError eq_refl _ eq_refl (str "report text")).
  - vm_compute. reflexivity.
  - split; vm_compute; reflexivity.
Defined.

(** X3: the entry points never return data that did not pass the
    validator: a successful call ends with a request, one of at most three,
    whose response text parsed, after the fence was stripped, to a value
    without schema violation, and the data returned is that value
    structured. *)
Theorem extraction_returns_validated_data (ext : Externals)
    (apiKey : jsstring) (w w' : World) (d : ExtractedGeminiInfo json) :
  (forall ocrText,
     extractInfoFromText ext ocrText apiKey w = (Ok d, w') ->
     exists text v,
       (calls w < calls w' <= calls w + 3)%nat
       /\ generateContent ext (calls w' - 1) = Responded text
       /\ JSON_parse ext (stripFence (trim text)) = Ok v
       /\ schemaViolation v = false /\ dataStructured v d)
  /\ (forall imageBase64 mimeType,
        extractInfoFromImage ext imageBase64 mimeType apiKey w = (Ok d, w') ->
        exists text v,
          (calls w < calls w' <= calls w + 3)%nat
          /\ generateContent ext (calls w' - 1) = Responded text
          /\ JSON_parse ext (stripFence (trim text)) = Ok v
          /\ schemaViolation v = false /\ dataStructured v d).
Proof.
  assert (Hgen : forall label req,
             retryLoop ext label req MAX_RETRIES None w = (Ok d, w') ->
             exists text v,
               (calls w < calls w' <= calls w + 3)%nat
               /\ generateContent ext (calls w' - 1) = Responded text
               /\ JSON_parse ext (stripFence (trim text)) = Ok v
               /\ schemaViolation v = false /\ dataStructured v d).
  { intros label req H.
    destruct (retryLoop_trace ext label req MAX_RETRIES None w)
      as (evs & _ & Hc & Hn & _).
    rewrite H in Hc. cbn [snd] in Hc. unfold MAX_RETRIES in Hn.
    apply retryLoop_Ok in H as (text & v & Hlt & Hg & Hp & Hv).
    exists text, v. split; [lia|]. split; [exact Hg|]. split; [exact Hp|].
    destruct (validate_cases v text) as [(_ & e & He)|(Hs & d' & Hd & Hst)];
      [congruence|].
    rewrite Hv in Hd. injection Hd as <-. auto. }
  split; intros; unfold extractInfoFromText, extractInfoFromImage in *;
    destruct (negb (truthy apiKey)); try discriminate; eapply Hgen; eassumption.
Qed.

Lemma extraction_returns_validated_data_witness :
  exists text v,
    (0 < 1 <= 0 + 3)%nat
    /\ generateContent
         (sampleExternals (constantParser sampleReport)
            (fun _ => Responded (str "{}"))) (1 - 1) = Responded text
    /\ JSON_parse
         (sampleExternals (constantParser sampleReport)
            (fun _ => Responded (str "{}"))) (stripFence (trim text)) = Ok v
    /\ schemaViolation v = false
    /\ dataStructured v
         (mkExtractedGeminiInfo (JString (str "R-1")) JNull JNull
            [mkGameInstanceData (JString (str "Mega Fortune")) JNull []]).
Proof.
  apply (proj1 (extraction_returns_validated_data
                  (sampleExternals (constantParser sampleReport)
                     (fun _ => Responded (str "{}")))
                  (str "key") (mkWorld 0 [])
                  (mkWorld 1 [EvGenerate (TextRequest (str "report text") (str "key"))])
                  _) (str "report text")).
  vm_compute. reflexivity.
Defined.

(** X4: a transient failure is recovered from: when the first request
    fails with a server error and the second response parses and
    validates, the call returns the structured data after two requests and
    one delay of one second. *)
Theorem retry_recovers (ext : Externals) (apiKey : jsstring) (w : World)
    (e1 : JsError) (text : jsstring) (v : json) (d : ExtractedGeminiInfo json) :
  truthy apiKey = true ->
  generateContent ext (calls w) = Threw e1 -> transient e1 ->
  generateContent ext (S (calls w)) = Responded text ->
  JSON_parse ext (stripFence (trim text)) = Ok v ->
  validateAndStructureData v text = Ok d ->
  (forall ocrText,
     extractInfoFromText ext ocrText apiKey w
     = (Ok d,
        mkWorld (2 + calls w)
          (log w ++ [EvGenerate (TextRequest ocrText apiKey); EvSleep 1000;
                     EvGenerate (TextRequest ocrText apiKey)])))
  /\ (forall imageBase64 mimeType,
        extractInfoFromImage ext imageBase64 mimeType apiKey w
        = (Ok d,
           mkWorld (2 + calls w)
             (log w ++ [EvGenerate (ImageRequest imageBase64 mimeType apiKey);
                        EvSleep 1000;
                        EvGenerate (ImageRequest imageBase64 mimeType apiKey)]))).
Proof.
  intros Hk H1 T1 H2 Hp Hv. split; intros;
    unfold extractInfoFromText, extractInfoFromImage; rewrite Hk; cbn [negb];
    unfold MAX_RETRIES; rewrite (retryLoop_transient ext _ _ _ _ _ e1 H1 T1);
    cbn [Nat.ltb Nat.leb Nat.sub MAX_RETRIES];
    (erewrite retryLoop_success; [| cbn [calls]; exact H2 | exact Hp | exact Hv]);
    cbn [calls log]; rewrite <- !app_assoc; reflexivity.
Qed.

Lemma retry_recovers_witness :
  extractInfoFromText
    (sampleExternals (constantParser sampleReport)
       (scripted [Threw serverError; Responded (str "{}")]))
    (str "report text") (str "key") (mkWorld 0 [])
  = (Ok (mkExtractedGeminiInfo (JString (str "R-1")) JNull JNull
           [mkGameInstanceData (JString (str "Mega Fortune")) JNull []]),
     mkWorld 2
       [EvGenerate (TextRequest (str "report text") (str "key")); EvSleep 1000;
        EvGenerate (TextRequest (str "report text") (str "key"))]).
Proof.
  refine (proj1 (retry_recovers
                   (sampleExternals (constantParser sampleReport)
                      (scripted [Threw serverError; Responded (str "{}")]))
                   (str "key") (mkWorld 0 []) serverError (str "{}") sampleReport _
                   eq_refl eq_refl _ eq_refl eq_refl _) (str "report text")).
  - split; vm_compute; reflexivity.
  - vm_compute. reflexivity.
Defined.

(** X5: the client classifies by message text, and the message of a parse
    failure quotes the response: a response that does not parse and whose
    first thousand code units hold the words of an invalid key ends the
    call with the invalid-key error after one request. *)
Theorem unparsable_response_quoting_key_phrase (ext : Externals)
    (ocrText apiKey text : jsstring) (w : World) (e : JsError) :
  truthy apiKey = true ->
  generateContent ext (calls w) = Responded text ->
  JSON_parse ext (stripFence (trim text)) = Err e ->
  includes (substring0 1000 text) (str "API key not valid") = true ->
  extractInfoFromText ext ocrText apiKey w
  = (Err invalidKeyError,
     mkWorld (1 + calls w) (log w ++ [EvGenerate (TextRequest ocrText apiKey)])).
Proof.
  intros Hk Hg Hp Hi. unfold extractInfoFromText. rewrite Hk. cbn [negb].
  unfold MAX_RETRIES. cbn [retryLoop]. unfold request. rewrite Hg.
  cbn [tryExtract]. rewrite Hp. unfold mbind, Result_bind, bindR.
  assert (E : includes
                (str "Failed to parse/validate JSON from AI (" ++ str "text"
                 ++ str "). Raw: " ++ substring0 1000 text
                 ++ str ". Err: " ++ message e)
                (str "API key not valid") = true).
  { rewrite !app_assoc. apply includes_app_l, includes_app_l, includes_app_r.
    exact Hi. }
  change (message (MkError ?m)) with m. rewrite E. reflexivity.
Qed.

Lemma unparsable_response_quoting_key_phrase_witness :
  extractInfoFromText
    (sampleExternals rejectingParser
       (fun _ => Responded (str "Sorry: API key not valid for this model")))
    (str "report text") (str "key") (mkWorld 0 [])
  = (Err invalidKeyError,
     mkWorld 1 [EvGenerate (TextRequest (str "report text") (str "key"))]).
Proof.
  apply (unparsable_response_quoting_key_phrase
           (sampleExternals rejectingParser
              (fun _ => Responded (str "Sorry: API key not valid for this model")))
           (str "report text") (str "key")
           (str "Sorry: API key not valid for this model") (mkWorld 0 [])
           (MkError (str "Unexpected token o in JSON at position 1")));
    vm_compute; reflexivity.
Defined.

Section FenceFacts.

Lemma wordChar_not_whiteSpace c : isWordChar c = true -> isWhiteSpace c = false.
Proof.
  intros H.
  assert (Hr : 48 <= c <= 122).
  { revert H. unfold isWordChar.
    destruct (Z.leb_spec 48 c), (Z.leb_spec c 57), (Z.leb_spec 65 c),
      (Z.leb_spec c 90), (Z.leb_spec 97 c), (Z.leb_spec c 122),
      (Z.eqb_spec c 95); cbn [andb orb]; intros; try discriminate; lia. }
  unfold isWhiteSpace.
  repeat match goal with
         | |- context [c =? ?k] => rewrite (proj2 (Z.eqb_neq c k)) by lia
         end.
  rewrite (proj2 (Z.leb_gt 8192 c)) by lia. reflexivity.
Qed.

Lemma trim_fixed_parts (s : jsstring) :
  trim s = s -> dropWhile isWhiteSpace s = s /\ trimEnd s = s.
Proof.
  intros H.
  assert (Hd : dropWhile isWhiteSpace s = s).
  { destruct (dropWhile_split isWhiteSpace s) as (a & Ha & _).
    destruct (trimEnd_split (dropWhile isWhiteSpace s)) as (b & Hb & _).
    assert (Hl : length a = 0%nat).
    { apply (f_equal length) in Ha. apply (f_equal length) in Hb.
      rewrite length_app in Ha, Hb. unfold trim, trimStart in H.
      rewrite H in Hb. lia. }
    destruct a; [|discriminate Hl]. symmetry. exact Ha. }
  split; [exact Hd|]. unfold trim, trimStart in H. rewrite Hd in H. exact H.
Qed.

Lemma trimEnd_app_whiteSpace (s ws : jsstring) :
  Forall (fun c => isWhiteSpace c = true) ws -> trimEnd (s ++ ws) = trimEnd s.
Proof.
  intros H. unfold trimEnd. rewrite rev_app_distr.
  rewrite dropWhile_all; [reflexivity|]. apply Forall_rev. exact H.
Qed.

Lemma startsWith_self (p s : jsstring) : startsWith p (p ++ s) = true.
Proof.
  induction p as [|c p IH]; [reflexivity|].
  cbn [startsWith app]. rewrite Z.eqb_refl. exact IH.
Qed.

Lemma endsWith_self (a p : jsstring) : endsWith (a ++ p) p = true.
Proof. unfold endsWith. rewrite rev_app_distr. apply startsWith_self. Qed.

End FenceFacts.

Example bare_literal_in_fence_is_kept :
  stripFence (str "```true```") = str "```true```".
Proof. vm_compute. reflexivity. Qed.

(** X6: the fence is stripped from a fenced response: for a response that
    consists of an opening fence, a language tag of word characters, white
    space, a trimmed non-empty body, white space and a closing fence, the
    text handed to the parser is the body, provided that white space
    separates the tag from the body or the body does not start with a word
    character (the tag pattern is greedy); a text that does not open with
    a fence is handed over as it is. *)
Theorem fence_is_stripped (tag ws1 body ws2 : jsstring) :
  (Forall (fun c => isWordChar c = true) tag ->
   Forall (fun c => isWhiteSpace c = true) ws1 ->
   Forall (fun c => isWhiteSpace c = true) ws2 ->
   body <> [] -> trim body = body ->
   (ws1 <> [] \/ forall c, head body = Some c -> isWordChar c = false) ->
   stripFence (fence ++ tag ++ ws1 ++ body ++ ws2 ++ fence) = body)
  /\ (forall s, startsWith fence s = false -> stripFence s = s).
Proof.
  split.
  - intros Htag Hws1 Hws2 Hne Htrim Hsep.
    destruct (trim_fixed_parts body Htrim) as [Hd He].
    unfold stripFence.
    rewrite startsWith_self.
    replace (fence ++ tag ++ ws1 ++ body ++ ws2 ++ fence)
      with ((fence ++ tag ++ ws1 ++ body ++ ws2) ++ fence)
      by (rewrite <- !app_assoc; reflexivity).
    rewrite endsWith_self. cbn [andb].
    assert (Hlen : (6 <=? length ((fence ++ tag ++ ws1 ++ body ++ ws2) ++ fence))%nat = true).
    { apply Nat.leb_le. rewrite !length_app. cbn. lia. }
    rewrite Hlen.
    assert (Hinner : take (length ((fence ++ tag ++ ws1 ++ body ++ ws2) ++ fence) - 6)
                       (drop 3 ((fence ++ tag ++ ws1 ++ body ++ ws2) ++ fence))
                     = tag ++ ws1 ++ body ++ ws2).
    { rewrite <- !app_assoc.
      change (drop 3 (fence ++ tag ++ ws1 ++ body ++ ws2 ++ fence))
        with (tag ++ ws1 ++ body ++ ws2 ++ fence).
      replace (tag ++ ws1 ++ body ++ ws2 ++ fence)
        with ((tag ++ ws1 ++ body ++ ws2) ++ fence)
        by (rewrite <- !app_assoc; reflexivity).
      replace (length (fence ++ (tag ++ ws1 ++ body ++ ws2) ++ fence) - 6)%nat
        with (length (tag ++ ws1 ++ body ++ ws2))
        by (rewrite !length_app; cbn; lia).
      apply take_app_length. }
    rewrite Hinner.
    assert (Hw : dropWhile isWordChar (tag ++ ws1 ++ body ++ ws2) = ws1 ++ body ++ ws2).
    { rewrite (dropWhile_all _ _ _ Htag). apply dropWhile_fixed.
      destruct ws1 as [|c1 ws1'].
      - destruct Hsep as [Hsep|Hsep]; [congruence|].
        destruct body as [|b body']; [congruence|]. cbn [app]. apply Hsep. reflexivity.
      - cbn [app]. inversion Hws1 as [|? ? Hc1 _]; subst.
        destruct (isWordChar c1) eqn:Ew; [|reflexivity].
        apply wordChar_not_whiteSpace in Ew. congruence. }
    rewrite Hw. rewrite (dropWhile_all _ _ _ Hws1).
    assert (Hb : dropWhile isWhiteSpace (body ++ ws2) = body ++ ws2).
    { apply dropWhile_fixed. destruct body as [|b body']; [congruence|].
      cbn [app]. cbn [dropWhile] in Hd.
      destruct (isWhiteSpace b) eqn:Eb; [|reflexivity].
      exfalso. pose proof (length_dropWhile isWhiteSpace body') as Hl.
      rewrite Hd in Hl. cbn [length] in Hl. lia. }
    rewrite Hb, (trimEnd_app_whiteSpace _ _ Hws2), He.
    destruct body as [|b body']; [congruence|]. cbn [truthy]. exact Htrim.
  - intros s H. unfold stripFence. rewrite H. reflexivity.
Qed.

Lemma fence_is_stripped_witness :
  stripFence (fence ++ str "json" ++ [10] ++ str "{ }" ++ [10] ++ fence)
  = str "{ }".
Proof.
  apply (proj1 (fence_is_stripped (str "json") [10] (str "{ }") [10])).
  - repeat constructor.
  - repeat constructor.
  - repeat constructor.
  - discriminate.
  - vm_compute. reflexivity.
  - left. discriminate.
Defined.

(* ===================================================================== *)
(** * Upload *)
(* ===================================================================== *)

Section UploadFacts.

Variable now : nat -> jsstring.

Lemma uploadStep_entry (i : nat) (new : list (ProcessedFileData json))
    (m : gmap jsstring File) (file : File) :
  uploadStep now (i, new, m) file
  = (S i, new ++ [uploadedEntry now i file], <[uploadId now i file := file]> m).
Proof.
  unfold uploadStep, uploadedEntry, acceptedUpload, uploadId.
  destruct (Z.ltb_spec MAX_FILE_SIZE_BYTES (fileSize file)) as [Hs|Hs].
  - rewrite (proj2 (Z.leb_gt _ _) Hs). reflexivity.
  - rewrite (proj2 (Z.leb_le _ _) Hs). cbn [andb].
    destruct (isPdfType (fileType file)), (isImageType (fileType file)); reflexivity.
Qed.

Lemma upload_loop (files : list File) (i : nat)
    (new : list (ProcessedFileData json)) (m : gmap jsstring File) :
  exists m',
    foldl (uploadStep now) (i, new, m) files
    = ((i + length files)%nat, new ++ uploadedEntries now i files, m')
    /\ (forall k, is_Some (m !! k) -> is_Some (m' !! k))
    /\ (forall e, e ∈ uploadedEntries now i files -> is_Some (m' !! id e)).
Proof.
  revert i new m. induction files as [|f fs IH]; intros i new m.
  - exists m. cbn. rewrite app_nil_r, Nat.add_0_r.
    split; [reflexivity|]. split; [auto|]. intros e He. inversion He.
  - cbn [foldl]. rewrite uploadStep_entry.
    destruct (IH (S i) (new ++ [uploadedEntry now i f])
                (<[uploadId now i f := f]> m)) as (m' & E & Hkeep & Hin).
    exists m'. rewrite E. cbn [length uploadedEntries].
    rewrite <- app_assoc. cbn [app].
    split; [f_equal; f_equal; lia|]. split.
    + intros k Hk. apply Hkeep.
      destruct (decide (uploadId now i f = k)) as [->|Hne].
      * rewrite lookup_insert_eq. eauto.
      * rewrite lookup_insert_ne by exact Hne. exact Hk.
    + intros e He. apply elem_of_cons in He as [->|He]; [|auto].
      apply Hkeep. cbn [uploadedEntry initialEntry id].
      rewrite lookup_insert_eq. eauto.
Qed.

Lemma uploadedEntries_lookup (files : list File) (i k : nat) (file : File) :
  files !! k = Some file ->
  uploadedEntries now i files !! k = Some (uploadedEntry now (i + k) file).
Proof.
  revert i k. induction files as [|f fs IH]; intros i k; [discriminate|].
  destruct k as [|k]; cbn [uploadedEntries].
  - intros [= ->]. rewrite Nat.add_0_r. reflexivity.
  - intros H.
    change ((uploadedEntry now i f :: uploadedEntries now (S i) fs) !! S k)
      with (uploadedEntries now (S i) fs !! k).
    change ((f :: fs) !! S k) with (fs !! k) in H.
    rewrite (IH (S i) k H). do 2 f_equal. lia.
Qed.

Lemma length_uploadedEntries (files : list File) (i : nat) :
  length (uploadedEntries now i files) = length files.
Proof.
  revert i. induction files as [|f fs IH]; intros i; [reflexivity|].
  cbn [uploadedEntries length]. rewrite IH. reflexivity.
Qed.

Lemma isQueued_uploadedEntry (i : nat) (f : File) :
  isQueued (uploadedEntry now i f) = acceptedUpload f.
Proof.
  unfold isQueued, uploadedEntry. cbn [initialEntry status].
  destruct (acceptedUpload f); reflexivity.
Qed.

Lemma queued_uploadedEntries (files : list File) (i : nat) :
  map id (filter (fun f => isQueued f = true) (uploadedEntries now i files))
  = acceptedIds now i files.
Proof.
  revert i. induction files as [|f fs IH]; intros i; [reflexivity|].
  cbn [uploadedEntries acceptedIds]. rewrite filter_cons.
  destruct (decide (isQueued (uploadedEntry now i f) = true)) as [E|E];
    rewrite isQueued_uploadedEntry in E.
  - rewrite E. cbn [map app]. rewrite IH. reflexivity.
  - apply not_true_is_false in E. rewrite E. cbn [app]. apply IH.
Qed.

End UploadFacts.

(** X7: an upload adds one entry for every selected file, in order, after
    the entries that were there.  The entry of a file that is larger than
    ten megabytes, or whose type is not PDF, PNG or JPEG, is created in the
    [error] status with a message and is never queued; the entry of every
    other file is queued without message.  The bytes of every selected
    file, rejected or not, are kept in the file store under the id of its
    entry, and nothing is removed from the store. *)
Theorem upload_classification (now : nat -> jsstring)
    (processedFiles : list (ProcessedFileData json))
    (originalFilesMap : gmap jsstring File) (files : list File) :
  exists added,
    (handleFilesSelected now processedFiles originalFilesMap files).1
    = processedFiles ++ added
    /\ length added = length files
    /\ (forall (k : nat) file,
          files !! k = Some file ->
          exists e,
            added !! k = Some e
            /\ id e = fileName file ++ str "-" ++ now k
            /\ pdfFileName e = fileName file
            /\ extractedInstances e = []
            /\ (status e = st_queued <-> acceptedUpload file = true)
            /\ (status e = st_error <-> acceptedUpload file = false)
            /\ (errorMessage e = None <-> acceptedUpload file = true)
            /\ is_Some ((handleFilesSelected now processedFiles
                           originalFilesMap files).2 !! id e))
    /\ (forall k, is_Some (originalFilesMap !! k) ->
                  is_Some ((handleFilesSelected now processedFiles
                              originalFilesMap files).2 !! k)).
Proof.
  unfold handleFilesSelected.
  destruct (upload_loop now files 0 [] originalFilesMap) as (m' & E & Hkeep & Hin).
  rewrite E. cbn [fst snd app]. exists (uploadedEntries now 0 files).
  split; [reflexivity|]. split; [apply length_uploadedEntries|]. split; [|exact Hkeep].
  intros k file Hk. exists (uploadedEntry now k file).
  pose proof (uploadedEntries_lookup now files 0 k file Hk) as El.
  cbn [Nat.add] in El. split; [exact El|].
  split; [reflexivity|]. split; [reflexivity|]. split; [reflexivity|].
  cbn [uploadedEntry initialEntry status errorMessage].
  split; [|split; [|split]].
  - destruct (acceptedUpload file); split; intros; congruence.
  - destruct (acceptedUpload file); split; intros; congruence.
  - destruct (acceptedUpload file); split; intros; congruence.
  - apply Hin. apply list_elem_of_lookup. exists k. exact El.
Qed.

Lemma upload_classification_witness :
  exists e,
    [initialEntry (str "big.pdf-17") (str "big.pdf") st_error (Some sizeLimitMessage)]
    !! 0%nat = Some e
    /\ status e = st_error.
Proof.
  destruct (upload_classification (fun _ => str "17") [] ∅
              [mkFile (str "big.pdf") (str "application/pdf") (11 * 1024 * 1024) []])
    as (added & E & _ & H & _).
  vm_compute in E. subst added.
  destruct (H 0%nat _ eq_refl) as (e & El & _ & _ & _ & _ & [_ Hs] & _).
  exists e. split; [exact El|]. apply Hs. vm_compute. reflexivity.
Defined.

(* ===================================================================== *)
(** * Further properties of the batch orchestrator *)
(* ===================================================================== *)

Section BatchRuns.

Variable ext : Externals.
Variable originalFilesMap : gmap jsstring File.

Implicit Types (fs : list (ProcessedFileData json)) (w : World).

(** With a key, the batch is the attempts of the queued files. *)
Lemma batch_with_key apiKey fs w :
  truthy apiKey = true ->
  handleStartProcessing ext false false apiKey fs originalFilesMap w
  = (foldl applyResult fs
       (attemptAll ext apiKey originalFilesMap
          (map id (filter (fun f => isQueued f = true) fs)) w).1,
     (attemptAll ext apiKey originalFilesMap
        (map id (filter (fun f => isQueued f = true) fs)) w).2).
Proof.
  intros Hk. unfold handleStartProcessing. rewrite Hk. cbn [orb negb].
  pose proof (batch_loop ext apiKey originalFilesMap
                (filter (fun f => isQueued f = true) fs) fs w) as E.
  destruct (filter (fun f => isQueued f = true) fs) as [|q qs]; [|exact E].
  cbn [length Nat.eqb]. exact E.
Qed.

Lemma batch_settles apiKey fs w :
  truthy apiKey = true -> NoDup (map id fs) ->
  handleStartProcessing ext false false apiKey fs originalFilesMap w
  = (map (settled
            (attemptAll ext apiKey originalFilesMap
               (map id (filter (fun f => isQueued f = true) fs)) w).1) fs,
     (attemptAll ext apiKey originalFilesMap
        (map id (filter (fun f => isQueued f = true) fs)) w).2).
Proof.
  intros Hk Hnd. rewrite (batch_with_key _ _ _ Hk). f_equal.
  rewrite applyResults_pointwise.
  - apply settled_pointwise; [exact Hnd | apply attemptAll_ids].
  - rewrite attemptAll_ids. apply NoDup_ids_filter. exact Hnd.
Qed.

Lemma outcomeOf_Some {X} i (results : list (jsstring * X)) :
  i ∈ map fst results -> is_Some (outcomeOf i results).
Proof.
  induction results as [|[j r] rs IH]; cbn [map fst outcomeOf]; intros H.
  - inversion H.
  - destruct (decide (j = i)); [eauto|].
    apply elem_of_cons in H as [H|H]; [congruence | auto].
Qed.

Lemma settled_not_queued
    (results : list (jsstring * Result (ExtractedGeminiInfo json))) f :
  (isQueued f = true -> id f ∈ map fst results) ->
  status (settled results f) <> st_queued.
Proof.
  intros H. unfold settled. destruct (isQueued f) eqn:Eq.
  - destruct (outcomeOf_Some _ _ (H eq_refl)) as [[d|e] ->]; discriminate.
  - unfold isQueued in Eq. apply bool_decide_eq_false in Eq. exact Eq.
Qed.

Lemma isQueued_false {V} (f : ProcessedFileData V) :
  status f <> st_queued -> isQueued f = false.
Proof. intros H. unfold isQueued. apply bool_decide_eq_false. exact H. Qed.

Lemma filter_queued_nil fs :
  Forall (fun f => status f <> st_queued) fs ->
  filter (fun f => isQueued f = true) fs = [].
Proof.
  induction 1 as [|f fs Hf _ IH]; [reflexivity|].
  rewrite filter_cons.
  destruct (decide (isQueued f = true)) as [E|_]; [|exact IH].
  rewrite (isQueued_false f Hf) in E. discriminate E.
Qed.

Lemma map_unqueued (g : ProcessedFileData json -> ProcessedFileData json) fs :
  Forall (fun f => status f <> st_queued) fs ->
  map (fun f => if isQueued f then g f else f) fs = fs.
Proof.
  induction 1 as [|f fs Hf _ IH]; [reflexivity|].
  cbn [map]. rewrite (isQueued_false f Hf), IH. reflexivity.
Qed.

(** A start on files none of which is queued changes nothing. *)
Lemma batch_nothing_queued (b1 b2 : bool) apiKey fs w :
  Forall (fun f => status f <> st_queued) fs ->
  handleStartProcessing ext b1 b2 apiKey fs originalFilesMap w = (fs, w).
Proof.
  intros H. unfold handleStartProcessing.
  destruct (b1 || b2); [reflexivity|].
  destruct (negb (truthy apiKey)).
  - rewrite (map_unqueued _ _ H). reflexivity.
  - rewrite (filter_queued_nil _ H). reflexivity.
Qed.

Lemma batch_leaves_none_queued apiKey fs w :
  NoDup (map id fs) ->
  Forall (fun f => status f <> st_queued)
    (handleStartProcessing ext false false apiKey fs originalFilesMap w).1.
Proof.
  intros Hnd. destruct (truthy apiKey) eqn:Hk.
  - rewrite (batch_settles _ _ _ Hk Hnd). cbn [fst].
    apply Forall_forall. intros g Hg.
    apply list_elem_of_fmap in Hg as (f & -> & Hf).
    apply settled_not_queued. intros Hq. rewrite attemptAll_ids.
    apply list_elem_of_fmap_2.
    apply (list_elem_of_filter (fun f => isQueued f = true) fs f).
    split; assumption.
  - unfold handleStartProcessing. rewrite Hk. cbn [orb negb fst].
    apply Forall_forall. intros g Hg.
    apply list_elem_of_fmap in Hg as (f & -> & Hf).
    destruct (isQueued f) eqn:Eq; [discriminate|].
    unfold isQueued in Eq. apply bool_decide_eq_false in Eq. exact Eq.
Qed.

Lemma tryProcess_calls apiKey i w :
  (calls w <= calls (tryProcess ext apiKey originalFilesMap i w).2
   <= calls w + 3)%nat.
Proof.
  assert (Hsame : (calls w <= calls w <= calls w + 3)%nat) by lia.
  assert (Hloop : forall label req,
             (calls w <= calls (retryLoop ext label req MAX_RETRIES None w).2
              <= calls w + 3)%nat).
  { intros label req.
    destruct (retryLoop_trace ext label req MAX_RETRIES None w)
      as (evs & _ & Hc & Hn & _).
    unfold MAX_RETRIES in Hn. lia. }
  unfold tryProcess. destruct (originalFilesMap !! i) as [file|]; [|exact Hsame].
  destruct (isPdfType (fileType file)).
  - destruct (extractTextFromPdf ext file) as [t|]; [|exact Hsame].
    destruct (negb (truthy (trim t))); [exact Hsame|].
    unfold extractInfoFromText. destruct (negb (truthy apiKey)); [exact Hsame|].
    apply Hloop.
  - destruct (isImageType (fileType file)); [|exact Hsame].
    destruct (convertFileToBase64AndGetMime ext file) as [[b m]|]; [|exact Hsame].
    destruct (negb (truthy b)); [exact Hsame|].
    unfold extractInfoFromImage. destruct (negb (truthy apiKey)); [exact Hsame|].
    apply Hloop.
Qed.

Lemma attemptAll_calls apiKey ids w :
  (calls w <= calls (attemptAll ext apiKey originalFilesMap ids w).2
   <= calls w + 3 * length ids)%nat.
Proof.
  revert w. induction ids as [|i ids IH]; intros w; [cbn; lia|].
  cbn [attemptAll].
  pose proof (tryProcess_calls apiKey i (emit (EvStatus i st_processing) w)) as H1.
  destruct (tryProcess ext apiKey originalFilesMap i
              (emit (EvStatus i st_processing) w)) as [r w1].
  cbn [snd emit calls] in H1.
  specialize (IH (emit (EvStatus i
                          (match r with Ok _ => st_completed | Err _ => st_error end))
                    w1)).
  destruct (attemptAll ext apiKey originalFilesMap ids _) as [rs w3].
  cbn [snd emit calls length] in *. lia.
Qed.

End BatchRuns.

(* ===================================================================== *)
(** * Failure isolation in the batch *)
(* ===================================================================== *)

Section BatchTurns.

Variable ext : Externals.
Variable apiKey : jsstring.
Variable originalFilesMap : gmap jsstring File.

Implicit Types (w : World) (ids : list jsstring).









End BatchTurns.




(** X8: whoever starts it and whatever the model does, a batch makes at
    most three model requests for each file that was queued, and none when
    no key is set or a batch or an export is running. *)
Theorem batch_request_budget (ext : Externals)
    (isBatchProcessing isZipping : bool) (apiKey : jsstring)
    (processedFiles : list (ProcessedFileData json))
    (originalFilesMap : gmap jsstring File) (w : World) :
  (calls w
   <= calls (handleStartProcessing ext isBatchProcessing isZipping apiKey
               processedFiles originalFilesMap w).2
   <= calls w
      + 3 * length (filter (fun f => isQueued f = true) processedFiles))%nat
  /\ (isBatchProcessing || isZipping || negb (truthy apiKey) = true ->
      (handleStartProcessing ext isBatchProcessing isZipping apiKey
         processedFiles originalFilesMap w).2 = w).
Proof.
  split.
  - unfold handleStartProcessing.
    destruct (isBatchProcessing || isZipping); [cbn [snd]; lia|].
    destruct (negb (truthy apiKey)); [cbn [snd]; lia|].
    destruct (length (filter (fun f => isQueued f = true) processedFiles) =? 0)%nat;
      [cbn [snd]; lia|].
    rewrite batch_loop. cbn [snd].
    pose proof (attemptAll_calls ext originalFilesMap apiKey
                  (map id (filter (fun f => isQueued f = true) processedFiles)) w) as H.
    rewrite length_map in H. exact H.
  - unfold handleStartProcessing.
    destruct (isBatchProcessing || isZipping); [reflexivity|].
    destruct (negb (truthy apiKey)); [reflexivity | discriminate].
Qed.

Lemma batch_request_budget_witness :
  (handleStartProcessing secondKeyRejected false false [] threeQueued
     threeOriginals (mkWorld 0 [])).2 = mkWorld 0 [].
Proof.
  apply (proj2 (batch_request_budget secondKeyRejected false false []
                  threeQueued threeOriginals (mkWorld 0 []))).
  reflexivity.
Defined.

(** X9: after a batch no file is left queued: with distinct ids, every
    entry of the result is in another status, so a second start finds
    nothing to do and changes neither the files nor the world. *)
Theorem batch_is_exhaustive (ext : Externals) (apiKey : jsstring)
    (processedFiles : list (ProcessedFileData json))
    (originalFilesMap : gmap jsstring File) (w : World) :
  NoDup (map id processedFiles) ->
  Forall (fun f => status f <> st_queued)
    (handleStartProcessing ext false false apiKey processedFiles
       originalFilesMap w).1
  /\ handleStartProcessing ext false false apiKey
       (handleStartProcessing ext false false apiKey processedFiles
          originalFilesMap w).1
       originalFilesMap
       (handleStartProcessing ext false false apiKey processedFiles
          originalFilesMap w).2
     = handleStartProcessing ext false false apiKey processedFiles
         originalFilesMap w.
Proof.
  intros Hnd.
  pose proof (batch_leaves_none_queued ext originalFilesMap apiKey
                processedFiles w Hnd) as H.
  split; [exact H|]. rewrite batch_nothing_queued by exact H.
  destruct (handleStartProcessing ext false false apiKey processedFiles
              originalFilesMap w). reflexivity.
Qed.

Lemma batch_is_exhaustive_witness :
  Forall (fun f => status f <> st_queued)
    (handleStartProcessing secondKeyRejected false false (str "key")
       threeQueued threeOriginals (mkWorld 0 [])).1.
Proof.
  apply (proj1 (batch_is_exhaustive secondKeyRejected (str "key") threeQueued
                  threeOriginals (mkWorld 0 [])
                  ltac:(apply (bool_decide_unpack _); vm_compute; exact I))).
Defined.

(** X10: an upload followed by a batch sends to processing exactly the
    files that were queued before and the accepted files of the upload, in
    this order: a file rejected at upload is never attempted. *)
Theorem rejected_uploads_are_never_attempted (ext : Externals)
    (now : nat -> jsstring) (apiKey : jsstring)
    (processedFiles : list (ProcessedFileData json))
    (originalFilesMap : gmap jsstring File) (files : list File) (w : World) :
  truthy apiKey = true ->
  attempted
    (log (handleStartProcessing ext false false apiKey
            (handleFilesSelected now processedFiles originalFilesMap files).1
            (handleFilesSelected now processedFiles originalFilesMap files).2
            w).2)
  = attempted (log w)
    ++ map id (filter (fun f => isQueued f = true) processedFiles)
    ++ acceptedIds now 0 files.
Proof.
  intros Hk. rewrite (batch_with_key _ _ _ _ _ Hk). cbn [snd].
  rewrite attemptAll_attempted. f_equal.
  unfold handleFilesSelected.
  destruct (upload_loop now files 0 [] originalFilesMap) as (m' & E & _).
  rewrite E. cbn [fst app]. rewrite filter_app, map_app.
  rewrite queued_uploadedEntries. reflexivity.
Qed.

Lemma rejected_uploads_are_never_attempted_witness :
  attempted
    (log (handleStartProcessing secondKeyRejected false false (str "key")
            (handleFilesSelected (fun _ => str "17") [] ∅
               [mkFile (str "big.pdf") (str "application/pdf") (11 * 1024 * 1024) [];
                mkFile (str "notes.txt") (str "text/plain") 10 []]).1
            (handleFilesSelected (fun _ => str "17") [] ∅
               [mkFile (str "big.pdf") (str "application/pdf") (11 * 1024 * 1024) [];
                mkFile (str "notes.txt") (str "text/plain") 10 []]).2
            (mkWorld 0 [])).2)
  = [].
Proof.
  exact (rejected_uploads_are_never_attempted secondKeyRejected
           (fun _ => str "17") (str "key") [] ∅
           [mkFile (str "big.pdf") (str "application/pdf") (11 * 1024 * 1024) [];
            mkFile (str "notes.txt") (str "text/plain") 10 []]
           (mkWorld 0 []) eq_refl).
Defined.

(* ===================================================================== *)
(** * Splitting, and the data URL of an image *)
(* ===================================================================== *)

Section SplitFacts.

Implicit Types (a b : jsstring) (sep : Z).

Lemma splitOn_no_sep sep a : sep ∉ a -> splitOn sep a = [a].
Proof.
  induction a as [|c a IH]; intros H; [reflexivity|].
  apply not_elem_of_cons in H as [Hc Ha].
  cbn [splitOn]. rewrite (proj2 (Z.eqb_neq c sep)) by congruence.
  rewrite (IH Ha). reflexivity.
Qed.

Lemma splitOn_app_sep sep a b :
  sep ∉ a -> splitOn sep (a ++ sep :: b) = a :: splitOn sep b.
Proof.
  induction a as [|c a IH]; intros H.
  - cbn [app splitOn]. rewrite Z.eqb_refl. reflexivity.
  - apply not_elem_of_cons in H as [Hc Ha].
    cbn [app splitOn]. rewrite (proj2 (Z.eqb_neq c sep)) by congruence.
    rewrite (IH Ha). reflexivity.
Qed.

End SplitFacts.

(** X11: the data URL of an image is taken apart correctly: when the
    reader returns the text data:MIME;base64,PAYLOAD and neither the type
    nor the payload holds a semicolon, the conversion returns the payload
    and the type; a text without semicolon is rejected as an invalid data
    URL. *)
Theorem data_url_is_decoded (ext : Externals) (file : File) :
  (forall mime payload,
     readAsDataURL ext file
     = Ok (Some (str "data:" ++ mime ++ str ";base64," ++ payload)) ->
     59 ∉ mime -> 59 ∉ payload ->
     convertFileToBase64AndGetMime ext file = Ok (payload, mime))
  /\ (forall result,
        readAsDataURL ext file = Ok (Some result) -> 59 ∉ result ->
        convertFileToBase64AndGetMime ext file
        = Err (MkError (str "Invalid Data URL format"))).
Proof.
  split.
  - intros mime payload Hr Hm Hp. unfold convertFileToBase64AndGetMime.
    rewrite Hr. unfold mbind, Result_bind, bindR.
    assert (Es : splitOn 59 (str "data:" ++ mime ++ str ";base64," ++ payload)
                 = [str "data:" ++ mime; str "base64," ++ payload]).
    { change (str ";base64," ++ payload) with (59 :: (str "base64," ++ payload)).
      rewrite app_assoc. rewrite splitOn_app_sep.
      - rewrite splitOn_no_sep; [reflexivity|].
        intros H. apply elem_of_app in H as [H|H]; [|contradiction].
        vm_compute in H. repeat (apply elem_of_cons in H as [H|H]; [discriminate H|]).
        inversion H.
      - intros H. apply elem_of_app in H as [H|H]; [|contradiction].
        vm_compute in H. repeat (apply elem_of_cons in H as [H|H]; [discriminate H|]).
        inversion H. }
    rewrite Es. cbn [length Nat.ltb Nat.leb nth orb].
    rewrite startsWith_self. cbn [negb].
    reflexivity.
  - intros result Hr Hn. unfold convertFileToBase64AndGetMime.
    rewrite Hr. unfold mbind, Result_bind, bindR.
    rewrite (splitOn_no_sep _ _ Hn). reflexivity.
Qed.

Lemma data_url_is_decoded_witness :
  convertFileToBase64AndGetMime
    (mkExternals rejectingParser (fun _ => Threw serverError) (fun _ => Ok [])
       (fun _ => Ok (Some (str "data:" ++ str "image/png" ++ str ";base64,"
                           ++ str "aGk="))))
    certificate
  = Ok (str "aGk=", str "image/png").
Proof.
  apply (proj1 (data_url_is_decoded
                  (mkExternals rejectingParser (fun _ => Threw serverError)
                     (fun _ => Ok [])
                     (fun _ => Ok (Some (str "data:" ++ str "image/png"
                                         ++ str ";base64," ++ str "aGk="))))
                  certificate)
           (str "image/png") (str "aGk=") eq_refl).
  - intros H. vm_compute in H.
    repeat (apply elem_of_cons in H as [H|H]; [discriminate H|]). inversion H.
  - intros H. vm_compute in H.
    repeat (apply elem_of_cons in H as [H|H]; [discriminate H|]). inversion H.
Defined.

(* ===================================================================== *)
(** * Further properties of the provider table loader *)
(* ===================================================================== *)

Section LoaderEntries.

Implicit Types (m : GameProviderMap) (es : list (jsstring * ProviderInfo)).

Lemma lookup_insertAll_elem m es k v :
  insertAll m es !! k = Some v -> m !! k = Some v \/ (k, v) ∈ es.
Proof.
  revert m. induction es as [|[k' v'] es IH]; intros m H; [left; exact H|].
  cbn [insertAll foldl fst snd] in H. apply (IH (<[k':=v']> m)) in H.
  destruct H as [H|H].
  - destruct (decide (k' = k)) as [->|Hne].
    + rewrite lookup_insert_eq in H. injection H as ->. right. left.
    + rewrite lookup_insert_ne in H by exact Hne. left. exact H.
  - right. right. exact H.
Qed.

Lemma orNull_Some s c : orNull s = Some c -> c = s /\ truthy s = true.
Proof.
  unfold orNull. destruct (truthy s) eqn:E; [|discriminate].
  intros [= <-]. split; reflexivity.
Qed.

Lemma parseLine_Some line k info :
  parseLine line = Some (k, info) ->
  let parts := splitOn 9 line in
  (6 <= length parts)%nat
  /\ k = normalizeGameName (Some (trim (nth 0 parts [])))
  /\ truthy (trim (nth 0 parts [])) = true
  /\ truthy k = true
  /\ provider info = trim (nth 1 parts [])
  /\ truthy (provider info) = true
  /\ portalLiveDate info = orNull (trim (nth 3 parts []))
  /\ imsGameCode info = orNull (trim (nth 5 parts [])).
Proof.
  unfold parseLine. destruct (6 <=? length (splitOn 9 line))%nat eqn:E6;
    [|discriminate].
  destruct (truthy (trim (nth 0 (splitOn 9 line) []))) eqn:Eg;
    [|discriminate].
  destruct (truthy (trim (nth 1 (splitOn 9 line) []))) eqn:Ep;
    [|discriminate].
  cbn [andb].
  destruct (truthy (normalizeGameName (Some (trim (nth 0 (splitOn 9 line) [])))))
    eqn:Ek; [|discriminate].
  intros [= <- <-]. cbn [provider portalLiveDate imsGameCode].
  apply Nat.leb_le in E6. repeat split; auto.
Qed.

(** Every entry of a loaded table was recorded from one of the data lines,
    and has the shape the loader gives it. *)
Lemma loader_entry (excelData : jsstring) k info :
  (handleParseData excelData).1 !! k = Some info ->
  (exists line, line ∈ dataLinesOf excelData /\ parseLine line = Some (k, info))
  /\ truthy k = true
  /\ truthy (provider info) = true /\ trim (provider info) = provider info
  /\ (forall c, imsGameCode info = Some c -> truthy c = true /\ trim c = c)
  /\ (forall d, portalLiveDate info = Some d -> truthy d = true /\ trim d = d).
Proof.
  unfold handleParseData. rewrite foldl_recordLine. cbn [fst].
  intros H. apply lookup_insertAll_elem in H as [H|H].
  { rewrite lookup_empty in H. discriminate. }
  apply list_elem_of_omap in H as (line & Hin & Hp).
  split; [exists line; split; assumption|].
  apply parseLine_Some in Hp. cbn zeta in Hp.
  destruct Hp as (_ & _ & _ & Hk & Hprov & Htp & Hd & Hc).
  split; [exact Hk|]. split; [exact Htp|].
  split; [rewrite Hprov; apply trim_idem|]. split.
  - intros c E. rewrite Hc in E. apply orNull_Some in E as [-> Ht].
    split; [exact Ht | apply trim_idem].
  - intros d E. rewrite Hd in E. apply orNull_Some in E as [-> Ht].
    split; [exact Ht | apply trim_idem].
Qed.

End LoaderEntries.

(** X12: every entry of a loaded provider table was recorded from one of
    the data lines of the pasted text; its key and its provider name are
    not empty, the provider name is trimmed, and the portal live date and
    the IMS game code are each either null or a trimmed text that is not
    empty. *)
Theorem loader_entries_are_well_formed (excelData : jsstring) k info :
  (handleParseData excelData).1 !! k = Some info ->
  (exists line, line ∈ dataLinesOf excelData /\ parseLine line = Some (k, info))
  /\ truthy k = true
  /\ truthy (provider info) = true /\ trim (provider info) = provider info
  /\ (forall c, imsGameCode info = Some c -> truthy c = true /\ trim c = c)
  /\ (forall d, portalLiveDate info = Some d -> truthy d = true /\ trim d = d).
Proof.
  unfold handleParseData. rewrite foldl_recordLine. cbn [fst].
  intros H. apply lookup_insertAll_elem in H as [H|H].
  { rewrite lookup_empty in H. discriminate. }
  apply list_elem_of_omap in H as (line & Hin & Hp).
  split; [exists line; split; assumption|].
  apply parseLine_Some in Hp. cbn zeta in Hp.
  destruct Hp as (_ & _ & _ & Hk & Hprov & Htp & Hd & Hc).
  split; [exact Hk|]. split; [exact Htp|].
  split; [rewrite Hprov; apply trim_idem|]. split.
  - intros c E. rewrite Hc in E. apply orNull_Some in E as [-> Ht].
    split; [exact Ht | apply trim_idem].
  - intros d E. rewrite Hd in E. apply orNull_Some in E as [-> Ht].
    split; [exact Ht | apply trim_idem].
Qed.

Lemma loader_entries_are_well_formed_witness :
  truthy (str "foo") = true
  /\ truthy (provider (mkProviderInfo (str "Beta") None None)) = true.
Proof.
  pose proof (loader_entries_are_well_formed samplePaste (str "foo")
                (mkProviderInfo (str "Beta") None None)) as H.
  destruct H as (_ & Hk & Hp & _).
  - vm_compute. reflexivity.
  - split; assumption.
Defined.

(** X13: only the first line of the pasted text can be a header row.  When
    it is not empty and holds the words game provider in any letter case,
    it records nothing, also when it has the six columns of a data line;
    otherwise it is read as a data line like the ones after it. *)
Theorem header_row_is_skipped (first rest : jsstring) :
  10 ∉ first ->
  (truthy first = true ->
   includes (toLowerCase first) (str "game provider") = true ->
   handleParseData (first ++ 10 :: rest)
   = foldl recordLine (∅, 0%nat) (splitOn 10 rest))
  /\ (includes (toLowerCase first) (str "game provider") = false ->
      handleParseData (first ++ 10 :: rest)
      = foldl recordLine (recordLine (∅, 0%nat) first) (splitOn 10 rest)).
Proof.
  intros Hn. unfold handleParseData, dataLinesOf.
  rewrite (splitOn_app_sep 10 first rest Hn). split.
  - intros Ht Hi. rewrite Ht, Hi. reflexivity.
  - intros Hi. rewrite Hi, andb_false_r. reflexivity.
Qed.

Lemma header_row_is_skipped_witness :
  handleParseData
    (str "Name" ++ [9] ++ str "Game Provider" ++ [9; 9; 9; 9]
     ++ 10 :: (str "Foo" ++ [9] ++ str "Acme" ++ [9; 9; 9; 9]))
  = foldl recordLine (∅, 0%nat)
      (splitOn 10 (str "Foo" ++ [9] ++ str "Acme" ++ [9; 9; 9; 9])).
Proof.
  apply (proj1 (header_row_is_skipped
                  (str "Name" ++ [9] ++ str "Game Provider" ++ [9; 9; 9; 9])
                  (str "Foo" ++ [9] ++ str "Acme" ++ [9; 9; 9; 9])
                  ltac:(vm_compute; intros H;
                        repeat (apply elem_of_cons in H as [H|H];
                                [discriminate H|]);
                        inversion H))).
  - vm_compute. reflexivity.
  - vm_compute. reflexivity.
Defined.

(** X14: for a provider table that came from the loader no further check
    is needed downstream: a code it holds for a key is the authoritative
    code of that key whatever the certificates say, and an instance whose
    name normalises to one of its keys is filed in the folder named by the
    entry's provider, whatever the instance's game code ends with. *)
Theorem loaded_table_decides_code_and_folder (excelData : jsstring)
    (data : list (ProcessedFileData (option jsstring))) k info :
  (handleParseData excelData).1 !! k = Some info ->
  (forall c, imsGameCode info = Some c ->
     authoritativeImsCodeMap (handleParseData excelData).1 data !! k = Some c)
  /\ (forall i : GameInstanceData (option jsstring),
        normalizeGameName (gameName i) = k ->
        folderNameOf (handleParseData excelData).1 i = provider info).
Proof.
  intros H. destruct (loader_entry _ _ _ H) as (_ & _ & Hp & Htp & Hc & _).
  split.
  - intros c E. unfold authoritativeImsCodeMap.
    rewrite fillFromFiles_flatten. apply fillFromInstances_keep.
    rewrite providerCodes_lookup, H. cbn. unfold tableCode. rewrite E.
    destruct (Hc c E) as [-> _]. reflexivity.
  - intros i E. unfold folderNameOf. rewrite E, H. cbn [fmap option_fmap option_map truthyOpt].
    rewrite Hp. unfold orElse. rewrite Htp, Hp. reflexivity.
Qed.

Lemma loaded_table_decides_code_and_folder_witness :
  authoritativeImsCodeMap
    (handleParseData (str "Foo" ++ [9] ++ str "Acme" ++ [9; 9] ++ str "2020"
                      ++ [9; 9] ++ str "foo_ims")).1
    [completedFile (str "f1")
       [instanceOf (Some (str "Foo")) (Some (str "other_mcg"))]]
  !! str "foo" = Some (str "foo_ims")
  /\ folderNameOf
       (handleParseData (str "Foo" ++ [9] ++ str "Acme" ++ [9; 9] ++ str "2020"
                         ++ [9; 9] ++ str "foo_ims")).1
       (instanceOf (Some (str "Foo")) (Some (str "other_mcg")))
     = str "Acme".
Proof.
  pose proof (loaded_table_decides_code_and_folder
                (str "Foo" ++ [9] ++ str "Acme" ++ [9; 9] ++ str "2020"
                 ++ [9; 9] ++ str "foo_ims")
                [completedFile (str "f1")
                   [instanceOf (Some (str "Foo")) (Some (str "other_mcg"))]]
                (str "foo")
                (mkProviderInfo (str "Acme") (Some (str "2020"))
                   (Some (str "foo_ims")))) as H.
  destruct H as [Hc Hf]; [vm_compute; reflexivity|].
  split.
  - apply (Hc (str "foo_ims")). reflexivity.
  - apply (Hf (instanceOf (Some (str "Foo")) (Some (str "other_mcg")))).
    vm_compute. reflexivity.
Defined.

(* ===================================================================== *)
(** * Further properties of the authoritative code map *)
(* ===================================================================== *)

Section ReconciliationInvariants.

Implicit Types (acc : gmap jsstring jsstring)
  (i : GameInstanceData (option jsstring)).

Lemma completedInstances_elem
    (data : list (ProcessedFileData (option jsstring))) i :
  i ∈ completedInstances data <->
  exists f, f ∈ data /\ status f = st_completed /\ i ∈ extractedInstances f.
Proof.
  unfold completedInstances. rewrite list_elem_of_In, in_flat_map. split.
  - intros (f & Hf & Hi). exists f. rewrite list_elem_of_In.
    destruct (decide (status f = st_completed)) as [E|E]; [|destruct Hi].
    rewrite list_elem_of_In. auto.
  - intros (f & Hf & E & Hi). exists f. rewrite <- list_elem_of_In.
    split; [exact Hf|]. destruct (decide (status f = st_completed));
      [|contradiction]. apply list_elem_of_In. exact Hi.
Qed.

Lemma completedInstances_app
    (d1 d2 : list (ProcessedFileData (option jsstring))) :
  completedInstances (d1 ++ d2) = completedInstances d1 ++ completedInstances d2.
Proof. unfold completedInstances. apply flat_map_app. Qed.

Lemma head_omap_Some {A B} (f : A -> option B) (l : list A) y :
  head (omap f l) = Some y -> exists x, x ∈ l /\ f x = Some y.
Proof. intros H. apply head_Some_elem_of in H. apply list_elem_of_omap. exact H. Qed.

Lemma head_omap_is_Some {A B} (f : A -> option B) (l : list A) x y :
  x ∈ l -> f x = Some y -> is_Some (head (omap f l)).
Proof.
  intros Hx Hf.
  assert (Hy : y ∈ omap f l) by (apply list_elem_of_omap; eauto).
  destruct (omap f l) as [|z zs]; [inversion Hy | cbn; eauto].
Qed.

Lemma offer_Some k i c :
  offer k i = Some c <->
  normalizeGameName (gameName i) = k /\ gameCode i = Some c /\ truthy c = true.
Proof.
  unfold offer. destruct (decide (normalizeGameName (gameName i) = k)) as [E|E].
  - destruct (gameCode i) as [c'|].
    + destruct (truthy c') eqn:Ht.
      * split; [intros [= ->]; auto | intros (_ & [= ->] & _); reflexivity].
      * split; [discriminate | intros (_ & [= ->] & Hc); congruence].
    + split; [discriminate | intros (_ & [=] & _)].
  - split; [discriminate | intros (E' & _); contradiction].
Qed.

(** Where each entry of the authoritative map comes from. *)
Lemma authoritative_lookup (tbl : GameProviderMap)
    (data : list (ProcessedFileData (option jsstring))) k :
  authoritativeImsCodeMap tbl data !! k
  = match tbl !! k ≫= tableCode with
    | Some c => Some c
    | None => if truthy k then head (omap (offer k) (completedInstances data))
              else None
    end.
Proof.
  unfold authoritativeImsCodeMap. rewrite fillFromFiles_flatten.
  pose proof (providerCodes_lookup tbl k) as Hb.
  destruct (tbl !! k ≫= tableCode) as [c|].
  - apply fillFromInstances_keep. exact Hb.
  - destruct (truthy k) eqn:Hk.
    + apply fillFromInstances_free; assumption.
    + rewrite fillFromInstances_empty_key by exact Hk. exact Hb.
Qed.

Lemma tableCode_Some info c :
  tableCode info = Some c <-> imsGameCode info = Some c /\ truthy c = true.
Proof.
  unfold tableCode. destruct (imsGameCode info) as [c'|].
  - destruct (truthy c') eqn:Ht.
    + split; [intros [= ->]; auto | intros ([= ->] & _); reflexivity].
    + split; [discriminate | intros ([= ->] & Hc); congruence].
  - split; [discriminate | intros ([=] & _)].
Qed.

End ReconciliationInvariants.

(** X15: the authoritative code map is stable: a code it holds for a key
    stays the code of that key when further files are appended to the
    report, and a file that is not completed contributes nothing, wherever
    it stands. *)
Theorem authoritative_map_is_stable (gameProviderMap : GameProviderMap)
    (data more : list (ProcessedFileData (option jsstring))) :
  (forall k c,
     authoritativeImsCodeMap gameProviderMap data !! k = Some c ->
     authoritativeImsCodeMap gameProviderMap (data ++ more) !! k = Some c)
  /\ (forall f,
        status f <> st_completed ->
        authoritativeImsCodeMap gameProviderMap (data ++ f :: more)
        = authoritativeImsCodeMap gameProviderMap (data ++ more)).
Proof.
  split.
  - intros k c H. unfold authoritativeImsCodeMap in *. rewrite foldl_app.
    rewrite (fillFromFiles_flatten _ more). apply fillFromInstances_keep.
    exact H.
  - intros f Hf. unfold authoritativeImsCodeMap. rewrite !foldl_app.
    cbn [foldl]. unfold fillFromFile at 2.
    destruct (decide (status f = st_completed)); [contradiction|reflexivity].
Qed.

Lemma authoritative_map_is_stable_witness :
  authoritativeImsCodeMap twoProviders
    ([completedFile (str "f1") [instanceOf (Some (str "Beta")) (Some (str "B1"))]]
     ++ [completedFile (str "f2")
           [instanceOf (Some (str "Beta")) (Some (str "B2"))]])
  !! str "beta" = Some (str "B1").
Proof.
  apply (proj1 (authoritative_map_is_stable twoProviders
                  [completedFile (str "f1")
                     [instanceOf (Some (str "Beta")) (Some (str "B1"))]]
                  [completedFile (str "f2")
                     [instanceOf (Some (str "Beta")) (Some (str "B2"))]])).
  vm_compute. reflexivity.
Defined.

(** X16: no usable code is lost: when a completed file has an instance
    with a code that is not empty and a name whose key is not empty, the
    authoritative map has a code for that key. *)
Theorem extracted_code_is_not_lost (gameProviderMap : GameProviderMap)
    (data : list (ProcessedFileData (option jsstring)))
    (f : ProcessedFileData (option jsstring))
    (i : GameInstanceData (option jsstring)) c :
  f ∈ data -> status f = st_completed -> i ∈ extractedInstances f ->
  gameCode i = Some c -> truthy c = true ->
  truthy (normalizeGameName (gameName i)) = true ->
  is_Some (authoritativeImsCodeMap gameProviderMap data
           !! normalizeGameName (gameName i)).
Proof.
  intros Hf Hs Hi Hc Ht Hk. rewrite authoritative_lookup, Hk.
  destruct (gameProviderMap !! normalizeGameName (gameName i) ≫= tableCode);
    [eauto|].
  apply (head_omap_is_Some _ _ i c).
  - apply completedInstances_elem. eauto.
  - apply offer_Some. auto.
Qed.

Lemma extracted_code_is_not_lost_witness :
  is_Some (authoritativeImsCodeMap twoProviders
             [completedFile (str "f1")
                [instanceOf (Some (str "Gamma")) (Some (str "G1"))]]
           !! normalizeGameName
                (gameName (instanceOf (Some (str "Gamma")) (Some (str "G1"))))).
Proof.
  apply (extracted_code_is_not_lost twoProviders
           [completedFile (str "f1")
              [instanceOf (Some (str "Gamma")) (Some (str "G1"))]]
           (completedFile (str "f1")
              [instanceOf (Some (str "Gamma")) (Some (str "G1"))])
           (instanceOf (Some (str "Gamma")) (Some (str "G1")))
           (str "G1")).
  - left.
  - reflexivity.
  - left.
  - reflexivity.
  - reflexivity.
  - vm_compute. reflexivity.
Defined.

(** X17: every code of the authoritative map has a source and is not
    empty: it is the IMS game code of the provider table's entry for the
    key, or the table gives no code for the key and it is the game code of
    an instance of a completed file whose name normalises to the key. *)
Theorem authoritative_code_provenance (gameProviderMap : GameProviderMap)
    (data : list (ProcessedFileData (option jsstring))) k c :
  authoritativeImsCodeMap gameProviderMap data !! k = Some c ->
  truthy c = true
  /\ ((exists info, gameProviderMap !! k = Some info
                    /\ imsGameCode info = Some c)
      \/ (gameProviderMap !! k ≫= tableCode = None
          /\ exists f i, f ∈ data /\ status f = st_completed
                         /\ i ∈ extractedInstances f
                         /\ normalizeGameName (gameName i) = k
                         /\ gameCode i = Some c)).
Proof.
  rewrite authoritative_lookup.
  destruct (gameProviderMap !! k ≫= tableCode) as [c'|] eqn:Eb.
  - intros [= ->]. destruct (gameProviderMap !! k) as [info|] eqn:Em;
      [|discriminate]. cbn in Eb. apply tableCode_Some in Eb as [Ec Ht].
    split; [exact Ht|]. left. eauto.
  - destruct (truthy k); [|discriminate]. intros H.
    apply head_omap_Some in H as (i & Hi & Ho).
    apply offer_Some in Ho as (Ek & Ec & Ht).
    apply completedInstances_elem in Hi as (f & Hf & Hs & Hi).
    split; [exact Ht|]. right. split; [reflexivity|].
    exists f, i. auto.
Qed.

Lemma authoritative_code_provenance_witness :
  truthy (str "A") = true
  /\ ((exists info, twoProviders !! str "alpha" = Some info
                    /\ imsGameCode info = Some (str "A"))
      \/ (twoProviders !! str "alpha" ≫= tableCode = None
          /\ exists f i,
               f ∈ [completedFile (str "f1")
                      [instanceOf (Some (str "Alpha")) (Some (str "Z"))]]
               /\ status f = st_completed
               /\ i ∈ extractedInstances f
               /\ normalizeGameName (gameName i) = str "alpha"
               /\ gameCode i = Some (str "A"))).
Proof.
  apply (authoritative_code_provenance twoProviders
           [completedFile (str "f1")
              [instanceOf (Some (str "Alpha")) (Some (str "Z"))]]
           (str "alpha") (str "A")).
  vm_compute. reflexivity.
Defined.

(* ===================================================================== *)
(** * The report copies *)
(* ===================================================================== *)

Section ReportFacts.

Lemma trim_head (s : jsstring) c r : trim s = c :: r -> isWhiteSpace c = false.
Proof.
  unfold trim, trimStart.
  destruct (dropWhile isWhiteSpace s) as [|d t] eqn:E; [discriminate|].
  pose proof (dropWhile_head _ _ _ _ E) as Hd.
  destruct (trimEnd_cons_keep d t Hd) as (s' & ->). intros [= <- _]. exact Hd.
Qed.

Lemma trim_cons_keep c (r : jsstring) :
  isWhiteSpace c = false -> truthy (trim (c :: r)) = true.
Proof.
  intros Hc. unfold trim, trimStart. cbn [dropWhile]. rewrite Hc.
  destruct (trimEnd_cons_keep c r Hc) as (s' & ->). reflexivity.
Qed.

Lemma cleanGameNameForDisplay_head (n : option jsstring) :
  exists c r, cleanGameNameForDisplay n = c :: r /\ isWhiteSpace c = false.
Proof.
  unfold cleanGameNameForDisplay. destruct n as [s|].
  - destruct (truthy s).
    + unfold orElse.
      destruct (trim (collapseWhiteSpace
                        (stripSymbols (replaceVersion (replaceCopy (trim s))))))
        as [|c r] eqn:E.
      * cbn [truthy]. eexists _, _. split; reflexivity.
      * cbn [truthy]. exists c, r. split; [reflexivity|].
        apply (trim_head _ _ _ E).
    + eexists _, _. split; reflexivity.
  - eexists _, _. split; reflexivity.
Qed.

Lemma orElse_truthy (a b : jsstring) : truthy b = true -> truthy (orElse a b) = true.
Proof. intros H. unfold orElse. destruct (truthy a) eqn:E; assumption. Qed.

Lemma orDefault_truthy (x : option jsstring) (d : jsstring) :
  truthy d = true -> truthy (orDefault x d) = true.
Proof. intros H. destruct x; [apply orElse_truthy|]; exact H. Qed.

Lemma joinWith_cons sep (x : jsstring) (l : list jsstring) :
  joinWith sep (x :: l)
  = x ++ match l with [] => [] | _ :: _ => sep ++ joinWith sep l end.
Proof. destruct l; cbn [joinWith]; [rewrite app_nil_r|]; reflexivity. Qed.

Lemma joinWith_head sep c (r : jsstring) (l : list jsstring) :
  exists r', joinWith sep ((c :: r) :: l) = c :: r'.
Proof. rewrite joinWith_cons. eexists. reflexivity. Qed.

Lemma joinWith_truthy sep (x : jsstring) (l : list jsstring) :
  truthy x = true -> truthy (joinWith sep (x :: l)) = true.
Proof.
  destruct x as [|c r]; [discriminate|]. intros _.
  destruct (joinWith_head sep c r l) as (r' & ->). reflexivity.
Qed.

(** A text that is a list of lines, the first of which starts with a code
    unit that is not white space, does not trim to the empty text. *)
Lemma joined_lines_truthy (line : jsstring) (rest : list jsstring) c r :
  line = c :: r -> isWhiteSpace c = false ->
  truthy (trim (joinWith [10] (line :: rest))) = true.
Proof.
  intros -> Hc. destruct (joinWith_head [10] c r rest) as (r' & ->).
  apply trim_cons_keep. exact Hc.
Qed.

Lemma unescape_escape (s : jsstring) : unescapeQuotes (escapeQuotes s) = s.
Proof.
  induction s as [|c s IH]; [reflexivity|].
  unfold escapeQuotes in *. cbn [flat_map].
  destruct (Z.eqb_spec c 34) as [->|Hne].
  - cbn [app unescapeQuotes Z.eqb Pos.eqb]. rewrite IH. reflexivity.
  - cbn [app unescapeQuotes]. rewrite (proj2 (Z.eqb_neq c 34) Hne).
    rewrite IH. reflexivity.
Qed.

Lemma getDisplayHash_truthy (f : FileDetail (option jsstring)) :
  truthy (getDisplayHash f) = true.
Proof.
  unfold getDisplayHash. destruct (md5 f) as [m|]; cbn [truthyOpt default].
  - destruct (truthy m) eqn:Em; [exact Em|].
    destruct (sha1 f) as [s|]; cbn [truthyOpt default]; [|reflexivity].
    destruct (truthy s) eqn:Es; [exact Es | reflexivity].
  - destruct (sha1 f) as [s|]; cbn [truthyOpt default]; [|reflexivity].
    destruct (truthy s) eqn:Es; [exact Es | reflexivity].
Qed.

End ReportFacts.

Section MapSetFacts.

Context {V : Type} (key : V -> jsstring).

Implicit Types (m : list (jsstring * V)) (vs : list V).

Lemma mapSet_elem m k v k' v' :
  NoDup (map fst m) ->
  ((k', v') ∈ mapSet k v m <->
   (k' = k /\ v' = v) \/ (k' <> k /\ (k', v') ∈ m)).
Proof.
  induction m as [|[k0 v0] m IH]; intros Hnd.
  - cbn [mapSet]. rewrite list_elem_of_singleton. split.
    + intros [= -> ->]. left. auto.
    + intros [[-> ->]|[_ H]]; [reflexivity | inversion H].
  - cbn [map fst] in Hnd. apply NoDup_cons in Hnd as [Hk0 Hnd].
    cbn [mapSet]. destruct (decide (k0 = k)) as [->|Hne].
    + rewrite !elem_of_cons. split.
      * intros [[= -> ->]|H]; [left; auto|].
        right. split; [|right; exact H].
        intros ->. apply Hk0. apply list_elem_of_fmap. exists (k, v'). auto.
      * intros [[-> ->]|[Hk [[= -> ->]|H]]]; [left; reflexivity | congruence |].
        right. exact H.
    + rewrite !elem_of_cons, (IH Hnd). split.
      * intros [[= -> ->]|[[-> ->]|[Hk H]]].
        -- right. split; [exact Hne | left; reflexivity].
        -- left. auto.
        -- right. split; [exact Hk | right; exact H].
      * intros [[-> ->]|[Hk [[= -> ->]|H]]].
        -- right. left. auto.
        -- left. reflexivity.
        -- right. right. auto.
Qed.

Lemma mapSet_keys m k v :
  map fst (mapSet k v m)
  = if bool_decide (k ∈ map fst m) then map fst m else map fst m ++ [k].
Proof.
  induction m as [|[k0 v0] m IH].
  - cbn. rewrite bool_decide_eq_false_2; [reflexivity | intros H; inversion H].
  - cbn [mapSet map fst]. destruct (decide (k0 = k)) as [->|Hne].
    + rewrite bool_decide_eq_true_2 by left. reflexivity.
    + cbn [map fst]. rewrite IH.
      destruct (bool_decide (k ∈ map fst m)) eqn:E.
      * apply bool_decide_eq_true in E.
        rewrite bool_decide_eq_true_2 by (right; exact E). reflexivity.
      * apply bool_decide_eq_false in E.
        rewrite bool_decide_eq_false_2; [reflexivity|].
        intros H. apply elem_of_cons in H as [H|H]; [congruence | contradiction].
Qed.

Lemma mapSet_NoDup m k v : NoDup (map fst m) -> NoDup (map fst (mapSet k v m)).
Proof.
  intros H. rewrite mapSet_keys. destruct (bool_decide (k ∈ map fst m)) eqn:E;
    [exact H|].
  apply bool_decide_eq_false in E. apply NoDup_app. split; [exact H|]. split.
  - intros x Hx Hx'. apply list_elem_of_singleton in Hx' as ->. contradiction.
  - apply NoDup_singleton.
Qed.

Lemma mapSet_fresh m k v : k ∉ map fst m -> mapSet k v m = m ++ [(k, v)].
Proof.
  induction m as [|[k0 v0] m IH]; intros H; [reflexivity|].
  cbn [map fst] in H. apply not_elem_of_cons in H as [Hne H].
  cbn [mapSet]. destruct (decide (k0 = k)); [congruence|].
  rewrite (IH H). reflexivity.
Qed.

Lemma keyed_snoc vs v :
  keyed key (vs ++ [v]) = mapSet (key v) v (keyed key vs).
Proof. unfold keyed. rewrite foldl_app. reflexivity. Qed.

Lemma keyed_spec vs :
  NoDup (map fst (keyed key vs))
  /\ forall k v,
       (k, v) ∈ keyed key vs <->
       exists l1 l2, vs = l1 ++ v :: l2 /\ key v = k /\ k ∉ map key l2.
Proof.
  induction vs as [|x vs [Hnd IH]] using rev_ind.
  - split; [constructor|]. intros k v. split.
    + intros H. inversion H.
    + intros (l1 & l2 & E & _). destruct l1; discriminate E.
  - rewrite keyed_snoc. split; [apply mapSet_NoDup; exact Hnd|].
    intros k v. rewrite (mapSet_elem _ _ _ _ _ Hnd), IH. split.
    + intros [[-> ->]|[Hk (l1 & l2 & -> & Ek & Hn)]].
      * exists vs, []. split; [reflexivity|]. split; [reflexivity|].
        intros H. inversion H.
      * exists l1, (l2 ++ [x]). split; [rewrite <- app_assoc; reflexivity|].
        split; [exact Ek|]. rewrite map_app. intros H.
        apply elem_of_app in H as [H|H]; [contradiction|].
        cbn in H. apply list_elem_of_singleton in H. congruence.
    + intros (l1 & l2 & E & Ek & Hn).
      destruct l2 as [|y l2 _] using rev_ind.
      * apply app_inj_tail in E as [-> ->]. left. auto.
      * rewrite app_comm_cons, app_assoc in E.
        apply app_inj_tail in E as [-> ->]. right.
        rewrite map_app in Hn. split.
        -- intros E'. apply Hn. apply elem_of_app. right. cbn.
           rewrite E'. left.
        -- exists l1, l2. split; [reflexivity|]. split; [exact Ek|].
           intros H. apply Hn. apply elem_of_app. left. exact H.
Qed.

Lemma keyed_keys vs : map key (map snd (keyed key vs)) = map fst (keyed key vs).
Proof.
  destruct (keyed_spec vs) as [_ H].
  assert (Hall : Forall (fun p => key p.2 = p.1) (keyed key vs)).
  { apply Forall_forall. intros [k v] Hin. apply H in Hin as (_ & _ & _ & E & _).
    exact E. }
  clear H. induction Hall as [|[k v] m Hk _ IH]; [reflexivity|].
  cbn [map fst snd] in *. rewrite Hk, IH. reflexivity.
Qed.

Lemma keyed_NoDup vs : NoDup (map key vs) -> keyed key vs = map (fun v => (key v, v)) vs.
Proof.
  induction vs as [|x vs IH] using rev_ind; intros H; [reflexivity|].
  rewrite map_app in H. apply NoDup_app in H as (H1 & H2 & _).
  rewrite keyed_snoc, (IH H1), map_app. apply mapSet_fresh.
  rewrite map_map. cbn [fst]. intros Hin. apply (H2 (key x) Hin). cbn. left.
Qed.

End MapSetFacts.

Section CopyFacts.

Variable gameProviderMap : GameProviderMap.

Implicit Types (data : list (ProcessedFileData (option jsstring)))
  (fileEntry : ProcessedFileData (option jsstring))
  (instance : GameInstanceData (option jsstring)).

Lemma flat_map_nil {A B} (g : A -> list B) (l : list A) :
  flat_map g l = [] <-> Forall (fun x => g x = []) l.
Proof.
  induction l as [|x l IH]; cbn [flat_map].
  - split; [constructor | reflexivity].
  - split.
    + intros H. apply app_eq_nil in H as [H1 H2]. constructor; [exact H1|].
      apply IH. exact H2.
    + intros H. apply Forall_cons in H as [H1 H2]. rewrite H1.
      apply IH. exact H2.
Qed.

Lemma flat_map_Forall {A B} (g : A -> list B) (P : B -> Prop) (l : list A) :
  (forall x, x ∈ l -> Forall P (g x)) -> Forall P (flat_map g l).
Proof.
  induction l as [|x l IH]; intros H; cbn [flat_map]; [constructor|].
  apply Forall_app. split; [apply H; left|].
  apply IH. intros y Hy. apply H. right. exact Hy.
Qed.

Lemma clipboardRow_head codes fileEntry instance :
  exists c r, clipboardRow gameProviderMap codes fileEntry instance = c :: r
              /\ isWhiteSpace c = false.
Proof.
  unfold clipboardRow.
  destruct (cleanGameNameForDisplay_head (gameName instance))
    as (c & r & -> & Hc).
  destruct (joinWith_head [9] c r
              [orDefault (codes !! normalizeGameName (gameName instance))
                 notAvailable; [];
               orDefault (pfReportNumber fileEntry) notAvailable;
               portalDateOf gameProviderMap fileEntry
                 (normalizeGameName (gameName instance)); []; [];
               formatListForClipboard (map name (files instance));
               formatListForClipboard (map getDisplayHash (files instance))])
    as (r' & E).
  exists c, r'. split; [exact E | exact Hc].
Qed.

Lemma tableRows_heads data :
  Forall (fun row => exists c r, row = c :: r /\ isWhiteSpace c = false)
    (tableRows gameProviderMap data).
Proof.
  unfold tableRows. apply flat_map_Forall. intros f _.
  destruct (decide (status f = st_completed)); [|constructor].
  destruct (0 <? length (extractedInstances f))%nat.
  - apply Forall_forall. intros row Hrow.
    apply list_elem_of_fmap in Hrow as (i & -> & _). apply clipboardRow_head.
  - constructor; [|constructor]. eexists _, _. split; reflexivity.
Qed.

Lemma tableRows_nil data :
  tableRows gameProviderMap data = []
  <-> Forall (fun f => status f <> st_completed) data.
Proof.
  unfold tableRows. rewrite flat_map_nil. apply Forall_iff. intros f.
  destruct (decide (status f = st_completed)) as [E|E].
  - destruct (extractedInstances f) as [|i l]; cbn; split;
      try discriminate; intros H; contradiction.
  - split; [intros _; exact E | reflexivity].
Qed.

Lemma comRow_cells codes fileEntry instance :
  let row := comRow gameProviderMap codes fileEntry instance in
  (exists c r, comGameName row = c :: r /\ isWhiteSpace c = false)
  /\ truthy (comGameCode row) = true
  /\ truthy (certificateNumber row) = true
  /\ truthy (comPortalLiveDate row) = true.
Proof.
  cbn. split; [apply cleanGameNameForDisplay_head|].
  split; [|split]; apply orDefault_truthy; reflexivity.
Qed.

Lemma comDataRows_cells data :
  Forall (fun row =>
            (exists c r, comGameName row = c :: r /\ isWhiteSpace c = false)
            /\ truthy (comGameCode row) = true
            /\ truthy (certificateNumber row) = true
            /\ truthy (comPortalLiveDate row) = true)
    (comDataRows gameProviderMap data).
Proof.
  unfold comDataRows. apply flat_map_Forall. intros f _.
  destruct (decide (status f = st_completed)); [|constructor].
  apply Forall_forall. intros row Hrow.
  apply list_elem_of_fmap in Hrow as (i & -> & _). apply comRow_cells.
Qed.

Lemma comDataRows_nil data :
  comDataRows gameProviderMap data = []
  <-> Forall (fun f => status f <> st_completed) data.
Proof.
  unfold comDataRows. rewrite flat_map_nil. apply Forall_iff. intros f.
  destruct (decide (status f = st_completed)) as [E|E].
  - destruct (extractedInstances f) as [|i l]; cbn; split;
      try discriminate; intros H; contradiction.
  - split; [intros _; exact E | reflexivity].
Qed.

Lemma uniqueRows_elem (rows : list ComRow) (r : ComRow) :
  r ∈ uniqueRows rows <->
  exists l1 l2, rows = l1 ++ r :: l2
                /\ comGameName r ∉ map comGameName l2.
Proof.
  unfold uniqueRows. change (uniqueComDataMap rows) with (keyed comGameName rows).
  destruct (keyed_spec comGameName rows) as [_ H]. split.
  - intros Hin. apply list_elem_of_fmap in Hin as ([k v] & -> & Hin).
    apply H in Hin as (l1 & l2 & E & Ek & Hn). cbn [snd].
    exists l1, l2. split; [exact E|]. rewrite Ek. exact Hn.
  - intros (l1 & l2 & E & Hn). apply list_elem_of_fmap.
    exists (comGameName r, r). split; [reflexivity|]. apply H.
    exists l1, l2. auto.
Qed.

Lemma uniqueRows_nil (rows : list ComRow) : uniqueRows rows = [] <-> rows = [].
Proof.
  split; [|intros ->; reflexivity].
  intros H. destruct rows as [|x rows _] using rev_ind; [reflexivity|].
  assert (Hin : x ∈ uniqueRows (rows ++ [x])).
  { apply uniqueRows_elem. exists rows, []. split; [reflexivity|].
    intros Hx. inversion Hx. }
  rewrite H in Hin. inversion Hin.
Qed.

End CopyFacts.

(** X18: each of the two copies of the report is refused, with an alert
    and nothing written to the clipboard, exactly when the report has no
    completed file; a single completed file, with or without instances, is
    enough for a copy. *)
Theorem copy_is_refused_iff_nothing_completed
    (gameProviderMap : GameProviderMap)
    (data : list (ProcessedFileData (option jsstring))) :
  (copyToClipboard gameProviderMap data = None
   <-> Forall (fun f => status f <> st_completed) data)
  /\ (copyForComProcess gameProviderMap data = None
      <-> Forall (fun f => status f <> st_completed) data).
Proof.
  split.
  - rewrite <- (tableRows_nil gameProviderMap). unfold copyToClipboard.
    pose proof (tableRows_heads gameProviderMap data) as Hh.
    destruct (tableRows gameProviderMap data) as [|row rest].
    + split; reflexivity.
    + apply Forall_cons in Hh as [(c & r & E & Hc) _].
      rewrite (joined_lines_truthy row rest c r E Hc). cbn [negb].
      split; discriminate.
  - rewrite <- (comDataRows_nil gameProviderMap), <- uniqueRows_nil.
    unfold copyForComProcess.
    pose proof (comDataRows_cells gameProviderMap data) as Hc.
    destruct (uniqueRows (comDataRows gameProviderMap data)) as [|row rest] eqn:E.
    + split; reflexivity.
    + assert (Hin : row ∈ comDataRows gameProviderMap data).
      { assert (Hr : row ∈ uniqueRows (comDataRows gameProviderMap data))
          by (rewrite E; left).
        apply uniqueRows_elem in Hr as (l1 & l2 & -> & _).
        apply elem_of_app. right. left. }
      rewrite Forall_forall in Hc. destruct (Hc row Hin) as ((c & r & En & Hw) & _).
      cbn [map]. 
      assert (El : exists r', comLine row = c :: r').
      { unfold comLine. rewrite En. apply joinWith_head. }
      destruct El as (r' & El).
      rewrite (joined_lines_truthy (comLine row) (map comLine rest) c r' El Hw).
      cbn [negb]. split; discriminate.
Qed.

Lemma copy_is_refused_iff_nothing_completed_witness :
  copyToClipboard twoProviders
    [mkProcessedFileData (str "f1") (str "f1") st_error None None None None []]
  = None.
Proof.
  apply (proj2 (proj1 (copy_is_refused_iff_nothing_completed twoProviders
                  [mkProcessedFileData (str "f1") (str "f1") st_error
                     None None None None []]))).
  constructor; [discriminate | constructor].
Defined.

(** X19: the copy for the .COM process lists each displayed game name
    once.  Of the rows pushed with the same displayed name only the last
    one is kept, so a game that appears in several certificates is listed
    with the certificate number of the last of them; when all displayed
    names differ, no row is dropped and the order is kept. *)
Theorem com_copy_keeps_last_row_per_name (gameProviderMap : GameProviderMap)
    (data : list (ProcessedFileData (option jsstring))) :
  let rows := comDataRows gameProviderMap data in
  NoDup (map comGameName (uniqueRows rows))
  /\ (forall r,
        r ∈ uniqueRows rows <->
        exists l1 l2, rows = l1 ++ r :: l2
                      /\ comGameName r ∉ map comGameName l2)
  /\ (NoDup (map comGameName rows) -> uniqueRows rows = rows).
Proof.
  intros rows. split; [|split].
  - unfold uniqueRows.
    change (uniqueComDataMap rows) with (keyed comGameName rows).
    rewrite keyed_keys. apply (keyed_spec comGameName rows).
  - apply uniqueRows_elem.
  - intros H. unfold uniqueRows.
    change (uniqueComDataMap rows) with (keyed comGameName rows).
    rewrite (keyed_NoDup comGameName rows H), map_map. cbn [snd].
    apply map_id.
Qed.

Lemma com_copy_keeps_last_row_per_name_witness :
  uniqueRows
    (comDataRows twoProviders
       [mkProcessedFileData (str "f1") (str "f1") st_completed None
          (Some (str "R1")) None None [instanceOf (Some (str "Alpha")) None];
        mkProcessedFileData (str "f2") (str "f2") st_completed None
          (Some (str "R2")) None None [instanceOf (Some (str "Beta")) None]])
  = comDataRows twoProviders
      [mkProcessedFileData (str "f1") (str "f1") st_completed None
         (Some (str "R1")) None None [instanceOf (Some (str "Alpha")) None];
       mkProcessedFileData (str "f2") (str "f2") st_completed None
         (Some (str "R2")) None None [instanceOf (Some (str "Beta")) None]].
Proof.
  apply (proj2 (proj2 (com_copy_keeps_last_row_per_name twoProviders
           [mkProcessedFileData (str "f1") (str "f1") st_completed None
              (Some (str "R1")) None None [instanceOf (Some (str "Alpha")) None];
            mkProcessedFileData (str "f2") (str "f2") st_completed None
              (Some (str "R2")) None None
              [instanceOf (Some (str "Beta")) None]]))).
  vm_compute. repeat constructor.
  - intros H. repeat (apply elem_of_cons in H as [H|H]; [discriminate H|]).
    inversion H.
  - intros H. inversion H.
Defined.

Example com_copy_two_certificates :
  map certificateNumber
    (uniqueRows
       (comDataRows twoProviders
          [mkProcessedFileData (str "f1") (str "f1") st_completed None
             (Some (str "R1")) None None [instanceOf (Some (str "Alpha")) None];
           mkProcessedFileData (str "f2") (str "f2") st_completed None
             (Some (str "R2")) None None
             [instanceOf (Some (str "alpha (copy)")) None]]))
  = [str "R1"; str "R2"]
  /\ map certificateNumber
       (uniqueRows
          (comDataRows twoProviders
             [mkProcessedFileData (str "f1") (str "f1") st_completed None
                (Some (str "R1")) None None
                [instanceOf (Some (str "Alpha")) None];
              mkProcessedFileData (str "f2") (str "f2") st_completed None
                (Some (str "R2")) None None
                [instanceOf (Some (str "Alpha (copy)")) None]]))
     = [str "R2"].
Proof. split; vm_compute; reflexivity. Qed.

(** X20: no cell of the copy for the .COM process is empty: in every row
    pushed for a completed file the displayed name, the code, the
    certificate number and the date are texts that are not empty, the
    missing ones being written N/A, and the displayed name does not start
    with white space. *)
Theorem com_rows_have_no_empty_cell (gameProviderMap : GameProviderMap)
    (data : list (ProcessedFileData (option jsstring))) (row : ComRow) :
  row ∈ uniqueRows (comDataRows gameProviderMap data) ->
  row ∈ comDataRows gameProviderMap data
  /\ (exists c r, comGameName row = c :: r /\ isWhiteSpace c = false)
  /\ truthy (comGameCode row) = true
  /\ truthy (certificateNumber row) = true
  /\ truthy (comPortalLiveDate row) = true.
Proof.
  intros H. apply uniqueRows_elem in H as (l1 & l2 & E & _).
  assert (Hin : row ∈ comDataRows gameProviderMap data).
  { rewrite E. apply elem_of_app. right. left. }
  split; [exact Hin|].
  pose proof (comDataRows_cells gameProviderMap data) as Hc.
  rewrite Forall_forall in Hc. apply Hc. exact Hin.
Qed.

Lemma com_rows_have_no_empty_cell_witness :
  truthy (comGameCode (mkComRow (str "N/A") (str "N/A") (str "N/A") (str "N/A")))
  = true.
Proof.
  apply (com_rows_have_no_empty_cell twoProviders
           [completedFile (str "f1") []]
           (mkComRow (str "N/A") (str "N/A") (str "N/A") (str "N/A"))).
  vm_compute. left.
Defined.

(** X21: a list cell of the full copy reads back: when no item is left
    after the empty ones are dropped the cell is N/A; otherwise it is a
    text between two quotation marks in which every quotation mark of the
    items is doubled, so that undoubling gives back the items joined by a
    comma and a space.  A hash is never empty, so the hash cell has one
    item per file, while the name cell drops the files without a name. *)
Theorem list_cell_reads_back (items : list jsstring) :
  let kept := filter (fun s => truthy s = true) items in
  (kept = [] -> formatListForClipboard items = notAvailable)
  /\ (kept <> [] ->
      exists body,
        formatListForClipboard items = [34] ++ body ++ [34]
        /\ unescapeQuotes body = joinWith (str ", ") kept)
  /\ (forall fs : list (FileDetail (option jsstring)),
        filter (fun s => truthy s = true) (map getDisplayHash fs)
        = map getDisplayHash fs).
Proof.
  intros kept. split; [|split].
  - intros E. unfold formatListForClipboard. fold kept. rewrite E.
    destruct (length items =? 0)%nat; reflexivity.
  - intros Hne. unfold formatListForClipboard. fold kept.
    destruct items as [|x items]; [contradiction Hne; reflexivity|].
    cbn [length Nat.eqb].
    destruct kept as [|k ks] eqn:Ek; [contradiction Hne; reflexivity|].
    assert (Hk : truthy k = true).
    { assert (Hin : k ∈ kept) by (rewrite Ek; left).
      apply (list_elem_of_filter (fun s => truthy s = true)) in Hin as [Hk _].
      exact Hk. }
    rewrite (joinWith_truthy (str ", ") k ks Hk). cbn [negb].
    eexists. split; [reflexivity|]. apply unescape_escape.
  - intros fs. induction fs as [|f fs IH]; [reflexivity|].
    cbn [map]. rewrite filter_cons.
    destruct (decide (truthy (getDisplayHash f) = true)) as [_|Hn].
    + rewrite IH. reflexivity.
    + contradiction Hn. apply getDisplayHash_truthy.
Qed.

Lemma list_cell_reads_back_witness :
  exists body,
    formatListForClipboard [str "a.dll"; []; [34; 98; 34]]
    = [34] ++ body ++ [34]
    /\ unescapeQuotes body
       = joinWith (str ", ")
           (filter (fun s => truthy s = true) [str "a.dll"; []; [34; 98; 34]]).
Proof.
  apply (proj1 (proj2 (list_cell_reads_back [str "a.dll"; []; [34; 98; 34]]))).
  vm_compute. discriminate.
Defined.

(* ===================================================================== *)
(** * The file store across the handlers *)
(* ===================================================================== *)

Section StoreFacts.

Variable ext : Externals.
Variable apiKey : jsstring.
Variable originalFilesMap : gmap jsstring File.

Lemma tryProcess_Ok_stored i w d w' :
  tryProcess ext apiKey originalFilesMap i w = (Ok d, w') ->
  is_Some (originalFilesMap !! i).
Proof.
  unfold tryProcess. destruct (originalFilesMap !! i); [eauto|].
  intros [=].
Qed.

Lemma processFile_bytesKept st cur :
  bytesKept originalFilesMap st.1 ->
  bytesKept originalFilesMap (processFile ext apiKey originalFilesMap st cur).1.
Proof.
  destruct st as [fs w]. cbn [fst]. intros H. rewrite processFile_outcome.
  destruct (tryProcess ext apiKey originalFilesMap (id cur)
              (emit (EvStatus (id cur) st_processing) w)) as [r w1] eqn:E.
  cbn [fst]. intros f Hf Hs. unfold updateById in Hf.
  apply list_elem_of_fmap in Hf as (f0 & -> & Hf0).
  destruct (decide (id f0 = id cur)) as [Ei|Ei]; [|apply H; assumption].
  destruct r as [d|e]; [|discriminate Hs].
  cbn [applyOutcome withExtracted withStatus id]. rewrite Ei.
  apply (tryProcess_Ok_stored _ _ _ _ E).
Qed.

Lemma batch_bytesKept snap st :
  bytesKept originalFilesMap st.1 ->
  bytesKept originalFilesMap
    (foldl (processFile ext apiKey originalFilesMap) st snap).1.
Proof.
  revert st. induction snap as [|cur snap IH]; intros st H; [exact H|].
  cbn [foldl]. apply IH. apply processFile_bytesKept. exact H.
Qed.

End StoreFacts.

(** X22: completed entries never lose their file: if every completed
    entry has its uploaded file in the file store, this still holds after
    an upload, after a batch run and after clearing; a batch run marks an
    entry completed only when its file was found in the store. *)
Theorem completed_files_keep_their_bytes (ext : Externals)
    (now : nat -> jsstring) (isBatchProcessing isZipping : bool)
    (apiKey : jsstring) (processedFiles : list (ProcessedFileData json))
    (originalFilesMap : gmap jsstring File) (files : list File) (w : World) :
  bytesKept originalFilesMap processedFiles ->
  bytesKept (handleFilesSelected now processedFiles originalFilesMap files).2
    (handleFilesSelected now processedFiles originalFilesMap files).1
  /\ bytesKept originalFilesMap
       (handleStartProcessing ext isBatchProcessing isZipping apiKey
          processedFiles originalFilesMap w).1
  /\ bytesKept
       (handleClearAllData isBatchProcessing isZipping processedFiles
          originalFilesMap).2
       (handleClearAllData isBatchProcessing isZipping processedFiles
          originalFilesMap).1.
Proof.
  intros H. split; [|split].
  - unfold handleFilesSelected.
    destruct (upload_loop now files 0 [] originalFilesMap)
      as (m' & -> & Hkeep & Hin).
    cbn [fst snd app]. intros f Hf Hs.
    apply elem_of_app in Hf as [Hf|Hf]; [apply Hkeep, H; assumption|].
    apply Hin. exact Hf.
  - unfold handleStartProcessing.
    destruct (isBatchProcessing || isZipping); [exact H|].
    destruct (negb (truthy apiKey)).
    + cbn [fst]. intros f Hf Hs.
      apply list_elem_of_fmap in Hf as (f0 & -> & Hf0).
      destruct (isQueued f0); [discriminate Hs|]. apply H; assumption.
    + destruct (length (filter (fun f => isQueued f = true) processedFiles) =? 0)%nat;
        [exact H|].
      apply batch_bytesKept. exact H.
  - unfold handleClearAllData.
    destruct (isBatchProcessing || isZipping); [exact H|].
    intros f Hf. inversion Hf.
Qed.

Lemma completed_files_keep_their_bytes_witness :
  bytesKept {[ str "a" := pdfFile (str "a") ]}
    (handleStartProcessing
       (sampleExternals (constantParser sampleReport)
          (fun _ => Responded (str "report")))
       false false (str "key")
       [queuedFile (str "a"); queuedFile (str "b")]
       {[ str "a" := pdfFile (str "a") ]} (mkWorld 0 [])).1.
Proof.
  apply (proj1 (proj2 (completed_files_keep_their_bytes
                  (sampleExternals (constantParser sampleReport)
          (fun _ => Responded (str "report")))
                  (fun _ => str "0") false false (str "key")
                  [queuedFile (str "a"); queuedFile (str "b")]
                  {[ str "a" := pdfFile (str "a") ]} [] (mkWorld 0 [])
                  ltac:(intros f Hf Hs;
                        repeat (apply elem_of_cons in Hf as [->|Hf];
                                [discriminate Hs|]);
                        inversion Hf)))).
Defined.

(* ===================================================================== *)
(** * The provider shown in the report and the folder of the export *)
(* ===================================================================== *)

Section ProviderFacts.

Lemma normalizeGameName_truthy_inv (s : jsstring) :
  truthy (normalizeGameName (Some s)) = true ->
  truthy s = true /\ truthy (trim s) = true.
Proof.
  unfold normalizeGameName. destruct (truthy s); [|discriminate].
  destruct (trim s) as [|c r]; [discriminate|]. auto.
Qed.

Lemma loader_no_empty_key (excelData : jsstring) :
  (handleParseData excelData).1 !! ([] : jsstring) = None.
Proof.
  destruct ((handleParseData excelData).1 !! ([] : jsstring)) as [info|] eqn:E;
    [|reflexivity].
  destruct (loader_entry _ _ _ E) as (_ & Hk & _). discriminate Hk.
Qed.

Lemma endsWith_truthy (s pat : jsstring) :
  truthy pat = true -> endsWith s pat = true -> truthy s = true.
Proof.
  destruct s as [|c s]; [|reflexivity]. intros Hp H. exfalso.
  unfold endsWith in H. cbn [rev] in H.
  destruct (rev pat) as [|q qs] eqn:E.
  - apply (f_equal (@rev Z)) in E. rewrite rev_involutive in E. subst pat.
    discriminate Hp.
  - cbn in H. discriminate H.
Qed.

Lemma orElse_trim_fixed (p d : jsstring) :
  trim d = d -> trim (orElse (trim p) d) = orElse (trim p) d.
Proof.
  intros Hd. unfold orElse. destruct (truthy (trim p)); [apply trim_idem|exact Hd].
Qed.

End ProviderFacts.

(** X23: for a provider table that came from the loader, the provider
    shown for a game name is the provider of the entry under the name's
    key, and N/A when there is no such entry; the guards on the name and
    on the size of the table change nothing. *)
Theorem shown_provider_for_loaded_table (excelData : jsstring)
    (gameName : option jsstring) :
  getGameProvider (handleParseData excelData).1 gameName
  = match (handleParseData excelData).1 !! normalizeGameName gameName with
    | Some info => provider info
    | None => notAvailable
    end.
Proof.
  unfold getGameProvider. destruct gameName as [g|].
  - destruct (truthy (normalizeGameName (Some g))) eqn:Ek.
    + destruct (normalizeGameName_truthy_inv g Ek) as [-> ->]. cbn [negb orb].
      destruct ((handleParseData excelData).1 !! normalizeGameName (Some g))
        as [info|] eqn:E.
      * destruct (size (handleParseData excelData).1 =? 0)%nat eqn:Es.
        -- apply Nat.eqb_eq, map_size_empty_iff in Es. rewrite Es in E.
           rewrite lookup_empty in E. discriminate E.
        -- cbn. destruct (loader_entry _ _ _ E) as (_ & _ & Hp & _).
           unfold orElse. rewrite Hp. reflexivity.
      * destruct (size (handleParseData excelData).1 =? 0)%nat; reflexivity.
    + assert (E0 : normalizeGameName (Some g) = []).
      { destruct (normalizeGameName (Some g)); [reflexivity | discriminate Ek]. }
      rewrite E0, loader_no_empty_key.
      destruct (negb (truthy g) || negb (truthy (trim g))
                || (size (handleParseData excelData).1 =? 0)%nat);
        reflexivity.
  - cbn [normalizeGameName]. rewrite loader_no_empty_key. reflexivity.
Qed.

(** X24: the folder of an instance is never empty and is trimmed.  A
    provider name of the table that is not empty decides the folder,
    whatever the game code; without one the folder is Games Global for a
    code that ends with _mcg, Pragmatic for a code that ends with _prg, and
    Uncategorized otherwise. *)
Theorem folder_name_rules (gameProviderMap : GameProviderMap)
    (i : GameInstanceData (option jsstring)) :
  truthy (folderNameOf gameProviderMap i) = true
  /\ trim (folderNameOf gameProviderMap i) = folderNameOf gameProviderMap i
  /\ (forall info,
        gameProviderMap !! normalizeGameName (gameName i) = Some info ->
        truthy (provider info) = true ->
        folderNameOf gameProviderMap i
        = orElse (trim (provider info)) uncategorized)
  /\ (truthyOpt (provider <$> gameProviderMap !! normalizeGameName (gameName i))
      = false ->
      folderNameOf gameProviderMap i
      = match gameCode i with
        | Some gc =>
            if endsWith gc (str "_mcg") then str "Games Global"
            else if endsWith gc (str "_prg") then str "Pragmatic"
            else uncategorized
        | None => uncategorized
        end).
Proof.
  assert (Hlast :
    truthyOpt (provider <$> gameProviderMap !! normalizeGameName (gameName i))
    = false ->
    folderNameOf gameProviderMap i
    = match gameCode i with
      | Some gc =>
          if endsWith gc (str "_mcg") then str "Games Global"
          else if endsWith gc (str "_prg") then str "Pragmatic"
          else uncategorized
      | None => uncategorized
      end).
  { intros H. unfold folderNameOf. rewrite H.
    assert (Hu : match provider <$> gameProviderMap
                                    !! normalizeGameName (gameName i) with
                 | Some p => orElse (trim p) uncategorized
                 | None => uncategorized
                 end = uncategorized).
    { destruct (provider <$> gameProviderMap !! normalizeGameName (gameName i))
        as [p|]; [|reflexivity].
      cbn [truthyOpt] in H. destruct p; [reflexivity | discriminate H]. }
    destruct (gameCode i) as [gc|]; [|exact Hu].
    destruct (endsWith gc (str "_mcg")) eqn:E1.
    - rewrite (endsWith_truthy gc (str "_mcg") eq_refl E1). reflexivity.
    - destruct (endsWith gc (str "_prg")) eqn:E2.
      + rewrite (endsWith_truthy gc (str "_prg") eq_refl E2). reflexivity.
      + destruct (truthy gc); exact Hu. }
  assert (Hfirst : forall info,
    gameProviderMap !! normalizeGameName (gameName i) = Some info ->
    truthy (provider info) = true ->
    folderNameOf gameProviderMap i = orElse (trim (provider info)) uncategorized).
  { intros info E Hp. unfold folderNameOf. rewrite E.
    cbn [fmap option_fmap option_map truthyOpt]. rewrite Hp. reflexivity. }
  assert (Hshape :
    truthy (folderNameOf gameProviderMap i) = true
    /\ trim (folderNameOf gameProviderMap i) = folderNameOf gameProviderMap i).
  { destruct (truthyOpt (provider <$> gameProviderMap
                                      !! normalizeGameName (gameName i))) eqn:E.
    - destruct (gameProviderMap !! normalizeGameName (gameName i)) as [info|] eqn:El;
        [|discriminate E].
      cbn [fmap option_fmap option_map truthyOpt] in E.
      rewrite (Hfirst info eq_refl E). split.
      + apply orElse_truthy. reflexivity.
      + apply orElse_trim_fixed. reflexivity.
    - rewrite (Hlast eq_refl).
      destruct (gameCode i) as [gc|]; [|split; reflexivity].
      destruct (endsWith gc (str "_mcg")); [split; reflexivity|].
      destruct (endsWith gc (str "_prg")); split; reflexivity. }
  destruct Hshape as [H1 H2]. repeat split; assumption.
Qed.

Lemma folder_name_rules_witness :
  folderNameOf twoProviders (instanceOf (Some (str "Alpha")) (Some (str "a_mcg")))
  = orElse (trim (str "Acme")) uncategorized
  /\ folderNameOf twoProviders
       (instanceOf (Some (str "Gamma")) (Some (str "g_prg")))
     = str "Pragmatic".
Proof.
  split.
  - apply (proj1 (proj2 (proj2 (folder_name_rules twoProviders
             (instanceOf (Some (str "Alpha")) (Some (str "a_mcg"))))))
             (mkProviderInfo (str "Acme") None (Some (str "A")))).
    + vm_compute. reflexivity.
    + reflexivity.
  - apply (proj2 (proj2 (proj2 (folder_name_rules twoProviders
             (instanceOf (Some (str "Gamma")) (Some (str "g_prg"))))))).
    vm_compute. reflexivity.
Defined.

(* ===================================================================== *)
(** * The outcome of the export and the calls it makes on the archive *)
(* ===================================================================== *)

Section ArchiveFacts.

Variable gameProviderMap : GameProviderMap.
Variable originalFilesMap : gmap jsstring File.

Implicit Types (fs : list (ProcessedFileData (option jsstring)))
  (pf : ProcessedFileData (option jsstring)).

Lemma isCompleted_true pf : isCompleted pf = true <-> status pf = st_completed.
Proof. unfold isCompleted. apply bool_decide_eq_true. Qed.

Lemma filter_completed_nil fs :
  filter (fun f => isCompleted f = true) fs = []
  <-> Forall (fun f => status f <> st_completed) fs.
Proof.
  induction fs as [|f fs IH]; [split; [constructor | reflexivity]|].
  rewrite filter_cons, Forall_cons, <- IH.
  destruct (decide (isCompleted f = true)) as [E|E].
  - split; [discriminate|]. intros [H _]. apply isCompleted_true in E.
    contradiction.
  - split; [|intros [_ H]; exact H]. intros H. split; [|exact H].
    intros Hs. apply E, isCompleted_true. exact Hs.
Qed.

Lemma filter_exportable_nil fs :
  filter (fun f => exportable originalFilesMap f = true) fs = []
  <-> Forall (fun f => status f = st_completed ->
                       originalFilesMap !! id f = None) fs.
Proof.
  induction fs as [|f fs IH]; [split; [constructor | reflexivity]|].
  rewrite filter_cons, Forall_cons, <- IH. unfold exportable at 1.
  destruct (decide (isCompleted f
                    && bool_decide (is_Some (originalFilesMap !! id f)) = true))
    as [E|E].
  - split; [discriminate|]. intros [H _].
    apply andb_true_iff in E as [E1 E2]. apply isCompleted_true in E1.
    apply bool_decide_eq_true in E2. rewrite (H E1) in E2.
    destruct E2 as [? [=]].
  - split; [|intros [_ H]; exact H]. intros H. split; [|exact H].
    intros Hs. destruct (originalFilesMap !! id f) as [o|] eqn:El; [|reflexivity].
    exfalso. apply E. apply andb_true_iff. split.
    + apply isCompleted_true. exact Hs.
    + apply bool_decide_eq_true. eauto.
Qed.

Lemma length_exportable_le fs :
  (length (filter (fun f => exportable originalFilesMap f = true) fs)
   <= length (flat_map (placements gameProviderMap originalFilesMap)
                (filter (fun f => isCompleted f = true) fs)))%nat.
Proof.
  induction fs as [|f fs IH]; [reflexivity|].
  rewrite !filter_cons.
  destruct (decide (exportable originalFilesMap f = true)) as [Ex|Ex];
    destruct (decide (isCompleted f = true)) as [E|E].
  - cbn [flat_map length]. rewrite length_app.
    unfold exportable in Ex. apply andb_true_iff in Ex as [_ Ex].
    apply bool_decide_eq_true in Ex. destruct Ex as [o Ho].
    unfold placements at 1. rewrite Ho.
    pose proof (placedFolders_nonempty gameProviderMap (extractedInstances f))
      as Hne.
    destruct (placedFolders gameProviderMap (extractedInstances f));
      [congruence|]. cbn [map length]. lia.
  - unfold exportable in Ex. apply andb_true_iff in Ex as [Ex _]. contradiction.
  - cbn [flat_map]. rewrite length_app. lia.
  - exact IH.
Qed.

Lemma folder_of_option (providerName : option jsstring) :
  let f := match providerName with
           | Some p => orElse (trim p) uncategorized
           | None => uncategorized
           end in
  truthy f = true /\ trim f = f.
Proof.
  destruct providerName as [p|]; cbn zeta; [|split; reflexivity]. split.
  - apply orElse_truthy. reflexivity.
  - apply orElse_trim_fixed. reflexivity.
Qed.

Lemma folderNameOf_shape (i : GameInstanceData (option jsstring)) :
  truthy (folderNameOf gameProviderMap i) = true
  /\ trim (folderNameOf gameProviderMap i) = folderNameOf gameProviderMap i.
Proof. unfold folderNameOf. apply folder_of_option. Qed.

Lemma placements_elem pf (e : ZipEntry) :
  e ∈ placements gameProviderMap originalFilesMap pf <->
  exists o, originalFilesMap !! id pf = Some o
            /\ e = mkZipEntry (folder e) (fileName o) o
            /\ folder e ∈ placedFolders gameProviderMap (extractedInstances pf).
Proof.
  unfold placements. destruct (originalFilesMap !! id pf) as [o|].
  - rewrite list_elem_of_fmap. split.
    + intros (f & -> & Hf). exists o. cbn [folder]. auto.
    + intros (o' & [= <-] & E & Hf). exists (folder e). auto.
  - split; [intros H; inversion H | intros (o & [=] & _)].
Qed.

Lemma archive_elem fs (e : ZipEntry) :
  e ∈ (exportLoop gameProviderMap originalFilesMap fs).1 <->
  exists pf o, pf ∈ fs /\ status pf = st_completed
               /\ originalFilesMap !! id pf = Some o
               /\ e = mkZipEntry (folder e) (fileName o) o
               /\ folder e ∈ placedFolders gameProviderMap
                               (extractedInstances pf).
Proof.
  rewrite exportLoop_spec. cbn [fst]. rewrite list_elem_of_In, in_flat_map.
  split.
  - intros (pf & Hpf & He). apply list_elem_of_In in Hpf, He.
    apply (list_elem_of_filter (fun f => isCompleted f = true)) in Hpf
      as [Hc Hpf].
    apply isCompleted_true in Hc.
    apply placements_elem in He as (o & Ho & Ee & Hf).
    exists pf, o. auto.
  - intros (pf & o & Hpf & Hc & Ho & Ee & Hf). exists pf.
    rewrite <- !list_elem_of_In. split.
    + apply (list_elem_of_filter (fun f => isCompleted f = true)).
      split; [apply isCompleted_true; exact Hc | exact Hpf].
    + apply placements_elem. exists o. auto.
Qed.

End ArchiveFacts.

(** X25: the outcome of the export.  It is refused exactly when an export
    or a batch is running, no file is completed or the provider table is
    empty.  Otherwise nothing is exported exactly when no completed file
    has its upload in the file store, which cannot be when the store keeps
    the upload of every completed file.  When an archive is produced, at
    least one file is counted, and the handler has made at least as many
    [file] calls as the count it reports; this is a statement about the
    calls, not about the number of entries the archive ends with. *)
Theorem export_outcome (isZipping isBatchProcessing generates : bool)
    (processedFiles : list (ProcessedFileData (option jsstring)))
    (originalFilesMap : gmap jsstring File)
    (gameProviderMap : GameProviderMap) :
  let outcome :=
    handleExportZip isZipping isBatchProcessing processedFiles
      originalFilesMap gameProviderMap generates in
  (outcome = ExportRefused
   <-> isZipping = true \/ isBatchProcessing = true
       \/ Forall (fun f => status f <> st_completed) processedFiles
       \/ gameProviderMap = ∅)
  /\ (outcome = NothingExported
      <-> outcome <> ExportRefused
          /\ Forall (fun f => status f = st_completed ->
                              originalFilesMap !! id f = None) processedFiles)
  /\ (bytesKept originalFilesMap processedFiles -> outcome <> NothingExported)
  /\ (forall zip n, outcome = Exported zip n ->
        generates = true /\ (0 < n <= length zip)%nat).
Proof.
  intros outcome.
  assert (Hguard :
    isZipping || isBatchProcessing
    || (length (filter (fun f => isCompleted f = true) processedFiles) =? 0)%nat
    || (size gameProviderMap =? 0)%nat = true
    <-> isZipping = true \/ isBatchProcessing = true
        \/ Forall (fun f => status f <> st_completed) processedFiles
        \/ gameProviderMap = ∅).
  { rewrite !orb_true_iff, !Nat.eqb_eq, length_zero_iff_nil,
      filter_completed_nil, map_size_empty_iff. tauto. }
  assert (Hrefused : outcome = ExportRefused
                     <-> isZipping = true \/ isBatchProcessing = true
                         \/ Forall (fun f => status f <> st_completed)
                              processedFiles
                         \/ gameProviderMap = ∅).
  { rewrite <- Hguard. unfold outcome, handleExportZip.
    destruct (isZipping || isBatchProcessing
              || (length (filter (fun f => isCompleted f = true) processedFiles)
                  =? 0)%nat
              || (size gameProviderMap =? 0)%nat); [split; reflexivity|].
    destruct (exportLoop gameProviderMap originalFilesMap processedFiles)
      as [zip n].
    destruct (n =? 0)%nat; [split; discriminate|].
    destruct generates; split; discriminate. }
  assert (Hnothing : outcome = NothingExported
                     <-> outcome <> ExportRefused
                         /\ Forall (fun f => status f = st_completed ->
                                             originalFilesMap !! id f = None)
                              processedFiles).
  { rewrite <- filter_exportable_nil, <- length_zero_iff_nil.
    unfold outcome, handleExportZip. rewrite exportLoop_spec.
    destruct (isZipping || isBatchProcessing
              || (length (filter (fun f => isCompleted f = true) processedFiles)
                  =? 0)%nat
              || (size gameProviderMap =? 0)%nat).
    - split; [discriminate | intros [H _]; contradiction].
    - destruct (Nat.eqb_spec
                  (length (filter (fun pf => exportable originalFilesMap pf = true)
                             processedFiles)) 0) as [E|E].
      + split; [intros _; split; [discriminate | exact E] | reflexivity].
      + destruct generates; split; try discriminate; intros [_ H];
          contradiction. }
  split; [exact Hrefused|]. split; [exact Hnothing|]. split.
  - intros Hkept Hn. apply Hnothing in Hn as [Hr Hall].
    apply Hr, Hrefused. right. right. left.
    apply Forall_forall. intros f Hf Hs.
    destruct (Hkept f Hf Hs) as [o Ho].
    rewrite Forall_forall in Hall. rewrite (Hall f Hf Hs) in Ho. discriminate.
  - intros zip n. unfold outcome, handleExportZip.
    pose proof (length_exportable_le gameProviderMap originalFilesMap
                  processedFiles) as Hle.
    rewrite exportLoop_spec.
    destruct (isZipping || isBatchProcessing
              || (length (filter (fun f => isCompleted f = true) processedFiles)
                  =? 0)%nat
              || (size gameProviderMap =? 0)%nat); [discriminate|].
    destruct (Nat.eqb_spec
                (length (filter (fun pf => exportable originalFilesMap pf = true)
                           processedFiles)) 0) as [E|E]; [discriminate|].
    destruct generates; [|discriminate].
    intros [= <- <-]. split; [reflexivity|]. lia.
Qed.

Lemma export_outcome_witness :
  handleExportZip false false [completedFile (str "f1") []]
    {[ str "f1" := certificate ]} twoProviders true
  <> NothingExported.
Proof.
  apply (proj1 (proj2 (proj2 (export_outcome false false true
           [completedFile (str "f1") []]
           {[ str "f1" := certificate ]} twoProviders)))).
  intros f Hf _. apply list_elem_of_singleton in Hf as ->.
  cbn [completedFile id]. rewrite lookup_singleton_eq. eauto.
Defined.

(** X26: the [file] calls of the export.  Every call puts the upload of
    a completed file, under its own file name, into a folder whose name is
    not empty and trimmed and which is the folder of one of the file's
    instances, or Uncategorized for a file without instances.  Conversely,
    for every instance of a completed file whose upload is in the file
    store, a call puts the upload into the folder of that instance.  This
    is a statement about the calls: which of two calls with one folder and
    one file name the archive keeps is left to the archive library. *)
Theorem export_file_calls (gameProviderMap : GameProviderMap)
    (originalFilesMap : gmap jsstring File)
    (processedFiles : list (ProcessedFileData (option jsstring))) :
  (forall e,
     e ∈ (exportLoop gameProviderMap originalFilesMap processedFiles).1 ->
     entryName e = fileName (content e)
     /\ truthy (folder e) = true /\ trim (folder e) = folder e
     /\ exists pf,
          pf ∈ processedFiles /\ status pf = st_completed
          /\ originalFilesMap !! id pf = Some (content e)
          /\ ((exists i, i ∈ extractedInstances pf
                         /\ folderNameOf gameProviderMap i = folder e)
              \/ (extractedInstances pf = [] /\ folder e = uncategorized)))
  /\ (forall pf o i,
        pf ∈ processedFiles -> status pf = st_completed ->
        originalFilesMap !! id pf = Some o -> i ∈ extractedInstances pf ->
        mkZipEntry (folderNameOf gameProviderMap i) (fileName o) o
        ∈ (exportLoop gameProviderMap originalFilesMap processedFiles).1).
Proof.
  split.
  - intros e He. apply archive_elem in He as (pf & o & Hpf & Hc & Ho & Ee & Hf).
    apply placedFolders_elem in Hf.
    assert (Hcontent : content e = o) by (rewrite Ee; reflexivity).
    assert (Hname : entryName e = fileName o) by (rewrite Ee; reflexivity).
    split; [rewrite Hname, Hcontent; reflexivity|].
    assert (Hshape : truthy (folder e) = true /\ trim (folder e) = folder e).
    { destruct Hf as [(i & _ & <-)|[_ ->]].
      - apply folderNameOf_shape.
      - split; reflexivity. }
    destruct Hshape as [H1 H2]. split; [exact H1|]. split; [exact H2|].
    exists pf. rewrite Hcontent. auto.
  - intros pf o i Hpf Hc Ho Hi. apply archive_elem.
    exists pf, o. cbn [folder]. split; [exact Hpf|]. split; [exact Hc|].
    split; [exact Ho|]. split; [reflexivity|].
    apply placedFolders_elem. left. exists i. auto.
Qed.

Lemma export_file_calls_witness :
  mkZipEntry
    (folderNameOf twoProviders (instanceOf (Some (str "Alpha")) None))
    (fileName certificate) certificate
  ∈ (exportLoop twoProviders {[ str "f1" := certificate ]}
       [completedFile (str "f1") [instanceOf (Some (str "Alpha")) None]]).1.
Proof.
  apply (proj2 (export_file_calls twoProviders {[ str "f1" := certificate ]}
                  [completedFile (str "f1")
                     [instanceOf (Some (str "Alpha")) None]])
           (completedFile (str "f1") [instanceOf (Some (str "Alpha")) None])
           certificate (instanceOf (Some (str "Alpha")) None)).
  - left.
  - reflexivity.
  - cbn [completedFile id]. apply lookup_singleton_eq.
  - left.
Defined.

(* ===================================================================== *)
(** * Letter case in the name normaliser *)
(* ===================================================================== *)

Section LetterCase.

Implicit Types (s pat : jsstring) (c p : Z).

Lemma toLowerCaseUnit_cases c :
  toLowerCaseUnit c = c
  \/ (toLowerCaseUnit c = c + 32
      /\ (65 <= c <= 90 \/ 192 <= c <= 222)).
Proof.
  unfold toLowerCaseUnit.
  destruct (Z.leb_spec 65 c), (Z.leb_spec c 90), (Z.leb_spec 192 c),
    (Z.leb_spec c 222), (Z.eqb_spec c 215); cbn [andb negb];
    first [left; reflexivity | right; split; [reflexivity | lia]].
Qed.

Lemma isWhiteSpace_letters c :
  65 <= c <= 122 \/ 192 <= c <= 254 -> isWhiteSpace c = false.
Proof.
  intros H. unfold isWhiteSpace.
  repeat match goal with
         | |- context [c =? ?k] => rewrite (proj2 (Z.eqb_neq c k)) by lia
         end.
  rewrite (proj2 (Z.leb_gt 8192 c)) by lia. reflexivity.
Qed.

Lemma isSymbol_letters c :
  65 <= c <= 122 \/ 192 <= c <= 254 -> isSymbol c = false.
Proof.
  intros H. unfold isSymbol.
  destruct (Z.eqb_spec c 174) as [->|H174].
  - exfalso. lia.
  - destruct (Z.eqb_spec c 169) as [->|H169]; [exfalso; lia|].
    destruct (Z.eqb_spec c 8482) as [->|H8482]; [exfalso; lia|]. reflexivity.
Qed.

Lemma isWhiteSpace_lower c : isWhiteSpace (toLowerCaseUnit c) = isWhiteSpace c.
Proof.
  destruct (toLowerCaseUnit_cases c) as [->|[-> H]]; [reflexivity|].
  rewrite !isWhiteSpace_letters by lia. reflexivity.
Qed.

Lemma isSymbol_lower c : isSymbol (toLowerCaseUnit c) = isSymbol c.
Proof.
  destruct (toLowerCaseUnit_cases c) as [->|[-> H]]; [reflexivity|].
  rewrite !isSymbol_letters by lia. reflexivity.
Qed.

Lemma dropWhile_lower s :
  dropWhile isWhiteSpace (toLowerCase s)
  = toLowerCase (dropWhile isWhiteSpace s).
Proof.
  unfold toLowerCase. induction s as [|c s IH]; [reflexivity|].
  cbn [map dropWhile]. rewrite isWhiteSpace_lower.
  destruct (isWhiteSpace c); [exact IH | reflexivity].
Qed.

Lemma trim_lower s : trim (toLowerCase s) = toLowerCase (trim s).
Proof.
  unfold trim, trimStart, trimEnd. rewrite dropWhile_lower.
  unfold toLowerCase at 1. rewrite <- map_rev.
  fold (toLowerCase (rev (dropWhile isWhiteSpace s))).
  rewrite dropWhile_lower. unfold toLowerCase. rewrite map_rev. reflexivity.
Qed.

Lemma stripSymbols_lower s :
  stripSymbols (toLowerCase s) = toLowerCase (stripSymbols s).
Proof.
  unfold stripSymbols, toLowerCase. induction s as [|c s IH]; [reflexivity|].
  cbn [map]. rewrite !filter_cons.
  destruct (decide (isSymbol (toLowerCaseUnit c) = false)) as [E|E];
    destruct (decide (isSymbol c = false)) as [E'|E'].
  - cbn [map]. rewrite IH. reflexivity.
  - rewrite isSymbol_lower in E. contradiction.
  - rewrite isSymbol_lower in E. contradiction.
  - exact IH.
Qed.

Lemma collapseFrom_lower b s :
  collapseFrom b (toLowerCase s) = toLowerCase (collapseFrom b s).
Proof.
  unfold toLowerCase. revert b. induction s as [|c s IH]; intros b;
    [reflexivity|].
  cbn [map collapseFrom]. rewrite isWhiteSpace_lower.
  destruct (isWhiteSpace c).
  - destruct b; [apply IH|]. cbn [map]. rewrite IH. reflexivity.
  - cbn [map]. rewrite IH. reflexivity.
Qed.

Lemma canonicalize_lower p c :
  canonicalize p < 192 ->
  eqUnitIgnoreCase p (toLowerCaseUnit c) = eqUnitIgnoreCase p c.
Proof.
  unfold eqUnitIgnoreCase. generalize (canonicalize p). intros q Hq.
  destruct (toLowerCaseUnit_cases c) as [->|[-> H]]; [reflexivity|].
  unfold canonicalize.
  destruct (Z.leb_spec 97 (c + 32)), (Z.leb_spec (c + 32) 122),
    (Z.leb_spec 97 c), (Z.leb_spec c 122); cbn [andb];
    repeat match goal with
           | |- context [Z.eqb ?a ?b] => destruct (Z.eqb_spec a b)
           end; try reflexivity; exfalso; lia.
Qed.

Lemma matchLiteral_lower pat s :
  Forall (fun p => canonicalize p < 192) pat ->
  matchLiteralIgnoreCase pat (toLowerCase s)
  = toLowerCase <$> matchLiteralIgnoreCase pat s.
Proof.
  intros H. revert s. induction H as [|p pat Hp _ IH]; intros s;
    [reflexivity|].
  destruct s as [|c s]; [reflexivity|].
  cbn [toLowerCase map matchLiteralIgnoreCase].
  rewrite (canonicalize_lower p c Hp).
  destruct (eqUnitIgnoreCase p c); [apply IH | reflexivity].
Qed.

Lemma copyToken_ascii : Forall (fun p => canonicalize p < 192) copyToken.
Proof. repeat constructor. Qed.

Lemma suffix94pct_ascii : Forall (fun p => canonicalize p < 192) suffix94pct.
Proof. repeat constructor. Qed.

Lemma suffixV94_ascii : Forall (fun p => canonicalize p < 192) suffixV94.
Proof. repeat constructor. Qed.

Lemma matchCopyAt_lower s :
  matchCopyAt (toLowerCase s) = toLowerCase <$> matchCopyAt s.
Proof.
  unfold matchCopyAt. rewrite dropWhile_lower.
  apply matchLiteral_lower, copyToken_ascii.
Qed.

Lemma replaceCopy_lower s :
  replaceCopy (toLowerCase s) = toLowerCase (replaceCopy s).
Proof.
  induction s as [|c s IH].
  - reflexivity.
  - rewrite (replaceCopy_eq (c :: s)).
    rewrite (replaceCopy_eq (toLowerCase (c :: s))), matchCopyAt_lower.
    destruct (matchCopyAt (c :: s)) as [rest|]; [reflexivity|].
    cbn [fmap option_fmap option_map toLowerCase map].
    fold (toLowerCase s). rewrite IH. reflexivity.
Qed.

Lemma lower_eq_nil (o : option jsstring) :
  bool_decide (toLowerCase <$> o = Some []) = bool_decide (o = Some []).
Proof.
  apply bool_decide_ext. destruct o as [[|c r]|]; cbn; split;
    intros H; try discriminate H; reflexivity.
Qed.

Lemma matchVersionAt_lower s :
  matchVersionAt (toLowerCase s) = matchVersionAt s.
Proof.
  destruct s as [|c s]; [reflexivity|].
  change (toLowerCase (c :: s)) with (toLowerCaseUnit c :: toLowerCase s).
  unfold matchVersionAt. rewrite isWhiteSpace_lower.
  change (toLowerCaseUnit c :: toLowerCase s) with (toLowerCase (c :: s)).
  rewrite dropWhile_lower.
  rewrite (matchLiteral_lower _ _ suffix94pct_ascii),
    (matchLiteral_lower _ _ suffixV94_ascii), !lower_eq_nil.
  reflexivity.
Qed.

Lemma replaceVersion_lower s :
  replaceVersion (toLowerCase s) = toLowerCase (replaceVersion s).
Proof.
  induction s as [|c s IH]; [reflexivity|].
  change (replaceVersion (toLowerCase (c :: s))
          = toLowerCase (if matchVersionAt (c :: s) then []
                         else c :: replaceVersion s)).
  change (toLowerCase (c :: s)) with (toLowerCaseUnit c :: toLowerCase s).
  change (replaceVersion (toLowerCaseUnit c :: toLowerCase s))
    with (if matchVersionAt (toLowerCaseUnit c :: toLowerCase s) then []
          else toLowerCaseUnit c :: replaceVersion (toLowerCase s)).
  change (toLowerCaseUnit c :: toLowerCase s) with (toLowerCase (c :: s)) at 1.
  rewrite matchVersionAt_lower.
  destruct (matchVersionAt (c :: s)); [reflexivity|].
  rewrite IH. reflexivity.
Qed.

Lemma toLowerCase_idem s : toLowerCase (toLowerCase s) = toLowerCase s.
Proof. apply toLowerCase_fixed, toLowerCase_lower. Qed.

Lemma truthy_lower s : truthy (toLowerCase s) = truthy s.
Proof. destruct s; reflexivity. Qed.

Lemma normalize_lower s :
  normalizeGameName (Some (toLowerCase s)) = normalizeGameName (Some s).
Proof.
  unfold normalizeGameName, normalizeAfterCopy. rewrite truthy_lower.
  destruct (truthy s); [|reflexivity].
  rewrite trim_lower, replaceCopy_lower, replaceVersion_lower,
    toLowerCase_idem. reflexivity.
Qed.

(** The key is the displayed name in lower case, before the displayed name
    falls back to N/A. *)
Lemma normalize_display s :
  normalizeGameName (Some s)
  = if truthy s
    then toLowerCase
           (trim (collapseWhiteSpace
                    (stripSymbols (replaceVersion (replaceCopy (trim s))))))
    else [].
Proof.
  unfold normalizeGameName, normalizeAfterCopy, collapseWhiteSpace.
  destruct (truthy s); [|reflexivity].
  rewrite stripSymbols_lower, collapseFrom_lower, trim_lower. reflexivity.
Qed.

End LetterCase.

(* ===================================================================== *)
(** * The normaliser and the engine's lower-casing *)
(* ===================================================================== *)

Section NormaliserWith.

Variable lower : jsstring -> jsstring.

Implicit Types (s n : jsstring) (P : Z -> Prop).

Lemma latin1_check s :
  forallb (fun c => (0 <=? c) && (c <? 256)) s = true -> latin1 s.
Proof.
  unfold latin1. induction s as [|c s IH]; cbn [forallb]; [constructor|].
  intros H. apply andb_true_iff in H as [Hc H].
  apply andb_true_iff in Hc as [H0 H1]. constructor; [lia | auto].
Qed.

Lemma Forall_dropWhile P (p : Z -> bool) s :
  Forall P s -> Forall P (dropWhile p s).
Proof.
  induction 1 as [|c s Hc Hs IH]; [constructor|].
  cbn [dropWhile]. destruct (p c); [exact IH | constructor; assumption].
Qed.

Lemma Forall_matchLiteral P pat s rest :
  matchLiteralIgnoreCase pat s = Some rest -> Forall P s -> Forall P rest.
Proof.
  revert s. induction pat as [|q pat IH]; intros s; cbn [matchLiteralIgnoreCase].
  - intros [= ->]. auto.
  - destruct s as [|c s]; [discriminate|].
    destruct (eqUnitIgnoreCase q c); [|discriminate].
    intros H Hs. apply Forall_cons in Hs as [_ Hs]. eapply IH; eassumption.
Qed.

Lemma Forall_replaceCopy P s : Forall P s -> Forall P (replaceCopy s).
Proof.
  induction s as [|c s IH]; intros H; [constructor|].
  rewrite replaceCopy_eq. destruct (matchCopyAt (c :: s)) as [rest|] eqn:E.
  - unfold matchCopyAt in E. eapply Forall_matchLiteral; [exact E|].
    apply Forall_dropWhile. exact H.
  - apply Forall_cons in H as [Hc Hs]. constructor; auto.
Qed.

Lemma Forall_replaceVersion P s : Forall P s -> Forall P (replaceVersion s).
Proof.
  induction 1 as [|c s Hc Hs IH]; [constructor|].
  change (Forall P (if matchVersionAt (c :: s) then []
                    else c :: replaceVersion s)).
  destruct (matchVersionAt (c :: s)); constructor; assumption.
Qed.

Lemma latin1_toLowerCaseUnit c :
  0 <= c < 256 -> 0 <= toLowerCaseUnit c < 256.
Proof.
  intros H. destruct (toLowerCaseUnit_cases c) as [->|[-> Hr]]; lia.
Qed.

Lemma latin1_toLowerCase s : latin1 s -> latin1 (toLowerCase s).
Proof.
  unfold latin1, toLowerCase. induction 1 as [|c s Hc _ IH]; cbn [map];
    constructor; [apply latin1_toLowerCaseUnit; exact Hc | exact IH].
Qed.

(** The part of a name that is handed to the lower-casing. *)
Lemma latin1_before_lower s :
  latin1 s -> latin1 (replaceVersion (replaceCopy (trim s))).
Proof.
  intros H. apply Forall_replaceVersion, Forall_replaceCopy, Forall_trim.
  exact H.
Qed.

Lemma normalizeWith_latin1 (name : option jsstring) :
  agreesOnLatin1 lower -> latin1Name name ->
  normalizeGameNameWith lower name = normalizeGameName name.
Proof.
  intros Hl Hn. destruct name as [s|]; [|reflexivity].
  cbn [normalizeGameNameWith normalizeGameName].
  destruct (truthy s); [|reflexivity].
  unfold normalizeAfterCopyWith, normalizeAfterCopy.
  rewrite (Hl _ (latin1_before_lower s Hn)). reflexivity.
Qed.

Lemma latin1_key (name : option jsstring) :
  latin1Name name -> latin1 (normalizeGameName name).
Proof.
  intros Hn. destruct name as [s|]; [|constructor].
  cbn [normalizeGameName]. destruct (truthy s); [|constructor].
  unfold normalizeAfterCopy, collapseWhiteSpace.
  apply Forall_trim, Forall_collapseFrom; [lia|].
  apply Forall_stripSymbols, latin1_toLowerCase, latin1_before_lower.
  exact Hn.
Qed.

Lemma latin1_display (name : option jsstring) :
  latin1Name name -> latin1 (cleanGameNameForDisplay name).
Proof.
  assert (Hna : latin1 (str "N/A")).
  { apply latin1_check. reflexivity. }
  intros Hn. destruct name as [s|]; [|exact Hna].
  cbn [cleanGameNameForDisplay]. destruct (truthy s); [|exact Hna].
  unfold orElse.
  destruct (truthy (trim (collapseWhiteSpace
              (stripSymbols (replaceVersion (replaceCopy (trim s)))))));
    [|exact Hna].
  unfold collapseWhiteSpace.
  apply Forall_trim, Forall_collapseFrom; [lia|].
  apply Forall_stripSymbols, latin1_before_lower. exact Hn.
Qed.

(** What a key looks like, whatever the lower-casing does. *)
Lemma normalizeWith_shape (name : option jsstring) :
  let n := normalizeGameNameWith lower name in
  trim n = n
  /\ Forall (fun c => isSymbol c = false) n
  /\ normalWs false n.
Proof.
  assert (Hnil : trim [] = ([] : jsstring)
                 /\ Forall (fun c => isSymbol c = false) ([] : jsstring)
                 /\ normalWs false []).
  { split; [reflexivity|]. split; [constructor | exact I]. }
  destruct name as [s|]; cbn [normalizeGameNameWith]; [|exact Hnil].
  destruct (truthy s); [|exact Hnil].
  unfold normalizeAfterCopyWith, collapseWhiteSpace. cbv zeta.
  split; [apply trim_idem|]. split.
  - apply Forall_trim, Forall_collapseFrom; [reflexivity|].
    apply stripSymbols_clean.
  - apply normalWs_trim, collapseFrom_normal.
Qed.

Lemma normalizeWith_fixed n :
  trim n = n -> lower n = n ->
  Forall (fun c => isSymbol c = false) n -> normalWs false n ->
  ~ ContainsCopy n -> ~ EndsWithVersion n ->
  normalizeGameNameWith lower (Some n) = n.
Proof.
  intros Ht Hl Hs Hw Hc Hv. cbn [normalizeGameNameWith].
  destruct n as [|c n']; [reflexivity|].
  cbn [truthy]. rewrite Ht, (replaceCopy_clean _ Hc).
  unfold normalizeAfterCopyWith. rewrite (replaceVersion_clean _ Hv), Hl.
  rewrite (stripSymbols_fixed _ Hs).
  unfold collapseWhiteSpace. rewrite (normalWs_fixed _ _ Hw). exact Ht.
Qed.

End NormaliserWith.

Lemma agreesOnLatin1_table : agreesOnLatin1 toLowerCase.
Proof. intros s _. reflexivity. Qed.

(** C2, as stated: normalising twice is the same as normalising once, for
    every string.  This fails in two ways.  Only the leftmost copy token
    is removed by one pass, so the key of a name with two tokens still
    holds one, which a second pass removes.  And the version suffix is
    looked for before the symbols are stripped, so a suffix in front of a
    trailing symbol is left in the key, and a second pass removes it. *)
Lemma normalize_idempotence_counterexample :
  (normalizeGameName (Some (str "a (copy) (copy)")) = str "a (copy)"
   /\ normalizeGameName (Some (str "a (copy)")) = str "a"
   /\ normalizeGameName
        (Some (normalizeGameName (Some (str "a (copy) (copy)"))))
      <> normalizeGameName (Some (str "a (copy) (copy)")))
  /\ (normalizeGameName (Some (str "a 94%" ++ [174])) = str "a 94%"
      /\ normalizeGameName (Some (str "a 94%")) = str "a"
      /\ normalizeGameName
           (Some (normalizeGameName (Some (str "a 94%" ++ [174]))))
         <> normalizeGameName (Some (str "a 94%" ++ [174]))).
Proof.
  split; (split; [vm_compute; reflexivity|]; split; [vm_compute; reflexivity|];
          vm_compute; intros H; discriminate H).
Qed.

(** C2, amended.  Whatever the engine's lower-casing does, normalising a
    key again returns the same key whenever the key holds no copy token,
    does not end with white space followed by a version suffix, and is
    left as it is by lower-casing; this covers the null and the empty
    name.  For a name of Latin-1 code units the key is always left as it
    is by lower-casing, and it is a fixed point of the normaliser exactly
    when it holds no token and no suffix. *)
Theorem normalize_idempotent_on_clean_keys (lower : jsstring -> jsstring)
    (name : option jsstring) :
  (~ ContainsCopy (normalizeGameNameWith lower name) ->
   ~ EndsWithVersion (normalizeGameNameWith lower name) ->
   lower (normalizeGameNameWith lower name) = normalizeGameNameWith lower name ->
   normalizeGameNameWith lower (Some (normalizeGameNameWith lower name))
   = normalizeGameNameWith lower name)
  /\ (agreesOnLatin1 lower -> latin1Name name ->
      lower (normalizeGameNameWith lower name)
      = normalizeGameNameWith lower name
      /\ (normalizeGameNameWith lower (Some (normalizeGameNameWith lower name))
          = normalizeGameNameWith lower name
          <-> ~ ContainsCopy (normalizeGameNameWith lower name)
              /\ ~ EndsWithVersion (normalizeGameNameWith lower name))).
Proof.
  split.
  - intros Hc Hv Hl.
    destruct (normalizeWith_shape lower name) as (Ht & Hs & Hw).
    apply normalizeWith_fixed; assumption.
  - intros Ha Hn. rewrite (normalizeWith_latin1 lower name Ha Hn).
    pose proof (latin1_key name Hn) as Hk.
    rewrite (normalizeWith_latin1 lower (Some (normalizeGameName name)) Ha Hk).
    split.
    + rewrite (Ha _ Hk). apply toLowerCase_fixed.
      apply (normalizeGameName_shape name).
    + apply normalize_fixed_point_iff.
Qed.

Lemma normalize_idempotent_on_clean_keys_witness :
  normalizeGameNameWith toLowerCase
    (Some (normalizeGameNameWith toLowerCase
             (Some (str "Mega Fortune" ++ [174] ++ str " (copy) 94%"))))
  = normalizeGameNameWith toLowerCase
      (Some (str "Mega Fortune" ++ [174] ++ str " (copy) 94%")).
Proof.
  apply (proj2 (proj2 (normalize_idempotent_on_clean_keys toLowerCase
                  (Some (str "Mega Fortune" ++ [174] ++ str " (copy) 94%")))
                  agreesOnLatin1_table
                  ltac:(apply latin1_check; vm_compute; reflexivity))).
  split; intros H;
    [apply ContainsCopy_bool in H | apply EndsWithVersion_bool in H];
    vm_compute in H; discriminate H.
Defined.

(** The condition on lower-casing cannot be dropped beyond Latin-1: for an
    engine that folds the pair of code units D801 DC00 to D801 DC28 and
    leaves a lone half as it is, the two halves around a trademark symbol
    make a key without token and without suffix that a second pass
    changes, the symbol between them being gone. *)
Lemma lower_casing_condition_is_needed (lower : jsstring -> jsstring) :
  lower [55297; 8482; 56320] = [55297; 8482; 56320] ->
  lower [55297; 56320] = [55297; 56360] ->
  normalizeGameNameWith lower (Some [55297; 8482; 56320]) = [55297; 56320]
  /\ ~ ContainsCopy [55297; 56320]
  /\ ~ EndsWithVersion [55297; 56320]
  /\ normalizeGameNameWith lower (Some [55297; 56320]) = [55297; 56360].
Proof.
  intros H1 H2. split; [|split; [|split]].
  - cbn [normalizeGameNameWith truthy].
    change (trim [55297; 8482; 56320]) with [55297; 8482; 56320].
    change (replaceCopy [55297; 8482; 56320]) with [55297; 8482; 56320].
    unfold normalizeAfterCopyWith.
    change (replaceVersion [55297; 8482; 56320]) with [55297; 8482; 56320].
    rewrite H1. vm_compute. reflexivity.
  - intros H. apply ContainsCopy_bool in H. vm_compute in H. discriminate H.
  - intros H. apply EndsWithVersion_bool in H. vm_compute in H. discriminate H.
  - cbn [normalizeGameNameWith truthy].
    change (trim [55297; 56320]) with [55297; 56320].
    change (replaceCopy [55297; 56320]) with [55297; 56320].
    unfold normalizeAfterCopyWith.
    change (replaceVersion [55297; 56320]) with [55297; 56320].
    rewrite H2. vm_compute. reflexivity.
Qed.

(** X27: for names of Latin-1 code units the key does not depend on
    letter case: two such names that are equal once lower-cased have the
    same key, so the lookups in the provider table and in the
    authoritative code map are not case sensitive for them. *)
Theorem key_ignores_letter_case (lower : jsstring -> jsstring)
    (a b : jsstring) :
  agreesOnLatin1 lower -> latin1 a -> latin1 b ->
  lower a = lower b ->
  normalizeGameNameWith lower (Some a) = normalizeGameNameWith lower (Some b).
Proof.
  intros Hl Ha Hb H.
  rewrite (normalizeWith_latin1 lower (Some a) Hl Ha),
    (normalizeWith_latin1 lower (Some b) Hl Hb).
  rewrite (Hl a Ha), (Hl b Hb) in H.
  rewrite <- (normalize_lower a), <- (normalize_lower b), H. reflexivity.
Qed.

Lemma key_ignores_letter_case_witness :
  normalizeGameNameWith toLowerCase (Some (str "Mega FORTUNE (Copy)"))
  = normalizeGameNameWith toLowerCase (Some (str "mega Fortune (COPY)")).
Proof.
  apply (key_ignores_letter_case toLowerCase (str "Mega FORTUNE (Copy)")
           (str "mega Fortune (COPY)") agreesOnLatin1_table).
  - apply latin1_check. vm_compute. reflexivity.
  - apply latin1_check. vm_compute. reflexivity.
  - vm_compute. reflexivity.
Defined.

(** X28: for names of Latin-1 code units the key is the displayed name in
    lower case.  When the key is not empty it is the lower-cased displayed
    name; when it is empty the displayed name is N/A.  So two such names
    with equal displayed names and keys that are not empty have the same
    key. *)
Theorem key_is_lower_cased_display (lower : jsstring -> jsstring)
    (name : option jsstring) :
  agreesOnLatin1 lower -> latin1Name name ->
  (truthy (normalizeGameNameWith lower name) = true ->
   normalizeGameNameWith lower name = lower (cleanGameNameForDisplay name))
  /\ (truthy (normalizeGameNameWith lower name) = false ->
      cleanGameNameForDisplay name = notAvailable)
  /\ (forall other,
        latin1Name other ->
        truthy (normalizeGameNameWith lower name) = true ->
        truthy (normalizeGameNameWith lower other) = true ->
        cleanGameNameForDisplay name = cleanGameNameForDisplay other ->
        normalizeGameNameWith lower name = normalizeGameNameWith lower other).
Proof.
  intros Hl Hname.
  assert (H : forall n : option jsstring,
    latin1Name n ->
    (truthy (normalizeGameNameWith lower n) = true ->
     normalizeGameNameWith lower n = lower (cleanGameNameForDisplay n))
    /\ (truthy (normalizeGameNameWith lower n) = false ->
        cleanGameNameForDisplay n = notAvailable)).
  { intros n Hn. rewrite (normalizeWith_latin1 lower n Hl Hn).
    rewrite (Hl _ (latin1_display n Hn)).
    destruct n as [s|]; [|split; [discriminate | reflexivity]].
    rewrite normalize_display. unfold cleanGameNameForDisplay.
    destruct (truthy s); [|split; [discriminate | reflexivity]].
    unfold orElse.
    destruct (trim (collapseWhiteSpace
                      (stripSymbols (replaceVersion (replaceCopy (trim s))))))
      as [|c r]; split; try discriminate; reflexivity. }
  split; [apply (H name Hname)|]. split; [apply (H name Hname)|].
  intros other Hother Hn Ho E.
  rewrite (proj1 (H name Hname) Hn), (proj1 (H other Hother) Ho), E.
  reflexivity.
Qed.

Lemma key_is_lower_cased_display_witness :
  normalizeGameNameWith toLowerCase (Some (str "Mega Fortune 94%"))
  = toLowerCase (cleanGameNameForDisplay (Some (str "Mega Fortune 94%"))).
Proof.
  apply (proj1 (key_is_lower_cased_display toLowerCase
                  (Some (str "Mega Fortune 94%")) agreesOnLatin1_table
                  ltac:(apply latin1_check; vm_compute; reflexivity))).
  vm_compute. reflexivity.
Defined.


(* ===================================================================== *)
(** * Failures that are found before any request *)
(* ===================================================================== *)

Section LocalFailures.

Lemma trim_all_whiteSpace (s : jsstring) :
  Forall (fun c => isWhiteSpace c = true) s -> trim s = [].
Proof.
  intros H. unfold trim, trimStart.
  rewrite <- (app_nil_r s), (dropWhile_all isWhiteSpace s [] H). reflexivity.
Qed.

Lemma joinSpace_whiteSpace (items : list jsstring) :
  Forall (Forall (fun c => isWhiteSpace c = true)) items ->
  Forall (fun c => isWhiteSpace c = true) (joinSpace items).
Proof.
  induction 1 as [|x rest Hx Hrest IH]; [constructor|].
  cbn [joinSpace]. destruct rest as [|y rest]; [exact Hx|].
  apply Forall_app. split; [exact Hx|].
  apply Forall_app. split; [repeat constructor | exact IH].
Qed.

Lemma pages_whiteSpace (pages : list (list jsstring)) :
  Forall (Forall (Forall (fun c => isWhiteSpace c = true))) pages ->
  Forall (fun c => isWhiteSpace c = true)
    (concat (map (fun items => joinSpace items ++ [10]) pages)).
Proof.
  induction 1 as [|p pages Hp _ IH]; [constructor|].
  cbn [map concat]. apply Forall_app. split; [|exact IH].
  apply Forall_app. split; [apply joinSpace_whiteSpace; exact Hp|].
  repeat constructor.
Qed.

End LocalFailures.

(** X29: a file that cannot be read fails before any request is made,
    whatever the key: a file that is missing from the store, a
    file of another type than PDF, PNG or JPEG, and a PDF whose pages hold
    only white space each end with their own message, and the world is
    left as it was. *)
Theorem unreadable_file_makes_no_request (ext : Externals)
    (apiKey : jsstring) (originalFilesMap : gmap jsstring File)
    (fileId : jsstring) (w : World) :
  (originalFilesMap !! fileId = None ->
   tryProcess ext apiKey originalFilesMap fileId w
   = (Err (MkError (str "Original file not found for processing.")), w))
  /\ (forall file,
        originalFilesMap !! fileId = Some file ->
        isPdfType (fileType file) = false ->
        isImageType (fileType file) = false ->
        tryProcess ext apiKey originalFilesMap fileId w
        = (Err (MkError (str "Unsupported file type for processing: "
                         ++ fileType file)), w))
  /\ (forall file pages,
        originalFilesMap !! fileId = Some file ->
        isPdfType (fileType file) = true ->
        pdfTextItems ext file = Ok pages ->
        Forall (Forall (Forall (fun c => isWhiteSpace c = true))) pages ->
        tryProcess ext apiKey originalFilesMap fileId w
        = (Err (MkError
                  (str "No text content could be extracted from the PDF.")),
           w)).
Proof.
  split; [|split].
  - intros H. unfold tryProcess. rewrite H. reflexivity.
  - intros file H Hp Hi. unfold tryProcess. rewrite H, Hp, Hi. reflexivity.
  - intros file pages H Hp Hpages Hws. unfold tryProcess, extractTextFromPdf.
    rewrite H, Hp, Hpages. unfold mbind, Result_bind, bindR.
    rewrite (trim_all_whiteSpace _ (pages_whiteSpace pages Hws)).
    reflexivity.
Qed.

Lemma unreadable_file_makes_no_request_witness :
  tryProcess
    (mkExternals rejectingParser (fun _ => Threw serverError)
       (fun _ => Ok [[str " "; []]; []]) (fun _ => Ok None))
    (str "key") {[ str "a" := certificate ]} (str "a") (mkWorld 0 [])
  = (Err (MkError (str "No text content could be extracted from the PDF.")),
     mkWorld 0 []).
Proof.
  apply (proj2 (proj2 (unreadable_file_makes_no_request
           (mkExternals rejectingParser (fun _ => Threw serverError)
              (fun _ => Ok [[str " "; []]; []]) (fun _ => Ok None))
           (str "key") {[ str "a" := certificate ]} (str "a") (mkWorld 0 [])))
           certificate [[str " "; []]; []]).
  - apply lookup_singleton_eq.
  - reflexivity.
  - reflexivity.
  - repeat constructor.
Defined.

(* ===================================================================== *)
(** * The file found for an uploaded entry *)
(* ===================================================================== *)

Section UploadStore.

Variable now : nat -> jsstring.

Lemma upload_store_other (files : list File) (i : nat)
    (new : list (ProcessedFileData json)) (m : gmap jsstring File)
    (key : jsstring) :
  (forall (j : nat) file', files !! j = Some file' ->
                           uploadId now (i + j) file' <> key) ->
  (foldl (uploadStep now) (i, new, m) files).2 !! key = m !! key.
Proof.
  revert i new m. induction files as [|f fs IH]; intros i new m H;
    [reflexivity|].
  cbn [foldl]. rewrite uploadStep_entry. rewrite IH.
  - apply lookup_insert_ne. specialize (H 0%nat f eq_refl).
    rewrite Nat.add_0_r in H. exact H.
  - intros j file' Hj. specialize (H (S j) file' Hj).
    rewrite Nat.add_succ_r in H. exact H.
Qed.

Lemma upload_store_lookup (files : list File) (i : nat)
    (new : list (ProcessedFileData json)) (m : gmap jsstring File)
    (k : nat) (file : File) :
  files !! k = Some file ->
  (forall (j : nat) file', (k < j)%nat -> files !! j = Some file' ->
     uploadId now (i + j) file' <> uploadId now (i + k) file) ->
  (foldl (uploadStep now) (i, new, m) files).2 !! uploadId now (i + k) file
  = Some file.
Proof.
  revert i new m k. induction files as [|f fs IH]; intros i new m k Hk H;
    [discriminate Hk|].
  cbn [foldl]. rewrite uploadStep_entry. destruct k as [|k].
  - injection Hk as ->. rewrite upload_store_other.
    + rewrite Nat.add_0_r. apply lookup_insert_eq.
    + intros j file' Hj. specialize (H (S j) file' ltac:(lia) Hj).
      rewrite Nat.add_succ_r in H. exact H.
  - rewrite Nat.add_succ_r. apply (IH (S i)); [exact Hk|].
    intros j file' Hlt Hj. specialize (H (S j) file' ltac:(lia) Hj).
    rewrite !Nat.add_succ_r in H. exact H.
Qed.

End UploadStore.

(** X30: the file found for an uploaded entry.  After an upload the store
    gives, under the id of the entry of a selected file, that very file,
    provided no later file of the selection gets the same id; the id is
    the file name and the time of the upload, so two files of the same
    name taken at the same time share one id, and the store then holds the
    later of them for both entries. *)
Theorem uploaded_file_is_found (now : nat -> jsstring)
    (processedFiles : list (ProcessedFileData json))
    (originalFilesMap : gmap jsstring File) (files : list File)
    (k : nat) (file : File) :
  files !! k = Some file ->
  (forall (j : nat) file', (k < j)%nat -> files !! j = Some file' ->
     fileName file' ++ str "-" ++ now j <> fileName file ++ str "-" ++ now k) ->
  (handleFilesSelected now processedFiles originalFilesMap files).2
  !! (fileName file ++ str "-" ++ now k) = Some file
  /\ (forall (h : nat) earlier,
        (h < k)%nat -> files !! h = Some earlier ->
        fileName earlier = fileName file -> now h = now k ->
        (handleFilesSelected now processedFiles originalFilesMap files).2
        !! (fileName earlier ++ str "-" ++ now h) = Some file).
Proof.
  intros Hk H.
  assert (E : (handleFilesSelected now processedFiles originalFilesMap files).2
              !! (fileName file ++ str "-" ++ now k) = Some file).
  { unfold handleFilesSelected.
    pose proof (upload_store_lookup now files 0 [] originalFilesMap k file Hk H)
      as Hl.
    destruct (foldl (uploadStep now) (0%nat, [], originalFilesMap) files)
      as [[n new] m]. exact Hl. }
  split; [exact E|].
  intros h earlier _ _ En Et. rewrite En, Et. exact E.
Qed.

Lemma uploaded_file_is_found_witness :
  (handleFilesSelected (fun _ => str "0") [] ∅
     [pdfFile (str "a.pdf");
      mkFile (str "a.pdf") (str "image/png") 7 [1; 2; 3]]).2
  !! (fileName (pdfFile (str "a.pdf")) ++ str "-" ++ str "0")
  = Some (mkFile (str "a.pdf") (str "image/png") 7 [1; 2; 3]).
Proof.
  apply (proj2 (uploaded_file_is_found (fun _ => str "0") [] ∅
                  [pdfFile (str "a.pdf");
                   mkFile (str "a.pdf") (str "image/png") 7 [1; 2; 3]]
                  1%nat (mkFile (str "a.pdf") (str "image/png") 7 [1; 2; 3])
                  eq_refl
                  ltac:(intros [|[|j]] file' Hlt Hj;
                        [lia | lia | discriminate Hj]))
           0%nat (pdfFile (str "a.pdf")) ltac:(lia) eq_refl eq_refl eq_refl).
Defined.
